(** * ctagz: a shallow embedding of [src/ctagz.js]

    The development follows the source file top to bottom: JavaScript
    strings and numbers, the tag-line parser ([_parseExtensionFields],
    [_parseTagLine]), the chunked line reader ([_skipPartialUTF8],
    [_readTagLine], [_readTagLineSeek]), the pseudo-tag loader
    ([_readPseudoTags], [init]) and the locator ([findCTagsFile]).
    Definitions come first, the theorems about them afterwards. *)

From Stdlib Require Import List Arith NArith ZArith Lia Bool.
From Stdlib Require Import Sorting.Sorted Sorting.Permutation.
From Stdlib Require Strings.String Strings.Ascii.
Import ListNotations.
Import String.StringSyntax.

Set Implicit Arguments.

(* ================================================================= *)
(** ** JavaScript strings *)

(** A JavaScript string is a sequence of UTF-16 code units. *)
Definition char := N.
Definition jsstring := list char.

(** Literals are written as Rocq strings and converted. *)
Definition lit (s : String.string) : jsstring :=
  map Ascii.N_of_ascii (String.list_ascii_of_string s).

Arguments lit s%_string_scope.

Definition TAB : char := 9%N.
Definition LF : char := 10%N.
Definition CR : char := 13%N.
Definition DQUOTE : char := 34%N.
Definition SLASH : char := 47%N.
Definition COLON : char := 58%N.
Definition SEMICOLON : char := 59%N.
Definition QUESTION : char := 63%N.
Definition BACKSLASH : char := 92%N.

Definition char_eqb (a b : char) : bool := N.eqb a b.

Fixpoint jsstring_eqb (a b : jsstring) : bool :=
  match a, b with
  | [], [] => true
  | x :: a', y :: b' => char_eqb x y && jsstring_eqb a' b'
  | _, _ => false
  end.

(** [needle] is a prefix of [s]. *)
Fixpoint prefixb (needle s : jsstring) : bool :=
  match needle, s with
  | [], _ => true
  | x :: needle', y :: s' => char_eqb x y && prefixb needle' s'
  | _ :: _, [] => false
  end.

Fixpoint indexOf_scan (needle s : jsstring) (i : nat) : option nat :=
  match s with
  | [] => None
  | _ :: s' => if prefixb needle s then Some i
               else indexOf_scan needle s' (S i)
  end.

(** [str.indexOf(needle, from)] for a non-empty [needle]; [None] stands
    for the result -1. *)
Definition indexOf (str needle : jsstring) (from : nat) : option nat :=
  indexOf_scan needle (skipn from str) from.

(** [str.substr(start, len)] and [str.substr(start)]. *)
Definition substr (str : jsstring) (start len : nat) : jsstring :=
  firstn len (skipn start str).

Definition substr_from (str : jsstring) (start : nat) : jsstring :=
  skipn start str.

(** [str.startsWith(prefix)]. *)
Definition startsWith (str prefix : jsstring) : bool := prefixb prefix str.

(** Truthiness of a string: only the empty string is falsy. *)
Definition truthy (s : jsstring) : bool :=
  match s with [] => false | _ :: _ => true end.

(** Number of leading characters satisfying [p]: the loops of the form
    [while (pos < str.length && p(str[pos])) pos += 1]. *)
Fixpoint countWhile (p : char -> bool) (s : jsstring) : nat :=
  match s with
  | c :: s' => if p c then S (countWhile p s') else 0
  | [] => 0
  end.

(* ================================================================= *)
(** ** JavaScript numbers produced by [parseInt] *)

(** [parseInt] yields NaN or an integer.  The integer is kept exact;
    JavaScript rounds it to the nearest double beyond 2^53, far above
    any line number or sort mode. *)
Inductive JSNumber :=
| NaN
| Num (z : Z).

(** [function isdigit(d) { return d >= '0' && d <= '9' }] *)
Definition isdigit (d : char) : bool :=
  (48 <=? d)%N && (d <=? 57)%N.

(** StrWhiteSpaceChar: white space and line terminators. *)
Definition isStrWhiteSpaceChar (c : char) : bool :=
  ((9 <=? c) && (c <=? 13) || (c =? 32) || (c =? 160) || (c =? 5760)
   || (8192 <=? c) && (c <=? 8202) || (c =? 8232) || (c =? 8233)
   || (c =? 8239) || (c =? 8287) || (c =? 12288) || (c =? 65279))%N.

Fixpoint dropWhile (p : char -> bool) (s : jsstring) : jsstring :=
  match s with
  | c :: s' => if p c then dropWhile p s' else s
  | [] => []
  end.

Fixpoint takeWhile (p : char -> bool) (s : jsstring) : jsstring :=
  match s with
  | c :: s' => if p c then c :: takeWhile p s' else []
  | [] => []
  end.

Fixpoint digitsValue (acc : Z) (ds : jsstring) : Z :=
  match ds with
  | [] => acc
  | d :: ds' => digitsValue (10 * acc + (Z.of_N d - 48)) ds'
  end.

(** [parseInt(s, 10)]: skip leading white space, read an optional sign,
    then the longest run of decimal digits; no digit gives NaN. *)
Definition parseInt (s : jsstring) : JSNumber :=
  let s := dropWhile isStrWhiteSpaceChar s in
  let '(sign, s) :=
    match s with
    | c :: s' => if char_eqb c 45%N then ((-1)%Z, s')
                 else if char_eqb c 43%N then (1%Z, s')
                 else (1%Z, s)
    | [] => (1%Z, s)
    end in
  match takeWhile isdigit s with
  | [] => NaN
  | ds => Num (sign * digitsValue 0 ds)
  end.

(* ================================================================= *)
(** ** Tag entries *)

Record Address := mkAddress {
  lineNumber : JSNumber;
  pattern : jsstring
}.

(** The object built at the top of [_parseTagLine].  [fields] is a
    JavaScript object used as a map from keys to values; [kind] is
    [null] or a string. *)
Record TagEntry := mkTagEntry {
  fields : list (jsstring * jsstring);
  kind : option jsstring;
  file : jsstring;
  fileScope : bool;
  name : jsstring;
  address : Address;
  valid : bool
}.

Definition new_entry : TagEntry :=
  {| fields := []; kind := None; file := []; fileScope := false;
     name := []; address := {| lineNumber := Num 0; pattern := [] |};
     valid := false |}.

Definition set_kind (v : option jsstring) (e : TagEntry) : TagEntry :=
  mkTagEntry (fields e) v (file e) (fileScope e) (name e) (address e) (valid e).
Definition set_file (v : jsstring) (e : TagEntry) : TagEntry :=
  mkTagEntry (fields e) (kind e) v (fileScope e) (name e) (address e) (valid e).
Definition set_fileScope (v : bool) (e : TagEntry) : TagEntry :=
  mkTagEntry (fields e) (kind e) (file e) v (name e) (address e) (valid e).
Definition set_name (v : jsstring) (e : TagEntry) : TagEntry :=
  mkTagEntry (fields e) (kind e) (file e) (fileScope e) v (address e) (valid e).
Definition set_valid (v : bool) (e : TagEntry) : TagEntry :=
  mkTagEntry (fields e) (kind e) (file e) (fileScope e) (name e) (address e) v.
Definition set_lineNumber (v : JSNumber) (e : TagEntry) : TagEntry :=
  mkTagEntry (fields e) (kind e) (file e) (fileScope e) (name e)
             (mkAddress v (pattern (address e))) (valid e).
Definition set_pattern (v : jsstring) (e : TagEntry) : TagEntry :=
  mkTagEntry (fields e) (kind e) (file e) (fileScope e) (name e)
             (mkAddress (lineNumber (address e)) v) (valid e).

Fixpoint assoc_set (key value : jsstring) (m : list (jsstring * jsstring))
  : list (jsstring * jsstring) :=
  match m with
  | [] => [(key, value)]
  | (k, v) :: m' => if jsstring_eqb k key then (k, value) :: m'
                    else (k, v) :: assoc_set key value m'
  end.

(** [entry.fields[key] = value] on an object created by [{}]: the last
    write to a key wins; the key [__proto__] reaches the prototype
    setter, which ignores a string. *)
Definition set_field (key value : jsstring) (e : TagEntry) : TagEntry :=
  if jsstring_eqb key (lit "__proto__") then e
  else mkTagEntry (assoc_set key value (fields e)) (kind e) (file e)
                  (fileScope e) (name e) (address e) (valid e).

(* ================================================================= *)
(** ** [_parseExtensionFields] *)

Definition isTab (c : char) : bool := char_eqb c TAB.

(** One turn of the outer [while (pos < str.length)] loop; returns the
    new [pos] (which is [splitPos]) and the updated entry. *)
Definition parseExtensionFields_body (str : jsstring) (pos : nat)
           (entry : TagEntry) : nat * TagEntry :=
  let pos := pos + countWhile isTab (skipn pos str) in
  let splitPos :=
    match indexOf str [TAB] pos with
    | None => length str
    | Some i => i
    end in
  let partPos :=
    match indexOf str [COLON] pos with
    | None => splitPos
    | Some i => if splitPos <? i then splitPos else i
    end in
  let entry :=
    if partPos =? splitPos then
      set_kind (Some (substr str pos (splitPos - pos))) entry
    else
      let key := substr str pos (partPos - pos) in
      let value := substr str (partPos + 1) (splitPos - partPos - 1) in
      if jsstring_eqb key (lit "kind") then set_kind (Some value) entry
      else if jsstring_eqb key (lit "file") then set_fileScope true entry
      else if jsstring_eqb key (lit "line") then
        set_lineNumber (parseInt value) entry
      else set_field key value entry in
  (splitPos, entry).

(** The outer loop, bounded by [fuel] turns. *)
Fixpoint parseExtensionFields_loop (fuel : nat) (str : jsstring) (pos : nat)
         (entry : TagEntry) : TagEntry :=
  match fuel with
  | 0 => entry
  | S fuel' =>
      if pos <? length str then
        let '(pos', entry') := parseExtensionFields_body str pos entry in
        parseExtensionFields_loop fuel' str pos' entry'
      else entry
  end.

(** Every turn moves [pos] forward, so [str.length] turns are enough
    (lemma [parseExtensionFields_loop_fuel] below). *)
Definition _parseExtensionFields (str : jsstring) (entry : TagEntry)
  : TagEntry :=
  parseExtensionFields_loop (length str) str 0 entry.

(* ================================================================= *)
(** ** [_parseTagLine] *)

(** Outcome of one turn of the pattern-scanning [for] loop. *)
Inductive scan_step :=
| Break
| Continue (bsc : nat) (parsedPattern : jsstring).

(** The body of the loop, at character [c = pattern[pos]]. *)
Definition scan_body (delimiter c : char) (bsc : nat)
           (parsedPattern : jsstring) : scan_step :=
  if char_eqb c BACKSLASH then Continue (bsc + 1) parsedPattern
  else if 0 <? bsc then
    Continue 0 (parsedPattern ++ repeat BACKSLASH (Nat.div2 bsc) ++ [c])
  else if char_eqb c delimiter then Break
  else Continue bsc (parsedPattern ++ [c]).

(** [for (let bsc = 0; pos < pattern.length; pos += 1) { ... }] run on
    [rest = pattern.substr(pos)]; returns the final [pos] and
    [parsedPattern]. *)
Fixpoint scan_loop (delimiter : char) (rest : jsstring) (pos bsc : nat)
         (parsedPattern : jsstring) : nat * jsstring :=
  match rest with
  | [] => (pos, parsedPattern)
  | c :: rest' =>
      match scan_body delimiter c bsc parsedPattern with
      | Break => (pos, parsedPattern)
      | Continue bsc' parsedPattern' =>
          scan_loop delimiter rest' (S pos) bsc' parsedPattern'
      end
  end.

(** The last three statements of [_parseTagLine]. *)
Definition parseTagLine_finish (pattern : jsstring) (pos : nat)
           (entry : TagEntry) : TagEntry :=
  let entry :=
    match indexOf pattern [SEMICOLON; DQUOTE] pos with
    | Some i => if i =? pos
                then _parseExtensionFields (substr_from pattern (pos + 2)) entry
                else entry
    | None => entry
    end in
  set_valid true entry.

Definition _parseTagLine (line : jsstring) : TagEntry :=
  let entry := new_entry in
  match indexOf line [TAB] 0 with
  | None => entry
  | Some nameSplit =>
    let entry := set_name (substr line 0 nameSplit) entry in
    match indexOf line [TAB] (nameSplit + 1) with
    | None => entry
    | Some fileSplit =>
      let entry :=
        set_file (substr line (nameSplit + 1) (fileSplit - nameSplit - 1))
                 entry in
      let pattern := substr_from line (fileSplit + 1) in
      match pattern with
      | [] => entry
      | c0 :: _ =>
        if char_eqb c0 SLASH || char_eqb c0 QUESTION then
          let delimiter := c0 in
          let '(pos, parsedPattern) :=
            scan_loop delimiter (substr_from pattern 1) 1 0 [] in
          if pos <? length pattern then
            parseTagLine_finish pattern (pos + 1)
                                (set_pattern parsedPattern entry)
          else entry
        else if isdigit c0 then
          let entry := set_lineNumber (parseInt pattern) entry in
          let pos := countWhile isdigit pattern in
          parseTagLine_finish pattern pos entry
        else entry
      end
    end
  end.

(* ================================================================= *)
(** ** Buffers and the string decoder *)

Definition byte := N.

(** [Buffer.allocUnsafe(n)]: [n] bytes whose content is whatever the
    memory [mem] holds. *)
Definition allocUnsafe (mem : nat -> byte) (n : nat) : list byte :=
  map mem (seq 0 n).

(** Node's [StringDecoder] for UTF-8 (an external module), as the
    byte-at-a-time machine of the WHATWG UTF-8 decoder: complete
    characters are emitted as UTF-16 code units, an incomplete trailing
    sequence is held in the state, an ill-formed sequence gives U+FFFD. *)
Inductive StringDecoder :=
| Idle
| Partial (needed : nat) (cp lower upper : N).

Definition REPLACEMENT : char := 65533%N.

Definition utf16 (cp : N) : jsstring :=
  if (cp <? 65536)%N then [cp]
  else let c := (cp - 65536)%N in
       [(55296 + N.shiftr c 10)%N; (56320 + N.land c 1023)%N].

Definition decoder_start (b : byte) : jsstring * StringDecoder :=
  if (b <=? 127)%N then ([b], Idle)
  else if (194 <=? b)%N && (b <=? 223)%N then
    ([], Partial 1 (N.land b 31) 128 191)
  else if (224 <=? b)%N && (b <=? 239)%N then
    ([], Partial 2 (N.land b 15)
                 (if (b =? 224)%N then 160%N else 128%N)
                 (if (b =? 237)%N then 159%N else 191%N))
  else if (240 <=? b)%N && (b <=? 244)%N then
    ([], Partial 3 (N.land b 7)
                 (if (b =? 240)%N then 144%N else 128%N)
                 (if (b =? 244)%N then 143%N else 191%N))
  else ([REPLACEMENT], Idle).

Definition decoder_step (d : StringDecoder) (b : byte)
  : jsstring * StringDecoder :=
  match d with
  | Idle => decoder_start b
  | Partial needed cp lower upper =>
      if (lower <=? b)%N && (b <=? upper)%N then
        let cp' := N.lor (N.shiftl cp 6) (N.land b 63) in
        match needed with
        | S (S n) => ([], Partial (S n) cp' 128 191)
        | _ => (utf16 cp', Idle)
        end
      else
        let '(out, d') := decoder_start b in (REPLACEMENT :: out, d')
  end.

(** [decoder.write(buffer)]: the decoded text and the new state. *)
Fixpoint decoder_write (d : StringDecoder) (buffer : list byte)
  : jsstring * StringDecoder :=
  match buffer with
  | [] => ([], d)
  | b :: buffer' =>
      let '(out, d1) := decoder_step d b in
      let '(text, d2) := decoder_write d1 buffer' in
      (out ++ text, d2)
  end.

(** [decoder.end()]: the held bytes are flushed (as U+FFFD) and the
    state is reset. *)
Definition decoder_end (d : StringDecoder) : jsstring * StringDecoder :=
  match d with
  | Idle => ([], Idle)
  | Partial _ _ _ _ => ([REPLACEMENT], Idle)
  end.

(** [text.split(/\r?\n/)]; [cur] is the segment under construction. *)
Fixpoint split_lines_from (cur text : jsstring) : list jsstring :=
  match text with
  | [] => [cur]
  | c :: text' =>
      if char_eqb c LF then cur :: split_lines_from [] text'
      else if char_eqb c CR then
        match text' with
        | c' :: text'' =>
            if char_eqb c' LF then cur :: split_lines_from [] text''
            else split_lines_from (cur ++ [c]) text'
        | [] => split_lines_from (cur ++ [c]) text'
        end
      else split_lines_from (cur ++ [c]) text'
  end.

Definition split_lines (text : jsstring) : list jsstring :=
  split_lines_from [] text.

(* ================================================================= *)
(** ** Promises *)

Definition error := nat.

(** The state a promise ends in; [Pending] is a promise that never
    settles. *)
Inductive promise (A : Type) :=
| Resolved (a : A)
| Rejected (e : error)
| Pending.

Arguments Resolved {A} a.
Arguments Rejected {A} e.
Arguments Pending {A}.

Definition then_ {A B : Type} (p : promise A) (f : A -> promise B)
  : promise B :=
  match p with
  | Resolved a => f a
  | Rejected e => Rejected e
  | Pending => Pending
  end.

Notation "x <- p ;; k" := (then_ p (fun x => k))
  (at level 61, p at next level, right associativity).

(* ================================================================= *)
(** ** The [CTags] handle *)

Definition path := list jsstring.

Module Info.
Record t := mk {
  format : JSNumber;
  sort : JSNumber;
  author : jsstring;
  name : jsstring;
  url : jsstring;
  version : jsstring
}.
End Info.

Definition PSEUDO_TAG_PREFIX : jsstring := lit "!_".

Definition TAG_UNSORTED : JSNumber := Num 0.
Definition TAG_SORTED : JSNumber := Num 1.
Definition TAG_FOLDSORTED : JSNumber := Num 2.

(** [size] is [undefined] until [init] has run. *)
Record CTags := mkCTags {
  tagsFile : path;
  fd : nat;
  pos : nat;
  workingPos : nat;
  readBuffer : list byte;
  decoder : StringDecoder;
  lines : list jsstring;
  shouldSkip : bool;
  initialised : bool;
  info : Info.t;
  size : option nat
}.

(** [constructor(tagsFile, fd)]; [mem] is the memory the unsafe
    allocation lands on. *)
Definition new_CTags (mem : nat -> byte) (tagsFile : path) (fd : nat)
  : CTags :=
  {| tagsFile := tagsFile;
     fd := fd;
     pos := 0;
     workingPos := 0;
     readBuffer := allocUnsafe mem 1024;
     decoder := Idle;
     lines := [];
     shouldSkip := false;
     initialised := false;
     info := Info.mk (Num 1) TAG_UNSORTED [] [] [] [];
     size := None |}.

Definition set_fd (v : nat) (h : CTags) : CTags :=
  mkCTags (tagsFile h) v (pos h) (workingPos h) (readBuffer h) (decoder h)
          (lines h) (shouldSkip h) (initialised h) (info h) (size h).
Definition set_workingPos (v : nat) (h : CTags) : CTags :=
  mkCTags (tagsFile h) (fd h) (pos h) v (readBuffer h) (decoder h)
          (lines h) (shouldSkip h) (initialised h) (info h) (size h).
Definition set_lines (v : list jsstring) (h : CTags) : CTags :=
  mkCTags (tagsFile h) (fd h) (pos h) (workingPos h) (readBuffer h)
          (decoder h) v (shouldSkip h) (initialised h) (info h) (size h).
Definition set_initialised (v : bool) (h : CTags) : CTags :=
  mkCTags (tagsFile h) (fd h) (pos h) (workingPos h) (readBuffer h)
          (decoder h) (lines h) (shouldSkip h) v (info h) (size h).
Definition set_info (v : Info.t) (h : CTags) : CTags :=
  mkCTags (tagsFile h) (fd h) (pos h) (workingPos h) (readBuffer h)
          (decoder h) (lines h) (shouldSkip h) (initialised h) v (size h).
Definition set_size (v : option nat) (h : CTags) : CTags :=
  mkCTags (tagsFile h) (fd h) (pos h) (workingPos h) (readBuffer h)
          (decoder h) (lines h) (shouldSkip h) (initialised h) (info h) v.

(** [this.workingPos < this.size]; false while [size] is undefined. *)
Definition unread (h : CTags) : bool :=
  match size h with
  | Some sz => workingPos h <? sz
  | None => false
  end.

(* ================================================================= *)
(** ** [_skipPartialUTF8] *)

(** The [while] loop: the number of leading bytes, among the first
    [length], whose top two bits are 10. *)
Fixpoint skipPartialUTF8_offset (buffer : list byte) (length : nat) : nat :=
  match length, buffer with
  | S length', b :: buffer' =>
      if (N.land b 192 =? 128)%N
      then S (skipPartialUTF8_offset buffer' length')
      else 0
  | _, _ => 0
  end.

Definition _skipPartialUTF8 (buffer : list byte) (length : nat) : list byte :=
  let offset := skipPartialUTF8_offset buffer length in
  if 0 <? offset then skipn offset buffer else buffer.

(* ================================================================= *)
(** ** [_readTagLine] *)

(** [fs.read(fd, buffer, 0, buffer.length, position)] on a descriptor
    whose file holds [content]: the bytes read overwrite the front of
    [buffer], the rest of [buffer] keeps what it held.  Returns
    [bytesRead] and the buffer afterwards. *)
Definition fs_read (content buffer : list byte) (position : nat)
  : nat * list byte :=
  let bytes := firstn (length buffer) (skipn position content) in
  (length bytes, bytes ++ skipn (length bytes) buffer).

(** [while (this.lines.length > 1) { line = this.lines.shift();
    if (line) return line }]: the line returned, if any, and the
    deque afterwards. *)
Fixpoint drain (lines : list jsstring) : option jsstring * list jsstring :=
  match lines with
  | line :: ((_ :: _) as rest) =>
      if truthy line then (Some line, rest) else drain rest
  | _ => (None, lines)
  end.

(** The two [push] branches that queue the parts of a decoded chunk. *)
Definition push_parts (lines parts : list jsstring) : list jsstring :=
  match lines with
  | [] => parts
  | _ :: _ =>
      removelast lines ++ [last lines [] ++ hd [] parts] ++ tl parts
  end.

(** The [.then(bytesRead => ...)] callback up to the recursive call. *)
Definition read_chunk (content : list byte) (h : CTags) : CTags :=
  let '(bytesRead, buffer) := fs_read content (readBuffer h) (workingPos h) in
  let readBuffer' :=
    if shouldSkip h then _skipPartialUTF8 buffer bytesRead else buffer in
  let '(text, decoder') := decoder_write (decoder h) readBuffer' in
  let parts := split_lines text in
  mkCTags (tagsFile h) (fd h) (pos h) (workingPos h + bytesRead) buffer
          decoder' (push_parts (lines h) parts) false (initialised h)
          (info h) (size h).

(** [readAtLeastALine], with at most [fuel] chunk reads. *)
Fixpoint readAtLeastALine (fuel : nat) (content : list byte) (h : CTags)
  : promise (option jsstring * CTags) :=
  match drain (lines h) with
  | (Some line, rest) => Resolved (Some line, set_lines rest h)
  | (None, rest) =>
      let h := set_lines rest h in
      if unread h then
        match fuel with
        | 0 => Pending
        | S fuel' => readAtLeastALine fuel' content (read_chunk content h)
        end
      else
        match lines h with
        | line :: rest' => Resolved (Some line, set_lines rest' h)
        | [] => Resolved (None, h)
        end
  end.

(** Number of chunk reads that suffice when every read returns at least
    one byte. *)
Definition remaining (h : CTags) : nat :=
  match size h with
  | Some sz => sz - workingPos h
  | None => 0
  end.

(** [_readTagLine()] on a handle whose descriptor refers to a file
    holding [content].  The result is the line ([None] for [null]) and
    the handle afterwards; it is [Pending] exactly when the reads stop
    returning bytes before [size] is reached, where the source keeps
    reading for ever. *)
Definition _readTagLine (content : list byte) (h : CTags)
  : promise (option jsstring * CTags) :=
  readAtLeastALine (remaining h) content h.

(* ================================================================= *)
(** ** [_readTagLineSeek] *)

(** [Math.min(Math.max(pos, 0), this.size)] *)
Definition clamp (pos : Z) (size : nat) : nat :=
  Z.to_nat (Z.min (Z.max pos 0) (Z.of_nat size)).

(** The four assignments at the top of [_readTagLineSeek]. *)
Definition seek_reset (p : nat) (h : CTags) : CTags :=
  mkCTags (tagsFile h) (fd h) p p (readBuffer h)
          (snd (decoder_end (decoder h))) [] true (initialised h)
          (info h) (size h).

(** [_readTagLineSeek(pos)].  While [size] is undefined the source
    stores NaN in both positions, which a natural number cannot hold;
    they are set to 0 here, which reads the same as long as [size]
    stays undefined (every read returns [null]). *)
Definition _readTagLineSeek (content : list byte) (pos : Z) (h : CTags)
  : promise (option jsstring * CTags) :=
  let p := match size h with
           | Some sz => clamp pos sz
           | None => 0
           end in
  let h := seek_reset p h in
  r <- _readTagLine content h ;;
  _readTagLine content (snd r).

(* ================================================================= *)
(** ** [_readPseudoTags] and [init] *)

(** The [switch (entry.name)] of [tagReader]. *)
Definition pseudo_switch (entry : TagEntry) (i : Info.t) : Info.t :=
  if jsstring_eqb (name entry) (lit "!_TAG_FILE_SORTED") then
    Info.mk (Info.format i) (parseInt (file entry)) (Info.author i)
            (Info.name i) (Info.url i) (Info.version i)
  else if jsstring_eqb (name entry) (lit "!_TAG_FILE_FORMAT") then
    Info.mk (parseInt (file entry)) (Info.sort i) (Info.author i)
            (Info.name i) (Info.url i) (Info.version i)
  else if jsstring_eqb (name entry) (lit "!_TAG_PROGRAM_AUTHOR") then
    Info.mk (Info.format i) (Info.sort i) (file entry)
            (Info.name i) (Info.url i) (Info.version i)
  else if jsstring_eqb (name entry) (lit "!_TAG_PROGRAM_NAME") then
    Info.mk (Info.format i) (Info.sort i) (Info.author i)
            (file entry) (Info.url i) (Info.version i)
  else if jsstring_eqb (name entry) (lit "!_TAG_PROGRAM_URL") then
    Info.mk (Info.format i) (Info.sort i) (Info.author i)
            (Info.name i) (file entry) (Info.version i)
  else if jsstring_eqb (name entry) (lit "!_TAG_PROGRAM_VERSION") then
    Info.mk (Info.format i) (Info.sort i) (Info.author i)
            (Info.name i) (Info.url i) (file entry)
  else i.

(** [l && l.startsWith(PSEUDO_TAG_PREFIX)] *)
Definition is_pseudo (l : option jsstring) : bool :=
  match l with
  | Some l => truthy l && startsWith l PSEUDO_TAG_PREFIX
  | None => false
  end.

(** [tagReader], with at most [fuel] lines read. *)
Fixpoint tagReader (fuel : nat) (content : list byte) (h : CTags)
  : promise CTags :=
  match fuel with
  | 0 => Pending
  | S fuel' =>
      r <- _readTagLine content h ;;
      let '(l, h) := r in
      if is_pseudo l then
        let entry := _parseTagLine (match l with Some l => l | None => [] end) in
        tagReader fuel' content (set_info (pseudo_switch entry (info h)) h)
      else Resolved h
  end.

(** [_readPseudoTags()]: the [finally] callback resets [workingPos]. *)
Definition _readPseudoTags (fuel : nat) (content : list byte) (h : CTags)
  : promise CTags :=
  h <- tagReader fuel content h ;;
  Resolved (set_workingPos 0 h).

(** What the locator and [init] use of the file system.  Paths are
    absolute and normalised: the list of their components from the
    root.  A call either succeeds or fails with an error; [fdesc fd] is
    the content of the file an open descriptor refers to. *)
Inductive result (A : Type) :=
| Ok (a : A)
| Err (e : error).

Arguments Ok {A} a.
Arguments Err {A} e.

(** The promise a promisified call returns. *)
Definition async {A : Type} (r : result A) : promise A :=
  match r with
  | Ok a => Resolved a
  | Err e => Rejected e
  end.

Record FileSystem := mkFileSystem {
  stat_isFile : path -> result bool;
  readdir : path -> result (list jsstring);
  open : path -> result nat;
  fdesc : nat -> option (list byte)
}.

Definition EBADF : error := 9.

(** [fs.fstat(fd)], reduced to [stats.size]. *)
Definition fstat_size (fs : FileSystem) (fd : nat) : result nat :=
  match fdesc fs fd with
  | Some content => Ok (length content)
  | None => Err EBADF
  end.

Definition fd_content (fs : FileSystem) (fd : nat) : list byte :=
  match fdesc fs fd with
  | Some content => content
  | None => []
  end.

(** [init()] *)
Definition init (fuel : nat) (fs : FileSystem) (h : CTags) : promise CTags :=
  hs <- (if fd h =? 0 then
           fd' <- async (open fs (tagsFile h)) ;;
           sz <- async (fstat_size fs fd') ;;
           Resolved (set_fd fd' h, sz)
         else
           sz <- async (fstat_size fs (fd h)) ;;
           Resolved (h, sz)) ;;
  let '(h, sz) := hs in
  let h := set_size (Some sz) h in
  h <- _readPseudoTags fuel (fd_content fs (fd h)) h ;;
  Resolved (set_initialised true h).

(* ================================================================= *)
(** ** [findCTagsFile] *)

(** [path.dirname] and [path.join(dir, name)] on normalised absolute
    paths; the root is its own parent. *)
Definition dirname (p : path) : path := removelast p.
Definition join (p : path) (entry : jsstring) : path := p ++ [entry].

Fixpoint path_eqb (p q : path) : bool :=
  match p, q with
  | [], [] => true
  | x :: p', y :: q' => jsstring_eqb x y && path_eqb p' q'
  | _, _ => false
  end.

(** Order of [Array.prototype.sort()] without a comparator: strings
    compared code unit by code unit. *)
Fixpoint jsstring_leb (a b : jsstring) : bool :=
  match a, b with
  | [], _ => true
  | _ :: _, [] => false
  | x :: a', y :: b' =>
      if (x <? y)%N then true
      else if (y <? x)%N then false
      else jsstring_leb a' b'
  end.

Fixpoint insert_sorted (x : jsstring) (l : list jsstring) : list jsstring :=
  match l with
  | [] => [x]
  | y :: l' => if jsstring_leb x y then x :: l
               else y :: insert_sorted x l'
  end.

(** [array.sort()], as an insertion sort. *)
Fixpoint sort (l : list jsstring) : list jsstring :=
  match l with
  | [] => []
  | x :: l' => insert_sorted x (sort l')
  end.

(** [Promise.reduce(array, reducer, initial)]: the reducer is applied
    to the elements in order, each call waiting for the one before. *)
Fixpoint Promise_reduce {A B : Type} (reducer : A -> B -> promise A)
         (array : list B) (acc : A) : promise A :=
  match array with
  | [] => Resolved acc
  | x :: array' =>
      acc' <- reducer acc x ;;
      Promise_reduce reducer array' acc'
  end.

Section Locator.

(** [minimatch.filter(tagFilePattern)] of the external minimatch
    module: which names the pattern matches. *)
Variable minimatch_filter : jsstring -> bool.
Variable mem : nat -> byte.
Variable fs : FileSystem.

(** The reducer passed to [Promise.reduce]; [None] is [null] or
    [undefined].  The [catch] turns a failed open into [undefined]. *)
Definition reducer (tagPath : path) (acc : option CTags)
           (match_ : jsstring) : promise (option CTags) :=
  match acc with
  | Some _ => Resolved acc
  | None =>
      let matchPath := join tagPath match_ in
      match async (open fs matchPath) with
      | Resolved fd => Resolved (Some (new_CTags mem matchPath fd))
      | Rejected _ => Resolved None
      | Pending => Pending
      end
  end.

(** [ctagsFinder], with at most [fuel] ascents. *)
Fixpoint ctagsFinder (fuel : nat) (tagPath : path)
  : promise (option CTags) :=
  files <- async (readdir fs tagPath) ;;
  let matched := sort (filter minimatch_filter files) in
  result <- Promise_reduce (reducer tagPath) matched None ;;
  let newTagPath := dirname tagPath in
  match result with
  | None =>
      if negb (path_eqb newTagPath tagPath) then
        match fuel with
        | 0 => Pending
        | S fuel' => ctagsFinder fuel' newTagPath
        end
      else Resolved result
  | Some _ => Resolved result
  end.

(** [findCTagsFile(searchPath, tagFilePattern)], from the resolved
    [tagPath = path.resolve(searchPath)] on.  A path of [n]
    components has [n] proper ancestors, so [n] ascents reach the
    root. *)
Definition findCTagsFile (tagPath : path) : promise (option CTags) :=
  stats <- async (stat_isFile fs tagPath) ;;
  let tagPath := if stats : bool then dirname tagPath else tagPath in
  ctagsFinder (length tagPath) tagPath.

End Locator.

(* ================================================================= *)
(** ** Definitions used to state the properties *)

(** The entry returned for a line with its two tabs whose remainder
    holds no address. *)
Definition partial_entry (n f : jsstring) : TagEntry :=
  set_file f (set_name n new_entry).

(** The way ctags writes a search pattern: a backslash is doubled and
    the delimiter is preceded by a backslash. *)
Fixpoint vim_escape (delimiter : char) (s : jsstring) : jsstring :=
  match s with
  | [] => []
  | c :: s' =>
      if char_eqb c BACKSLASH
      then BACKSLASH :: BACKSLASH :: vim_escape delimiter s'
      else if char_eqb c delimiter
           then BACKSLASH :: c :: vim_escape delimiter s'
           else c :: vim_escape delimiter s'
  end.

(** All the lines a caller gets from a handle: [_readTagLine] called
    until it returns [null], at most [fuel] times. *)
Fixpoint readLines (fuel : nat) (content : list byte) (h : CTags)
  : promise (list jsstring) :=
  match fuel with
  | 0 => Pending
  | S fuel' =>
      r <- _readTagLine content h ;;
      match fst r with
      | None => Resolved []
      | Some l =>
          ls <- readLines fuel' content (snd r) ;;
          Resolved (l :: ls)
      end
  end.

(** The lines that reach the caller out of the segments of a text: the
    non-empty ones among all but the last, then the last one. *)
Definition surfaced (parts : list jsstring) : list jsstring :=
  filter truthy (removelast parts) ++ [last parts []].

(** The text still to be decoded and the lines it will give together
    with the buffered ones. *)
Definition rest_text (content : list byte) (h : CTags) : jsstring :=
  fst (decoder_write (decoder h) (skipn (workingPos h) content)).

Definition upcoming (content : list byte) (h : CTags) : list jsstring :=
  push_parts (lines h) (split_lines (rest_text content h)).

(** The handle still has a buffered line or unread bytes. *)
Definition active (h : CTags) : bool :=
  unread h || match lines h with [] => false | _ :: _ => true end.

Definition remaining_lines (content : list byte) (h : CTags)
  : list jsstring :=
  if active h then surfaced (upcoming content h) else [].

(** A handle in the middle of a sequential read of a file made of
    whole chunks of [B] bytes, none of which ends between a carriage
    return and its line feed. *)
Record reading (content : list byte) (B : nat) (h : CTags) : Prop := {
  rd_buffer : length (readBuffer h) = B;
  rd_size : size h = Some (length content);
  rd_skip : shouldSkip h = false;
  rd_chunks : exists m, workingPos h + m * B = length content;
  rd_crlf : forall j,
      j * B < length content - workingPos h ->
      last (fst (decoder_write (decoder h)
                   (firstn (j * B) (skipn (workingPos h) content)))) LF
      <> CR
}.

(** *** Example lines, files and handles *)

(** The example line: [myFunc], [foo.c] and the address with its
    extension fields, separated by tabs. *)
Definition myFunc_line : jsstring :=
  lit "myFunc" ++ [TAB] ++ lit "foo.c" ++ [TAB]
      ++ lit "/^void myFunc() {$/;" ++ [DQUOTE; TAB]
      ++ lit "kind:f" ++ [TAB] ++ lit "line:42".

(** The same entry with the numeric address 7 in place of the pattern. *)
Definition myFunc_line_numeric : jsstring :=
  lit "myFunc" ++ [TAB] ++ lit "foo.c" ++ [TAB]
      ++ lit "7;" ++ [DQUOTE; TAB]
      ++ lit "kind:f" ++ [TAB] ++ lit "line:42".

(** A tag line whose address is [address]. *)
Definition line_with_address (address : jsstring) : jsstring :=
  lit "x" ++ [TAB] ++ lit "y" ++ [TAB] ++ address.

Definition zero_mem : nat -> byte := fun _ => 0%N.

(** The handle the locator constructs for descriptor 3, after [init]
    has stored the size of the file. *)
Definition sized (mem : nat -> byte) (content : list byte) : CTags :=
  set_size (Some (length content)) (new_CTags mem [lit "tags"] 3).

(** A file of 1024 bytes, one full read buffer: the line [a], a blank
    line and a line of 1021 letters [b] without a line terminator. *)
Definition blank_line_file : list byte :=
  lit "a" ++ [LF; LF] ++ repeat 98%N 1021.

(** A file of 2048 bytes, two read buffers: 1021 letters [a] ended by
    CR LF, a two-byte character whose bytes fall on either side of the
    chunk boundary, and 1022 letters [b] ended by LF. *)
Definition two_chunk_file : list byte :=
  repeat 97%N 1021 ++ [CR; LF; 195%N] ++ [169%N] ++ repeat 98%N 1022 ++ [LF].

(** The pseudo-tag line [!_TAG_FILE_SORTED<TAB>1<TAB>//comment]. *)
Definition pseudo_line : jsstring :=
  lit "!_TAG_FILE_SORTED" ++ [TAB] ++ lit "1" ++ [TAB] ++ lit "//comment".

(** A file of two lines: the pseudo-tag line and a normal entry. *)
Definition pseudo_file : list byte :=
  pseudo_line ++ [LF] ++ lit "foo" ++ [TAB] ++ lit "bar.c" ++ [TAB]
              ++ lit "1" ++ [LF].

(** A second entry, 981 characters long. *)
Definition long_entry : jsstring :=
  lit "g" ++ [TAB] ++ lit "bar.c" ++ [TAB] ++ [SLASH]
          ++ repeat 120%N 971 ++ [SLASH].

(** A file of 1024 bytes, one full read buffer: the pseudo-tag line
    and two normal entries. *)
Definition pseudo_file_1024 : list byte :=
  pseudo_file ++ long_entry ++ [LF].

(** A file of 1024 bytes, one full read buffer: the lines [ab], [cd]
    and a line of 1017 letters [e], each ended by LF. *)
Definition seek_file : list byte :=
  lit "ab" ++ [LF] ++ lit "cd" ++ [LF] ++ repeat 101%N 1017 ++ [LF].

(** *** Definitions for the locator *)

(** The order in which [sort] leaves two entries. *)
Definition ascending (a b : jsstring) : Prop := jsstring_leb a b = true.

(** The [k]-th directory above [dir]. *)
Definition ancestor (k : nat) (dir : path) : path := Nat.iter k dirname dir.

(** A directory that can be listed and in which no matching entry can
    be opened. *)
Definition quiet (minimatch_filter : jsstring -> bool) (fs : FileSystem)
           (dir : path) : Prop :=
  exists files,
    readdir fs dir = Ok files
    /\ forall x, In x files -> minimatch_filter x = true ->
                 exists e, open fs (join dir x) = Err e.

(** A handle on which reading makes progress: the buffer is not empty
    and the file is at least as long as the recorded size. *)
Definition readable (content : list byte) (h : CTags) : Prop :=
  0 < length (readBuffer h)
  /\ forall sz, size h = Some sz -> sz <= length content.

Definition ENOENT : error := 2.
Definition EACCES : error := 13.

(** A pattern such as [{TAGS,tags}]. *)
Definition tags_filter (entry : jsstring) : bool :=
  jsstring_eqb entry (lit "TAGS") || jsstring_eqb entry (lit "tags").

(** The directories [/], [/a], [/a/b] and [/a/b/c].  [/a] holds [tags]
    and [TAGS], which open as descriptors 4 and 3; [/a/b] holds a
    [tags] that cannot be opened; [/a/b/c] holds no match. *)
Definition tree_fs : FileSystem :=
  {| stat_isFile := fun p =>
       if path_eqb p [] || path_eqb p [lit "a"]
          || path_eqb p [lit "a"; lit "b"]
          || path_eqb p [lit "a"; lit "b"; lit "c"] then Ok false
       else if path_eqb p [lit "a"; lit "tags"]
               || path_eqb p [lit "a"; lit "TAGS"]
               || path_eqb p [lit "a"; lit "b"; lit "tags"]
               || path_eqb p [lit "a"; lit "b"; lit "c"; lit "main.c"]
            then Ok true
            else Err ENOENT;
     readdir := fun p =>
       if path_eqb p [] then Ok [lit "a"]
       else if path_eqb p [lit "a"]
            then Ok [lit "tags"; lit "b"; lit "TAGS"]
       else if path_eqb p [lit "a"; lit "b"] then Ok [lit "c"; lit "tags"]
       else if path_eqb p [lit "a"; lit "b"; lit "c"] then Ok [lit "main.c"]
       else Err ENOENT;
     open := fun p =>
       if path_eqb p [lit "a"; lit "TAGS"] then Ok 3
       else if path_eqb p [lit "a"; lit "tags"] then Ok 4
       else if path_eqb p [lit "a"; lit "b"; lit "tags"] then Err EACCES
       else Err ENOENT;
     fdesc := fun fd =>
       if fd =? 3 then Some pseudo_file
       else if fd =? 4 then Some seek_file
       else None |}.

(** The same tree with a directory [/a] that cannot be listed. *)
Definition locked_fs : FileSystem :=
  {| stat_isFile := stat_isFile tree_fs;
     readdir := fun p =>
       if path_eqb p [lit "a"] then Err EACCES else readdir tree_fs p;
     open := open tree_fs;
     fdesc := fdesc tree_fs |}.

(** The tree again, with a [/a/TAGS] that cannot be opened: in [/a] the
    first candidate fails and the second, [tags], opens. *)
Definition guarded_fs : FileSystem :=
  {| stat_isFile := stat_isFile tree_fs;
     readdir := readdir tree_fs;
     open := fun p =>
       if path_eqb p [lit "a"; lit "TAGS"] then Err EACCES
       else open tree_fs p;
     fdesc := fdesc tree_fs |}.

(** *** Definitions for further properties *)

(** What [_parseTagLine] does once name and file are stored: [pattern]
    is the text after the second tab. *)
Definition parse_address (entry : TagEntry) (pattern : jsstring) : TagEntry :=
  match pattern with
  | [] => entry
  | c0 :: _ =>
    if char_eqb c0 SLASH || char_eqb c0 QUESTION then
      let delimiter := c0 in
      let '(pos, parsedPattern) :=
        scan_loop delimiter (substr_from pattern 1) 1 0 [] in
      if pos <? length pattern then
        parseTagLine_finish pattern (pos + 1)
                            (set_pattern parsedPattern entry)
      else entry
    else if isdigit c0 then
      let entry := set_lineNumber (parseInt pattern) entry in
      let pos := countWhile isdigit pattern in
      parseTagLine_finish pattern pos entry
    else entry
  end.

(** What one turn of the loop of [_parseExtensionFields] does to the
    entry, as a function of the part between two tabs. *)
Definition apply_part (part : jsstring) (entry : TagEntry) : TagEntry :=
  match indexOf part [COLON] 0 with
  | None => set_kind (Some part) entry
  | Some i =>
      let key := firstn i part in
      let value := skipn (i + 1) part in
      if jsstring_eqb key (lit "kind") then set_kind (Some value) entry
      else if jsstring_eqb key (lit "file") then set_fileScope true entry
      else if jsstring_eqb key (lit "line") then
        set_lineNumber (parseInt value) entry
      else set_field key value entry
  end.

Definition notTab (c : char) : bool := negb (isTab c).

(** The pieces of a text between its tabs. *)
Fixpoint split_tabs_from (cur text : jsstring) : list jsstring :=
  match text with
  | [] => [cur]
  | c :: text' =>
      if isTab c then cur :: split_tabs_from [] text'
      else split_tabs_from (cur ++ [c]) text'
  end.

(** The parts of an extension text that the loop handles: the
    non-empty pieces between tabs and, when the text is not empty, the
    piece after the last tab even when it is empty. *)
Definition field_parts (str : jsstring) : list jsstring :=
  match str with
  | [] => []
  | _ :: _ => surfaced (split_tabs_from [] str)
  end.

(** The keys [_parseExtensionFields] never stores in [fields]. *)
Definition reserved_key (key : jsstring) : bool :=
  jsstring_eqb key (lit "kind") || jsstring_eqb key (lit "file")
  || jsstring_eqb key (lit "line") || jsstring_eqb key (lit "__proto__").

(** The keys of [fields] are distinct and none is reserved. *)
Definition fields_ok (fields : list (jsstring * jsstring)) : Prop :=
  NoDup (map fst fields)
  /\ forall key, In key (map fst fields) -> reserved_key key = false.

(** A continuation byte of UTF-8: the top two bits are 10. *)
Definition is_continuation (b : byte) : Prop := N.land b 192 = 128%N.

(** [destroy()]; [close] is [fs.close] on the descriptors.  The result
    is the handle afterwards and the promise returned: the flag is
    cleared before the descriptor is closed, and the descriptor is
    forgotten only once closing has succeeded. *)
Definition destroy (close : nat -> result unit) (h : CTags)
  : CTags * promise unit :=
  let h := set_initialised false h in
  if negb (fd h =? 0) then
    match close (fd h) with
    | Ok _ => (set_fd 0 h, Resolved tt)
    | Err e => (h, Rejected e)
    end
  else (h, Resolved tt).

(** [fields[key]] read back: the value stored for [key], if any. *)
Fixpoint assoc_get (key : jsstring) (m : list (jsstring * jsstring))
  : option jsstring :=
  match m with
  | [] => None
  | (k, v) :: m' => if jsstring_eqb k key then Some v else assoc_get key m'
  end.

(** The lines at the head of [ls] that the loader takes for
    pseudo-tags, what follows them, and what one of them does to the
    metadata. *)
Fixpoint pseudo_prefix (ls : list jsstring) : list jsstring :=
  match ls with
  | l :: ls' => if is_pseudo (Some l) then l :: pseudo_prefix ls' else []
  | [] => []
  end.

Fixpoint after_pseudo (ls : list jsstring) : list jsstring :=
  match ls with
  | l :: ls' => if is_pseudo (Some l) then after_pseudo ls' else ls
  | [] => []
  end.

Definition apply_pseudo (i : Info.t) (l : jsstring) : Info.t :=
  pseudo_switch (_parseTagLine l) i.

(** [m] is the first candidate of [dir], in the order of [sort], that
    can be opened, and [fd] the descriptor it opens as. *)
Definition first_opening (minimatch_filter : jsstring -> bool)
           (fs : FileSystem) (dir : path) (m : jsstring) (fd : nat) : Prop :=
  exists files before after,
    readdir fs dir = Ok files
    /\ sort (filter minimatch_filter files) = before ++ m :: after
    /\ (forall x, In x before -> exists e, open fs (join dir x) = Err e)
    /\ open fs (join dir m) = Ok fd.

(** The directory in which [findCTagsFile] starts for a path that is a
    file ([isFile]) or a directory. *)
Definition start_of (p : path) (isFile : bool) : path :=
  if isFile then dirname p else p.

(* ================================================================= *)
(** * Properties of the tag-line parser *)

(** ** Strings *)

Lemma char_eqb_eq (a b : char) : char_eqb a b = true <-> a = b.
Proof. apply N.eqb_eq. Qed.

Lemma char_eqb_neq (a b : char) : char_eqb a b = false <-> a <> b.
Proof. apply N.eqb_neq. Qed.

Lemma char_eqb_refl (a : char) : char_eqb a a = true.
Proof. apply N.eqb_refl. Qed.

Lemma prefixb_single (c : char) (s : jsstring) :
  prefixb [c] s = true <-> exists s', s = c :: s'.
Proof.
  destruct s as [|x s]; simpl.
  - split; [discriminate | intros [s' H]; discriminate].
  - rewrite andb_true_r, char_eqb_eq. split.
    + intros ->. now exists s.
    + intros [s' H]. now inversion H.
Qed.

(** A successful search for one character splits the string at its
    first occurrence. *)
Lemma indexOf_scan_char_Some (c : char) (s : jsstring) :
  forall i j, indexOf_scan [c] s i = Some j ->
  exists k, j = i + k /\ s = firstn k s ++ c :: skipn (S k) s
            /\ ~ In c (firstn k s).
Proof.
  induction s as [|x s IH]; intros i j H; [discriminate|].
  cbn [indexOf_scan] in H.
  destruct (prefixb [c] (x :: s)) eqn:E.
  - apply prefixb_single in E. destruct E as [s' E]. inversion E; subst.
    inversion H; subst. exists 0. simpl. repeat split; auto with arith.
  - apply IH in H. destruct H as [k [-> [Hs Hn]]].
    exists (S k). split; [lia|]. split.
    + change (x :: s = x :: (firstn k s ++ c :: skipn (S k) s)).
      f_equal. exact Hs.
    + cbn [firstn]. intros [->|Hin]; [|tauto].
      assert (prefixb [c] (c :: s) = true) by (apply prefixb_single; eauto).
      congruence.
Qed.

Lemma indexOf_scan_char_None (c : char) (s : jsstring) :
  forall i, indexOf_scan [c] s i = None -> ~ In c s.
Proof.
  induction s as [|x s IH]; intros i H; [tauto|].
  cbn [indexOf_scan] in H.
  destruct (prefixb [c] (x :: s)) eqn:E; [discriminate|].
  intros [->|Hin].
  - assert (prefixb [c] (c :: s) = true) by (apply prefixb_single; eauto).
    congruence.
  - eapply IH; eauto.
Qed.

Lemma indexOf_scan_lower (needle s : jsstring) :
  forall i j, indexOf_scan needle s i = Some j -> i <= j < i + length s.
Proof.
  induction s as [|x s IH]; intros i j H; [discriminate|].
  cbn [indexOf_scan] in H. destruct (prefixb needle (x :: s)).
  - inversion H; subst. simpl. lia.
  - apply IH in H. simpl. lia.
Qed.

Lemma indexOf_bounds (str needle : jsstring) (from j : nat) :
  indexOf str needle from = Some j -> from <= j < length str.
Proof.
  unfold indexOf. intros H. apply indexOf_scan_lower in H.
  rewrite length_skipn in H. lia.
Qed.

Lemma countWhile_length (p : char -> bool) (s : jsstring) :
  countWhile p s <= length s.
Proof. induction s as [|c s IH]; simpl; [|destruct (p c); simpl]; lia. Qed.

(** ** The loop of [_parseExtensionFields] ends on its own *)

Lemma skipn_cons_nth (s : jsstring) (n : nat) :
  n < length s -> exists c r, skipn n s = c :: r.
Proof.
  revert n. induction s as [|x s IH]; intros n H; simpl in H; [lia|].
  destruct n; simpl; eauto. apply IH. lia.
Qed.

Lemma countWhile_stop (p : char -> bool) (s : jsstring) (n : nat) :
  n + countWhile p (skipn n s) < length s ->
  exists c r, skipn (n + countWhile p (skipn n s)) s = c :: r /\ p c = false.
Proof.
  intros H.
  assert (G : forall t, countWhile p t < length t ->
            exists c r, skipn (countWhile p t) t = c :: r /\ p c = false).
  { induction t as [|x t IHt]; simpl; intros Ht; [lia|].
    destruct (p x) eqn:E; simpl in *; eauto. apply IHt. lia. }
  assert (Hn : n <= length s) by lia.
  destruct (G (skipn n s)) as [c [r [Hc Hp]]].
  { rewrite length_skipn. lia. }
  exists c, r. split; auto.
  rewrite Nat.add_comm, <- skipn_skipn. exact Hc.
Qed.

(** One turn moves [pos] strictly forward and never past the end. *)
Lemma parseExtensionFields_body_progress (str : jsstring) (pos : nat)
      (entry : TagEntry) :
  pos < length str ->
  pos < fst (parseExtensionFields_body str pos entry) <= length str.
Proof.
  intros Hpos. unfold parseExtensionFields_body. cbn [fst].
  set (p1 := pos + countWhile isTab (skipn pos str)).
  destruct (indexOf str [TAB] p1) as [i|] eqn:E; [|lia].
  pose proof (indexOf_bounds _ _ _ E) as Hb.
  split; [|lia].
  destruct (Nat.eq_dec i p1) as [->|]; [|lia].
  exfalso.
  destruct (countWhile_stop isTab str pos) as [c [r [Hc Hp]]]; [fold p1; lia|].
  fold p1 in Hc. unfold indexOf in E. rewrite Hc in E.
  cbn [indexOf_scan] in E.
  destruct (prefixb [TAB] (c :: r)) eqn:P.
  - apply prefixb_single in P. destruct P as [s' P]. inversion P; subst.
    unfold isTab in Hp. rewrite char_eqb_refl in Hp. discriminate.
  - apply indexOf_scan_lower in E. lia.
Qed.

(** Any fuel of at least [str.length - pos] gives the same entry: the
    loop stops because [pos] reached the end, never for lack of fuel. *)
Lemma parseExtensionFields_loop_fuel (str : jsstring) :
  forall fuel1 fuel2 pos entry,
    length str - pos <= fuel1 -> length str - pos <= fuel2 ->
    parseExtensionFields_loop fuel1 str pos entry
    = parseExtensionFields_loop fuel2 str pos entry.
Proof.
  induction fuel1 as [|f1 IH]; intros fuel2 pos entry H1 H2;
    destruct fuel2 as [|f2]; cbn [parseExtensionFields_loop];
    try reflexivity;
    (destruct (pos <? length str) eqn:E; [|reflexivity]);
    apply Nat.ltb_lt in E; try lia.
  pose proof (parseExtensionFields_body_progress str entry E) as P.
  destruct (parseExtensionFields_body str pos entry) as [pos' entry'].
  cbn [fst] in P. apply IH; lia.
Qed.

(** ** What the parser leaves untouched *)

Lemma set_field_name_file (key value : jsstring) (e : TagEntry) :
  name (set_field key value e) = name e
  /\ file (set_field key value e) = file e.
Proof. unfold set_field. destruct (jsstring_eqb _ _); auto. Qed.

Lemma parseExtensionFields_body_name_file (str : jsstring) (pos : nat)
      (e : TagEntry) :
  name (snd (parseExtensionFields_body str pos e)) = name e
  /\ file (snd (parseExtensionFields_body str pos e)) = file e.
Proof.
  unfold parseExtensionFields_body. cbn [snd].
  repeat match goal with
         | |- context [if ?b then _ else _] => destruct b
         end; try (split; reflexivity).
  apply set_field_name_file.
Qed.

Lemma parseExtensionFields_loop_name_file (str : jsstring) :
  forall fuel pos e,
    name (parseExtensionFields_loop fuel str pos e) = name e
    /\ file (parseExtensionFields_loop fuel str pos e) = file e.
Proof.
  induction fuel as [|f IH]; intros pos e;
    cbn [parseExtensionFields_loop]; [auto|].
  destruct (pos <? length str); [|auto].
  pose proof (parseExtensionFields_body_name_file str pos e) as P.
  destruct (parseExtensionFields_body str pos e) as [pos' e'].
  cbn [snd] in P. destruct (IH pos' e') as [A B].
  rewrite A, B. exact P.
Qed.

Lemma parseTagLine_finish_spec (pat : jsstring) (pos : nat) (e : TagEntry) :
  valid (parseTagLine_finish pat pos e) = true
  /\ name (parseTagLine_finish pat pos e) = name e
  /\ file (parseTagLine_finish pat pos e) = file e.
Proof.
  unfold parseTagLine_finish. cbn.
  destruct (indexOf pat [SEMICOLON; DQUOTE] pos) as [i|]; auto.
  destruct (i =? pos); auto. split; auto.
  apply parseExtensionFields_loop_name_file.
Qed.

(** ** The three regions of a line *)

Lemma indexOf_char_split (c : char) (str : jsstring) (from i : nat) :
  indexOf str [c] from = Some i ->
  exists k, i = from + k
            /\ skipn from str
               = substr str from k ++ c :: substr_from str (i + 1)
            /\ ~ In c (substr str from k).
Proof.
  unfold indexOf, substr, substr_from. intros H.
  apply indexOf_scan_char_Some in H. destruct H as [k [-> [Hs Hn]]].
  exists k. repeat split; auto.
  replace (from + k + 1) with (S k + from) by lia.
  rewrite <- skipn_skipn. exact Hs.
Qed.

Lemma indexOf_char_None (c : char) (str : jsstring) :
  indexOf str [c] 0 = None -> ~ In c str.
Proof. unfold indexOf. simpl. apply indexOf_scan_char_None. Qed.

(** A line that has its two tabs: the entry always carries the text
    before the first tab as name and the text between the tabs as file,
    and when it is not valid nothing else has been filled. *)
Lemma parseTagLine_two_tabs (line : jsstring) (i j : nat) :
  indexOf line [TAB] 0 = Some i ->
  indexOf line [TAB] (i + 1) = Some j ->
  exists n f rest,
    line = n ++ TAB :: f ++ TAB :: rest
    /\ ~ In TAB n /\ ~ In TAB f
    /\ name (_parseTagLine line) = n
    /\ file (_parseTagLine line) = f
    /\ (valid (_parseTagLine line) = true -> rest <> [])
    /\ (valid (_parseTagLine line) = false ->
        _parseTagLine line = partial_entry n f).
Proof.
  intros Hi Hj. unfold _parseTagLine. rewrite Hi, Hj.
  destruct (indexOf_char_split _ _ _ Hi) as [k1 [E1 [S1 N1]]].
  destruct (indexOf_char_split _ _ _ Hj) as [k2 [E2 [S2 N2]]].
  simpl in E1, S1. subst i.
  replace (j - k1 - 1) with k2 by lia.
  set (n := substr line 0 k1) in *.
  set (f := substr line (k1 + 1) k2) in *.
  set (rest := substr_from line (j + 1)) in *.
  exists n, f, rest.
  assert (L : line = n ++ TAB :: f ++ TAB :: rest).
  { rewrite S1 at 1. f_equal. f_equal. exact S2. }
  split; [exact L|]. split; [exact N1|]. split; [exact N2|].
  destruct rest as [|c0 pat] eqn:R.
  - cbn. repeat split; auto. discriminate.
  - destruct (char_eqb c0 SLASH || char_eqb c0 QUESTION).
    + destruct (scan_loop c0 (substr_from (c0 :: pat) 1) 1 0 [])
        as [pos parsed].
      destruct (pos <? length (c0 :: pat)).
      * destruct (parseTagLine_finish_spec (c0 :: pat) (pos + 1)
                    (set_pattern parsed
                       (set_file f (set_name n new_entry))))
          as [V [A B]].
        rewrite V, A, B. cbn. repeat split; auto; discriminate.
      * cbn. repeat split; auto; discriminate.
    + destruct (isdigit c0).
      * destruct (parseTagLine_finish_spec (c0 :: pat)
                    (countWhile isdigit (c0 :: pat))
                    (set_lineNumber (parseInt (c0 :: pat))
                       (set_file f (set_name n new_entry))))
          as [V [A B]].
        rewrite V, A, B. cbn. repeat split; auto; discriminate.
      * cbn. repeat split; auto; discriminate.
Qed.

(** ** The escaping undone by the pattern scan *)

Lemma div2_succ_succ (n : nat) : Nat.div2 (S (S n)) = S (Nat.div2 n).
Proof. reflexivity. Qed.

Lemma repeat_snoc (c : char) (n : nat) :
  repeat c (S n) = repeat c n ++ [c].
Proof. induction n as [|n IH]; simpl in *; [reflexivity|]. now rewrite <- IH. Qed.

Lemma scan_loop_vim_escape (delimiter : char) (rest : jsstring) :
  delimiter <> BACKSLASH ->
  forall s pos bsc parsed,
    Nat.even bsc = true ->
    (s = [] -> bsc = 0) ->
    last s delimiter <> BACKSLASH ->
    scan_loop delimiter (vim_escape delimiter s ++ delimiter :: rest)
              pos bsc parsed
    = (pos + length (vim_escape delimiter s),
       parsed ++ repeat BACKSLASH (Nat.div2 bsc) ++ s).
Proof.
  intros Hd. induction s as [|c s IH]; intros pos bsc parsed Hev Hnil Hlast.
  - rewrite (Hnil eq_refl). cbn [vim_escape app scan_loop length].
    unfold scan_body.
    apply char_eqb_neq in Hd. rewrite Hd. cbn.
    rewrite char_eqb_refl, Nat.add_0_r, app_nil_r. reflexivity.
  - cbn [vim_escape].
    assert (Hlast' : s <> [] -> last s delimiter <> BACKSLASH).
    { intros Hs. destruct s; [congruence|exact Hlast]. }
    destruct (char_eqb c BACKSLASH) eqn:Ec.
    + apply char_eqb_eq in Ec. subst c.
      assert (Hs : s <> []) by (intros ->; apply Hlast; reflexivity).
      cbn [app scan_loop length]. unfold scan_body.
      rewrite char_eqb_refl. cbn [scan_loop].
      rewrite IH; auto.
      * f_equal; [lia|]. replace (bsc + 1 + 1) with (S (S bsc)) by lia.
        rewrite div2_succ_succ, repeat_snoc, <- !app_assoc. reflexivity.
      * replace (bsc + 1 + 1) with (S (S bsc)) by lia. exact Hev.
      * intros ->. congruence.
    + assert (Hodd : Nat.div2 (bsc + 1) = Nat.div2 bsc).
      { rewrite Nat.add_1_r. destruct (Nat.Even_or_Odd bsc) as [[k ->]|[k ->]].
        - replace (S (2 * k)) with (1 + 2 * k) by lia.
          rewrite !Nat.div2_div, Nat.mul_comm, Nat.div_add, Nat.div_mul; auto.
        - rewrite Nat.add_1_r, Nat.even_succ, <- Nat.negb_even in Hev.
          rewrite Nat.even_mul in Hev. discriminate. }
      assert (Hstep : forall q r, 
                scan_body delimiter c q r
                = if 0 <? q
                  then Continue 0 (r ++ repeat BACKSLASH (Nat.div2 q) ++ [c])
                  else if char_eqb c delimiter then Break
                       else Continue q (r ++ [c])).
      { intros q r. unfold scan_body. now rewrite Ec. }
      assert (Hl : last s delimiter <> BACKSLASH).
      { destruct s; [exact Hd | apply Hlast'; discriminate]. }
      destruct (char_eqb c delimiter) eqn:Edl.
      * apply char_eqb_eq in Edl. subst c.
        cbn [app scan_loop length]. unfold scan_body at 1.
        rewrite char_eqb_refl. cbn [scan_loop]. rewrite Hstep.
        replace (0 <? bsc + 1) with true by (symmetry; apply Nat.ltb_lt; lia).
        rewrite IH; [|reflexivity|reflexivity|exact Hl].
        f_equal; [lia|]. rewrite Hodd. cbn. rewrite <- !app_assoc.
        reflexivity.
      * cbn [app scan_loop length]. rewrite Hstep.
        destruct (0 <? bsc) eqn:Eb.
        -- rewrite IH; [|reflexivity|reflexivity|exact Hl].
           f_equal; [lia|]. cbn. rewrite <- !app_assoc. reflexivity.
        -- apply Nat.ltb_ge in Eb. assert (bsc = 0) by lia. subst bsc.
           rewrite IH; [|reflexivity|reflexivity|exact Hl].
           f_equal; [lia|]. cbn. rewrite <- !app_assoc. reflexivity.
Qed.

(** ** Claims about the parser *)

(** C1: on the example line [_parseTagLine] returns name [myFunc], file
    [foo.c], pattern [^void myFunc() {$], kind [f], line number 42 and
    valid = true; the field [line:42] also replaces a number read from
    a numeric address. *)
Theorem C1_parse_example :
  let e := _parseTagLine myFunc_line in
  name e = lit "myFunc"
  /\ file e = lit "foo.c"
  /\ pattern (address e) = lit "^void myFunc() {$"
  /\ kind e = Some (lit "f")
  /\ lineNumber (address e) = Num 42
  /\ valid e = true
  /\ fields e = []
  /\ lineNumber (address (_parseTagLine myFunc_line_numeric)) = Num 42.
Proof. vm_compute. repeat split. Qed.

(** C2, as stated, fails: a delimiter met while the backslash counter is
    even and positive does not end the pattern.  With the counter at 2
    the body of the loop emits one backslash and the delimiter and goes
    on; the address [/a\\/b/] therefore yields the pattern [a\/b], and
    the address made of [/foo], two backslashes, [/bar], four
    backslashes and [baz/] yields [foo\/bar\\baz], with three
    backslashes. *)
Lemma C2_even_count_goes_on :
  scan_body SLASH SLASH 2 (lit "a") = Continue 0 (lit "a\/")
  /\ pattern (address (_parseTagLine (line_with_address (lit "/a\\/b/"))))
     = lit "a\/b"
  /\ pattern (address (_parseTagLine
                         (line_with_address (lit "/foo\\/bar\\\\baz/"))))
     = lit "foo\/bar\\baz"
  /\ ~ (forall delimiter bsc parsed,
          Nat.even bsc = true ->
          scan_body delimiter delimiter bsc parsed = Break).
Proof.
  split; [reflexivity|]. split; [reflexivity|]. split; [reflexivity|].
  intros H. specialize (H SLASH 2 (lit "a") eq_refl). discriminate H.
Qed.

(** C2, amended: the address [/foo\/bar\\baz/] yields the pattern
    [foo/bar\baz]; in the scan a backslash increments the counter, the
    delimiter ends the pattern only while the counter is zero, any
    other character met while the counter is positive (the delimiter
    too, for an odd and for an even counter) is emitted after
    counter/2 backslashes and resets the counter, and a character met
    while the counter is zero is emitted as it is. *)
Theorem C2_scan_rule :
  pattern (address (_parseTagLine (line_with_address (lit "/foo\/bar\\baz/"))))
  = lit "foo/bar\baz"
  /\ (forall delimiter bsc parsed,
        scan_body delimiter BACKSLASH bsc parsed = Continue (bsc + 1) parsed)
  /\ (forall delimiter parsed,
        delimiter <> BACKSLASH ->
        scan_body delimiter delimiter 0 parsed = Break)
  /\ (forall delimiter c bsc parsed,
        c <> BACKSLASH -> 0 < bsc ->
        scan_body delimiter c bsc parsed
        = Continue 0 (parsed ++ repeat BACKSLASH (bsc / 2) ++ [c]))
  /\ (forall delimiter c parsed,
        c <> BACKSLASH -> c <> delimiter ->
        scan_body delimiter c 0 parsed = Continue 0 (parsed ++ [c])).
Proof.
  split; [reflexivity|]. unfold scan_body. repeat split.
  - intros d p Hd. apply char_eqb_neq in Hd. now rewrite Hd, char_eqb_refl.
  - intros d c bsc p Hc Hb. apply char_eqb_neq in Hc. rewrite Hc.
    apply Nat.ltb_lt in Hb. rewrite Hb. now rewrite Nat.div2_div.
  - intros d c p Hc Hd. apply char_eqb_neq in Hc, Hd. now rewrite Hc, Hd.
Qed.

Lemma C2_scan_rule_witness :
  SLASH <> BACKSLASH /\ 0 < 3
  /\ scan_body SLASH SLASH 0 [] = Break
  /\ scan_body SLASH SLASH 3 []
     = Continue 0 ([] ++ repeat BACKSLASH (3 / 2) ++ [SLASH])
  /\ scan_body SLASH 97%N 0 [] = Continue 0 ([] ++ [97%N]).
Proof.
  assert (H1 : SLASH <> BACKSLASH) by discriminate.
  assert (H2 : 0 < 3) by lia.
  assert (H3 : 97%N <> BACKSLASH) by discriminate.
  assert (H4 : 97%N <> SLASH) by discriminate.
  destruct C2_scan_rule as [_ [_ [A [B C]]]].
  split; [exact H1|]. split; [exact H2|].
  split; [exact (A SLASH [] H1)|].
  split; [exact (B SLASH SLASH 3 [] H1 H2)|].
  exact (C SLASH 97%N [] H3 H4).
Defined.

(** The scan undoes the escaping: for a text that does not end in a
    backslash, the escaped text followed by the delimiter is scanned up
    to that delimiter and gives the text back. *)
Lemma scan_loop_unescapes (delimiter : char) (s rest : jsstring) :
  delimiter <> BACKSLASH ->
  last s delimiter <> BACKSLASH ->
  scan_loop delimiter (vim_escape delimiter s ++ delimiter :: rest) 1 0 []
  = (1 + length (vim_escape delimiter s), s).
Proof.
  intros Hd Hl. rewrite scan_loop_vim_escape; auto.
Qed.

(** C3, as stated, fails: the line [<TAB><TAB>1] is valid although its
    name and its file are empty. *)
Lemma C3_valid_with_empty_name :
  let e := _parseTagLine [TAB; TAB; 49%N] in
  valid e = true /\ name e = [] /\ file e = [].
Proof. vm_compute. repeat split. Qed.

(** C3, amended: [_parseTagLine] is a total function of the line (the
    loop of [_parseExtensionFields] ends by itself within [str.length]
    turns).  A valid entry comes from a line with two tabs and a
    non-empty remainder; its name is the text before the first tab and
    its file the text between the two tabs, either of which may be
    empty.  An entry that is not valid carries the name when the first
    tab was found, the file when the second was found too, and
    otherwise the initial values. *)
Theorem C3_parseTagLine_total (line : jsstring) :
  let e := _parseTagLine line in
  (forall str entry fuel,
      length str <= fuel ->
      parseExtensionFields_loop fuel str 0 entry
      = _parseExtensionFields str entry)
  /\ (valid e = true ->
      exists n f rest,
        line = n ++ TAB :: f ++ TAB :: rest
        /\ ~ In TAB n /\ ~ In TAB f /\ rest <> []
        /\ name e = n /\ file e = f)
  /\ (valid e = false ->
      (~ In TAB line /\ e = new_entry)
      \/ (exists n r, line = n ++ TAB :: r /\ ~ In TAB n /\ ~ In TAB r
                      /\ e = set_name n new_entry)
      \/ (exists n f rest, line = n ++ TAB :: f ++ TAB :: rest
                           /\ ~ In TAB n /\ ~ In TAB f
                           /\ e = partial_entry n f)).
Proof.
  cbv zeta. split.
  { intros str entry fuel H. unfold _parseExtensionFields.
    apply parseExtensionFields_loop_fuel; lia. }
  destruct (indexOf line [TAB] 0) as [i|] eqn:Hi.
  - destruct (indexOf line [TAB] (i + 1)) as [j|] eqn:Hj.
    + destruct (parseTagLine_two_tabs line Hi Hj)
        as [n [f [rest [L [N1 [N2 [A [B [V1 V0]]]]]]]]].
      split.
      * intros V. exists n, f, rest. auto 10.
      * intros V. right. right. exists n, f, rest. auto.
    + assert (E : _parseTagLine line = set_name (substr line 0 i) new_entry).
      { unfold _parseTagLine. now rewrite Hi, Hj. }
      rewrite E. split; [discriminate|]. intros _. right. left.
      destruct (indexOf_char_split _ _ _ Hi) as [k [Ek [S1 N1]]].
      simpl in Ek, S1. subst k.
      exists (substr line 0 i), (substr_from line (i + 1)).
      repeat split; auto.
      unfold indexOf in Hj. eapply indexOf_scan_char_None. exact Hj.
  - assert (E : _parseTagLine line = new_entry).
    { unfold _parseTagLine. now rewrite Hi. }
    rewrite E. split; [discriminate|]. intros _. left.
    split; [|reflexivity]. now apply indexOf_char_None.
Qed.

Lemma C3_parseTagLine_total_witness :
  valid (_parseTagLine myFunc_line) = true
  /\ exists n f rest,
       myFunc_line = n ++ TAB :: f ++ TAB :: rest
       /\ ~ In TAB n /\ ~ In TAB f /\ rest <> []
       /\ name (_parseTagLine myFunc_line) = n
       /\ file (_parseTagLine myFunc_line) = f.
Proof.
  assert (V : valid (_parseTagLine myFunc_line) = true) by reflexivity.
  split; [exact V|].
  exact (proj1 (proj2 (C3_parseTagLine_total myFunc_line)) V).
Defined.

(* ================================================================= *)
(** * Properties of the line reader *)

Lemma set_lines_same (h : CTags) : set_lines (lines h) h = h.
Proof. now destruct h. Qed.

Lemma drain_Some_truthy (l : list jsstring) (line : jsstring)
      (rest : list jsstring) :
  drain l = (Some line, rest) -> line <> [] /\ rest <> [].
Proof.
  induction l as [|a l IH]; [discriminate|]. cbn [drain].
  destruct l as [|b l]; [discriminate|].
  destruct (truthy a) eqn:T.
  - intros H. inversion H; subst. split; [|discriminate].
    intros ->. discriminate.
  - apply IH.
Qed.

Lemma drain_None_short (l rest : list jsstring) :
  drain l = (None, rest) -> length rest <= 1 /\ (l <> [] -> rest <> []).
Proof.
  induction l as [|a l IH]; cbn [drain].
  - intros H. inversion H. simpl. split; [lia|congruence].
  - destruct l as [|b l].
    + intros H. inversion H. simpl. split; [lia|discriminate].
    + destruct (truthy a); [discriminate|]. intros H.
      destruct (IH H) as [A B]. split; [exact A|].
      intros _. apply B. discriminate.
Qed.

(** An empty line can only come out of the end-of-stream branch: the
    deque is then empty and nothing is left to read. *)
Lemma readAtLeastALine_eos (h h' : CTags) (l : jsstring)
      (rest : list jsstring) :
  length rest <= 1 ->
  unread (set_lines rest h) = false ->
  match lines (set_lines rest h) with
  | line :: rest' =>
      Resolved (Some line, set_lines rest' (set_lines rest h))
  | [] => Resolved (None, set_lines rest h)
  end = Resolved (Some l, h') ->
  lines h' = [] /\ unread h' = false.
Proof.
  intros Hlen U. cbn [lines set_lines].
  destruct rest as [|line rest']; [discriminate|].
  destruct rest'; [|simpl in Hlen; lia].
  intros H. inversion H; subst. split; [reflexivity|exact U].
Qed.

Lemma readAtLeastALine_empty (content : list byte) :
  forall fuel h h',
    readAtLeastALine fuel content h = Resolved (Some [], h') ->
    lines h' = [] /\ unread h' = false.
Proof.
  induction fuel as [|fuel IH]; intros h h'; cbn [readAtLeastALine];
    destruct (drain (lines h)) as [[line|] rest] eqn:D.
  - intros H. inversion H; subst.
    apply drain_Some_truthy in D. destruct D. congruence.
  - destruct (unread (set_lines rest h)) eqn:U; [discriminate|].
    apply readAtLeastALine_eos; auto. now apply drain_None_short in D.
  - intros H. inversion H; subst.
    apply drain_Some_truthy in D. destruct D. congruence.
  - destruct (unread (set_lines rest h)) eqn:U; [apply IH|].
    apply readAtLeastALine_eos; auto. now apply drain_None_short in D.
Qed.

(** C10: a read that returns an empty line leaves no buffered line and
    no unread byte, and the next read yields end-of-stream; so while
    more input remains (a buffered line or unread bytes) the line
    returned is never empty.  Draining only ever returns a non-empty
    line: the blank lines in front of it are dropped. *)
Theorem C10_empty_line_only_at_end (content : list byte) (h h' : CTags)
        (l : jsstring) :
  _readTagLine content h = Resolved (Some l, h') ->
  (l = [] ->
     lines h' = [] /\ unread h' = false
     /\ _readTagLine content h' = Resolved (None, h'))
  /\ (lines h' <> [] \/ unread h' = true -> l <> [])
  /\ (forall blanks line rest,
        Forall (fun b => b = []) blanks -> line <> [] -> rest <> [] ->
        drain (blanks ++ line :: rest) = (Some line, rest)).
Proof.
  intros H.
  assert (E : l = [] -> lines h' = [] /\ unread h' = false).
  { intros ->. eapply readAtLeastALine_empty. exact H. }
  split; [|split].
  - intros Hl. destruct (E Hl) as [A B]. repeat split; auto.
    unfold _readTagLine.
    destruct (remaining h'); cbn [readAtLeastALine];
      rewrite A; cbn [drain]; rewrite <- A, set_lines_same, B, A;
      reflexivity.
  - intros [Hn|Hu] Hl; destruct (E Hl) as [A B]; congruence.
  - intros blanks line rest Hb Hl Hr.
    induction Hb as [|b blanks -> _ IH]; cbn [app drain].
    + destruct rest; [congruence|]. destruct line; [congruence|reflexivity].
    + destruct (blanks ++ line :: rest) eqn:Eq.
      * destruct blanks; discriminate.
      * cbn [truthy]. exact IH.
Qed.

(** ** The decoder works byte by byte *)

Lemma decoder_write_app (d : StringDecoder) (a b : list byte) :
  decoder_write d (a ++ b)
  = (fst (decoder_write d a)
       ++ fst (decoder_write (snd (decoder_write d a)) b),
     snd (decoder_write (snd (decoder_write d a)) b)).
Proof.
  revert d. induction a as [|x a IH]; intros d; cbn [app decoder_write].
  - cbn [fst snd app]. now destruct (decoder_write d b).
  - destruct (decoder_step d x) as [out d1]. rewrite IH.
    destruct (decoder_write d1 a) as [t d2]. cbn [fst snd].
    now rewrite app_assoc.
Qed.

(** ** Splitting a text into lines *)

Lemma split_lines_from_LF (cur t : jsstring) :
  split_lines_from cur (LF :: t) = cur :: split_lines_from [] t.
Proof. reflexivity. Qed.

Lemma split_lines_from_CRLF (cur t : jsstring) :
  split_lines_from cur (CR :: LF :: t) = cur :: split_lines_from [] t.
Proof. reflexivity. Qed.

Lemma split_lines_from_other (cur t : jsstring) (c : char) :
  c <> LF -> (c = CR -> hd_error t <> Some LF) ->
  split_lines_from cur (c :: t) = split_lines_from (cur ++ [c]) t.
Proof.
  intros H1 H2. cbn [split_lines_from].
  apply char_eqb_neq in H1. rewrite H1.
  destruct (char_eqb c CR) eqn:E; [|reflexivity].
  apply char_eqb_eq in E. specialize (H2 E).
  destruct t as [|c' t]; [reflexivity|].
  destruct (char_eqb c' LF) eqn:E'; [|reflexivity].
  apply char_eqb_eq in E'. subst. now elim H2.
Qed.

(** How a text starts: with a line feed, with a carriage return and a
    line feed, or with a character that stays in the current line. *)
Lemma text_cases (t : jsstring) :
  t = []
  \/ (exists t', t = LF :: t')
  \/ (exists t', t = CR :: LF :: t')
  \/ (exists c t', t = c :: t' /\ c <> LF
                   /\ (c = CR -> hd_error t' <> Some LF)).
Proof.
  destruct t as [|c t]; [now left|]. right.
  destruct (N.eq_dec c LF) as [->|H1]; [left; eauto|]. right.
  destruct (N.eq_dec c CR) as [->|H2].
  - destruct t as [|c' t].
    + right. exists CR, []. split; [reflexivity|]. split; [exact H1|].
      discriminate.
    + destruct (N.eq_dec c' LF) as [->|H3]; [left; eauto|].
      right. exists CR, (c' :: t). split; [reflexivity|].
      split; [exact H1|]. intros _ H. inversion H. contradiction.
  - right. exists c, t. split; [reflexivity|]. split; [exact H1|].
    intros; contradiction.
Qed.

Lemma split_lines_from_cur (t : jsstring) :
  forall cur,
    split_lines_from cur t
    = (cur ++ hd [] (split_lines t)) :: tl (split_lines t).
Proof.
  unfold split_lines.
  induction t as [t IH] using (induction_ltof1 _ (@length char)).
  unfold ltof in IH. intros cur.
  destruct (text_cases t) as [->|[[t' ->]|[[t' ->]|[c [t' [-> [H1 H2]]]]]]].
  - cbn. now rewrite app_nil_r.
  - rewrite !split_lines_from_LF. cbn. now rewrite app_nil_r.
  - rewrite !split_lines_from_CRLF. cbn. now rewrite app_nil_r.
  - rewrite !split_lines_from_other by assumption.
    assert (L : length t' < length (c :: t')) by (simpl; lia).
    rewrite (IH t' L (cur ++ [c])), (IH t' L ([] ++ [c])).
    cbn [hd tl app]. now rewrite <- app_assoc.
Qed.

Lemma split_lines_not_nil (t : jsstring) : split_lines t <> [].
Proof.
  unfold split_lines. rewrite split_lines_from_cur. discriminate.
Qed.

(** ** Queueing the parts of a chunk *)

Lemma push_parts_snoc (i : list jsstring) (x p : jsstring)
      (ps : list jsstring) :
  push_parts (i ++ [x]) (p :: ps) = i ++ (x ++ p) :: ps.
Proof.
  unfold push_parts. destruct (i ++ [x]) eqn:E.
  - destruct i; discriminate.
  - rewrite <- E, removelast_last, last_last. cbn [hd tl].
    reflexivity.
Qed.

Lemma push_parts_cons (a : jsstring) (l parts : list jsstring) :
  l <> [] -> parts <> [] ->
  push_parts (a :: l) parts = a :: push_parts l parts.
Proof.
  intros Hl Hp.
  destruct (exists_last Hl) as [i [x ->]].
  destruct parts as [|p ps]; [congruence|].
  change (a :: i ++ [x]) with ((a :: i) ++ [x]).
  now rewrite !push_parts_snoc.
Qed.

Lemma push_parts_not_nil (l parts : list jsstring) :
  parts <> [] -> push_parts l parts <> [].
Proof.
  intros Hp. destruct l as [|a l]; [exact Hp|].
  destruct parts as [|p ps]; [congruence|].
  destruct (@exists_last _ (a :: l)) as [i [x ->]]; [discriminate|].
  rewrite push_parts_snoc. destruct i; discriminate.
Qed.

Lemma push_parts_assoc (l p1 p2 : list jsstring) :
  p1 <> [] -> p2 <> [] ->
  push_parts (push_parts l p1) p2 = push_parts l (push_parts p1 p2).
Proof.
  intros H1 H2. destruct l as [|a l]; [reflexivity|].
  destruct (@exists_last _ (a :: l)) as [i [x ->]]; [discriminate|].
  destruct p1 as [|q1 p1]; [congruence|].
  destruct p2 as [|q2 p2]; [congruence|].
  rewrite push_parts_snoc.
  destruct p1 as [|b p1].
  - change [q1] with ([] ++ [q1]).
    rewrite !push_parts_snoc. cbn [app].
    rewrite push_parts_snoc. now rewrite app_assoc.
  - destruct (@exists_last _ (b :: p1)) as [j [y E]]; [discriminate|].
    rewrite E.
    change (q1 :: j ++ [y]) with ((q1 :: j) ++ [y]).
    replace (i ++ (x ++ q1) :: j ++ [y])
      with ((i ++ (x ++ q1) :: j) ++ [y])
      by (rewrite <- app_assoc; reflexivity).
    rewrite !push_parts_snoc. cbn [app]. rewrite push_parts_snoc.
    rewrite <- app_assoc. reflexivity.
Qed.

Lemma push_parts_empty_text (l : list jsstring) :
  l <> [] -> push_parts l (split_lines []) = l.
Proof.
  intros Hl. destruct (exists_last Hl) as [i [x ->]].
  cbn. rewrite push_parts_snoc. now rewrite app_nil_r.
Qed.

(** Splitting a text in two pieces and queueing the parts of the second
    after those of the first gives the lines of the whole text, unless
    a carriage return ends the first piece and its line feed starts the
    second. *)
Lemma split_lines_app (t1 t2 : jsstring) :
  last t1 LF <> CR \/ hd_error t2 <> Some LF ->
  split_lines (t1 ++ t2) = push_parts (split_lines t1) (split_lines t2).
Proof.
  induction t1 as [t1 IH] using (induction_ltof1 _ (@length char)).
  unfold ltof in IH. intros H.
  assert (P2 := split_lines_not_nil t2).
  destruct (text_cases t1) as [->|[[t' ->]|[[t' ->]|[c [t' [-> [H1 H2]]]]]]].
  - cbn [app]. unfold split_lines at 2. cbn [split_lines_from].
    destruct (split_lines t2) as [|p ps]; [congruence|].
    change [[]] with ([] ++ [@nil char]). now rewrite push_parts_snoc.
  - unfold split_lines at 1 2. cbn [app].
    rewrite !split_lines_from_LF. fold (split_lines (t' ++ t2)).
    fold (split_lines t').
    rewrite IH; [|simpl; lia|].
    + rewrite push_parts_cons; auto using split_lines_not_nil.
    + destruct H as [H|H]; [left|now right].
      destruct t'; [discriminate|exact H].
  - unfold split_lines at 1 2. cbn [app].
    rewrite !split_lines_from_CRLF. fold (split_lines (t' ++ t2)).
    fold (split_lines t').
    rewrite IH; [|simpl; lia|].
    + rewrite push_parts_cons; auto using split_lines_not_nil.
    + destruct H as [H|H]; [left|now right].
      destruct t'; [discriminate|exact H].
  - unfold split_lines at 1 2. cbn [app].
    assert (H2' : c = CR -> hd_error (t' ++ t2) <> Some LF).
    { intros Hc. destruct t' as [|c' t'].
      - destruct H as [H|H]; [now elim H|exact H].
      - apply (H2 Hc). }
    rewrite !split_lines_from_other by assumption.
    rewrite split_lines_from_cur, (split_lines_from_cur t').
    rewrite IH; [|simpl; lia|].
    + destruct (split_lines t2) as [|p ps]; [congruence|].
      destruct (split_lines t') as [|q qs] eqn:E;
        [now apply split_lines_not_nil in E|].
      destruct qs as [|q' qs].
      * change [q] with ([] ++ [q]).
        change [([] ++ [c]) ++ hd [] ([] ++ [q])]
          with ([] ++ [[c] ++ q]).
        rewrite !push_parts_snoc. cbn [hd tl app]. reflexivity.
      * rewrite push_parts_cons by discriminate.
        cbn [hd tl]. symmetry. apply push_parts_cons; discriminate.
    + destruct H as [H|H]; [left|now right].
      destruct t' as [|c' t']; [discriminate|exact H].
Qed.

(** ** Reading a file of whole chunks *)

Lemma surfaced_cons (a : jsstring) (l : list jsstring) :
  l <> [] ->
  surfaced (a :: l) = (if truthy a then [a] else []) ++ surfaced l.
Proof.
  intros Hl. unfold surfaced. destruct l as [|b l]; [congruence|].
  cbn [removelast last filter]. destruct (truthy a); reflexivity.
Qed.

Lemma drain_surfaced_Some (parts : list jsstring) :
  parts <> [] ->
  forall l line rest,
    drain l = (Some line, rest) ->
    surfaced (push_parts l parts) = line :: surfaced (push_parts rest parts).
Proof.
  intros Hp. induction l as [|a l IH]; intros line rest; [discriminate|].
  cbn [drain]. destruct l as [|b l]; [discriminate|].
  rewrite push_parts_cons by (auto; discriminate).
  rewrite surfaced_cons by (apply push_parts_not_nil; exact Hp).
  destruct (truthy a) eqn:T.
  - intros H. inversion H; subst. reflexivity.
  - intros H. cbn [app]. now apply IH.
Qed.

Lemma drain_surfaced_None (parts : list jsstring) :
  parts <> [] ->
  forall l rest,
    drain l = (None, rest) ->
    surfaced (push_parts l parts) = surfaced (push_parts rest parts).
Proof.
  intros Hp. induction l as [|a l IH]; intros rest; cbn [drain].
  - intros H. now inversion H.
  - destruct l as [|b l]; [intros H; now inversion H|].
    destruct (truthy a) eqn:T; [discriminate|]. intros H.
    rewrite push_parts_cons by (auto; discriminate).
    rewrite surfaced_cons by (apply push_parts_not_nil; exact Hp).
    rewrite T. cbn [app]. now apply IH.
Qed.

Lemma firstn_plus (A : Type) (n m : nat) (l : list A) :
  firstn (n + m) l = firstn n l ++ firstn m (skipn n l).
Proof.
  revert l. induction n as [|n IH]; intros l; [reflexivity|].
  destruct l as [|x l]; cbn [Nat.add firstn skipn app].
  - now rewrite firstn_nil.
  - now rewrite IH.
Qed.

Lemma last_app_r (A : Type) (l1 l2 : list A) (d : A) :
  l2 <> [] -> last (l1 ++ l2) d = last l2 d.
Proof.
  intros H. destruct (exists_last H) as [i [x ->]].
  now rewrite app_assoc, !last_last.
Qed.

Section WholeChunks.

(** The file and the length of the read buffer. *)
Variable content : list byte.
Variable B : nat.
Hypothesis B_positive : 0 < B.

Local Abbreviation rest_text := (rest_text content).
Local Abbreviation upcoming := (upcoming content).
Local Abbreviation remaining_lines := (remaining_lines content).
Local Abbreviation reading := (reading content B).

Lemma reading_set_lines (l : list jsstring) (h : CTags) :
  reading h -> reading (set_lines l h).
Proof. intros [H1 H2 H3 H4 H5]. now constructor. Qed.

Lemma reading_unread (h : CTags) :
  reading h -> unread h = true ->
  exists m, workingPos h + S m * B = length content.
Proof.
  intros R U. unfold unread in U. rewrite (rd_size R) in U.
  apply Nat.ltb_lt in U. destruct (rd_chunks R) as [m Hm].
  destruct m as [|m]; [simpl in Hm; lia|]. now exists m.
Qed.

(** Reading one chunk keeps the handle in a sequential read and does
    not change the lines still to come. *)
Lemma read_chunk_reading (h : CTags) :
  reading h -> unread h = true ->
  reading (read_chunk content h)
  /\ workingPos (read_chunk content h) = workingPos h + B
  /\ lines (read_chunk content h) <> []
  /\ upcoming (read_chunk content h) = upcoming h.
Proof.
  intros R U. destruct (reading_unread R U) as [m Hm].
  set (w := workingPos h) in *.
  set (bytes := firstn B (skipn w content)).
  assert (Lb : length bytes = B).
  { unfold bytes. rewrite length_firstn, length_skipn. simpl in Hm. lia. }
  assert (Er : fs_read content (readBuffer h) w = (B, bytes)).
  { unfold fs_read. rewrite (rd_buffer R). fold bytes. rewrite Lb.
    f_equal. rewrite skipn_all2 by (rewrite (rd_buffer R); lia).
    apply app_nil_r. }
  assert (Es : skipn w content = bytes ++ skipn (w + B) content).
  { unfold bytes. rewrite Nat.add_comm, <- skipn_skipn.
    symmetry. apply firstn_skipn. }
  unfold read_chunk. fold w. rewrite Er, (rd_skip R).
  destruct (decoder_write (decoder h) bytes) as [t d'] eqn:Ed.
  cbn [workingPos lines].
  assert (Sp := split_lines_not_nil t).
  split; [|split; [reflexivity|split]].
  - constructor; cbn [readBuffer size shouldSkip workingPos decoder].
    + exact Lb.
    + exact (rd_size R).
    + reflexivity.
    + exists m. simpl in Hm. lia.
    + intros j Hj.
      assert (Hj' : S j * B < length content - w) by (simpl; lia).
      pose proof (rd_crlf R (S j) Hj') as C. fold w in C.
      cbn [Nat.mul] in C.
      rewrite firstn_plus, decoder_write_app in C. fold bytes in C.
      rewrite Ed in C. cbn [fst snd] in C.
      rewrite skipn_skipn, (Nat.add_comm B w) in C.
      destruct (fst (decoder_write d'
                       (firstn (j * B) (skipn (w + B) content))))
        as [|c t'] eqn:Et; [discriminate|].
      rewrite last_app_r in C by discriminate. exact C.
  - apply push_parts_not_nil. exact Sp.
  - unfold upcoming, rest_text.
    cbn [lines decoder workingPos]. fold w.
    rewrite Es, decoder_write_app, Ed. cbn [fst snd].
    rewrite split_lines_app.
    + rewrite push_parts_assoc; auto using split_lines_not_nil.
    + destruct m as [|m].
      * right. replace (w + B) with (length content) by (simpl in Hm; lia).
        rewrite skipn_all. cbn. discriminate.
      * left. assert (H1 : 1 * B < length content - w) by (simpl in *; lia).
        pose proof (rd_crlf R 1 H1) as C. fold w in C.
        rewrite Nat.mul_1_l in C. fold bytes in C. now rewrite Ed in C.
Qed.

(** At the end of the file the buffered fragment is all that is left. *)
Lemma upcoming_at_end (h : CTags) (x : jsstring) :
  reading h -> unread h = false -> lines h = [x] ->
  surfaced (upcoming h) = [x].
Proof.
  intros R U L. unfold upcoming, rest_text. rewrite L.
  unfold unread in U. rewrite (rd_size R) in U. apply Nat.ltb_ge in U.
  rewrite skipn_all2 by exact U. cbn [decoder_write fst].
  rewrite push_parts_empty_text by discriminate. reflexivity.
Qed.

(** One call on a handle that still has something to give returns
    the first of the remaining lines. *)
Lemma readAtLeastALine_next :
  forall fuel h,
    reading h -> active h = true -> remaining h <= fuel ->
    exists l h',
      readAtLeastALine fuel content h = Resolved (Some l, h')
      /\ reading h'
      /\ surfaced (upcoming h) = l :: remaining_lines h'.
Proof.
  induction fuel as [|fuel IH]; intros h R A F;
    cbn [readAtLeastALine];
    destruct (drain (lines h)) as [[line|] rest] eqn:D.
  1, 3: exists line, (set_lines rest h); split; [reflexivity|];
    split; [now apply reading_set_lines|];
    unfold remaining_lines, active; cbn [lines];
    destruct (drain_Some_truthy _ D) as [_ Hr];
    (destruct rest as [|r0 rest]; [congruence|]);
    rewrite orb_true_r;
    apply (drain_surfaced_Some (split_lines_not_nil _) _ D).
  all: assert (R1 := reading_set_lines rest R);
    assert (E1 : surfaced (upcoming h)
                 = surfaced (upcoming (set_lines rest h)))
      by apply (drain_surfaced_None (split_lines_not_nil _) _ D);
    rewrite E1;
    destruct (unread (set_lines rest h)) eqn:U.
  - exfalso. unfold unread in U. unfold remaining in F.
    cbn [size workingPos set_lines] in U.
    destruct (size h); [|discriminate]. apply Nat.ltb_lt in U. lia.
  - destruct (drain_None_short _ D) as [Hlen Hne].
    cbn [lines set_lines].
    destruct rest as [|x rest].
    + exfalso. unfold active in A.
      assert (U' : unread h = false) by exact U. rewrite U' in A.
      destruct (lines h); [discriminate|]. now apply Hne.
    + destruct rest; [|simpl in Hlen; lia].
      exists x, (set_lines [] (set_lines [x] h)).
      split; [reflexivity|]. split; [now apply reading_set_lines|].
      unfold remaining_lines, active.
      assert (U' : unread (set_lines [] (set_lines [x] h)) = false)
        by exact U.
      rewrite U'. cbn [lines set_lines orb].
      now apply upcoming_at_end.
  - destruct (read_chunk_reading R1 U) as [R2 [W2 [L2 E2]]].
    destruct (IH (read_chunk content (set_lines rest h)) R2)
      as [l [h' [Hr [Rh' Hs]]]].
    + unfold active.
      destruct (lines (read_chunk content (set_lines rest h)));
        [congruence|apply orb_true_r].
    + unfold remaining in *. rewrite (rd_size R2), W2.
      rewrite (rd_size R) in F. cbn [workingPos set_lines] in *. lia.
    + exists l, h'. split; [exact Hr|]. split; [exact Rh'|].
      now rewrite <- E2.
  - destruct (drain_None_short _ D) as [Hlen Hne].
    cbn [lines set_lines].
    destruct rest as [|x rest].
    + exfalso. unfold active in A.
      assert (U' : unread h = false) by exact U. rewrite U' in A.
      destruct (lines h); [discriminate|]. now apply Hne.
    + destruct rest; [|simpl in Hlen; lia].
      exists x, (set_lines [] (set_lines [x] h)).
      split; [reflexivity|]. split; [now apply reading_set_lines|].
      unfold remaining_lines, active.
      assert (U' : unread (set_lines [] (set_lines [x] h)) = false)
        by exact U.
      rewrite U'. cbn [lines set_lines orb].
      now apply upcoming_at_end.
Qed.

Lemma readTagLine_done (h : CTags) :
  active h = false -> _readTagLine content h = Resolved (None, h).
Proof.
  unfold active. intros A. apply orb_false_elim in A. destruct A as [U L].
  destruct (lines h) as [|x l] eqn:E; [|discriminate].
  unfold _readTagLine.
  destruct (remaining h); cbn [readAtLeastALine];
    rewrite E; cbn [drain]; rewrite <- E, set_lines_same, U, E;
    reflexivity.
Qed.

(** Enough calls return all the remaining lines and then [null]. *)
Lemma readLines_remaining :
  forall fuel h,
    reading h -> length (remaining_lines h) < fuel ->
    readLines fuel content h = Resolved (remaining_lines h).
Proof.
  induction fuel as [|fuel IH]; intros h R F; [lia|].
  cbn [readLines]. destruct (active h) eqn:A.
  - destruct (@readAtLeastALine_next (remaining h) h R A (le_n _))
      as [l [h' [Hr [Rh' Hs]]]].
    unfold _readTagLine. rewrite Hr. cbn [then_ fst snd].
    assert (E : remaining_lines h = l :: remaining_lines h').
    { unfold remaining_lines at 1. now rewrite A. }
    rewrite E in *. rewrite IH; [reflexivity|exact Rh'|simpl in F; lia].
  - rewrite readTagLine_done by exact A. cbn [then_ fst].
    unfold remaining_lines. now rewrite A.
Qed.

End WholeChunks.

Lemma reading_start (content : list byte) (h : CTags) (k : nat) :
  length content = k * length (readBuffer h) ->
  size h = Some (length content) ->
  workingPos h = 0 ->
  shouldSkip h = false ->
  (forall j, j * length (readBuffer h) < length content ->
             last (fst (decoder_write (decoder h)
                          (firstn (j * length (readBuffer h)) content))) LF
             <> CR) ->
  reading content (length (readBuffer h)) h.
Proof.
  intros Hk Hs Hw Hsk Hc. constructor; auto.
  - exists k. rewrite Hw. simpl. auto.
  - intros j Hj. rewrite Hw in *. rewrite Nat.sub_0_r in Hj.
    cbn [skipn]. now apply Hc.
Qed.

Lemma blank_line_file_reading (mem : nat -> byte) :
  reading blank_line_file 1024 (sized mem blank_line_file).
Proof.
  assert (L : length blank_line_file = 1024) by reflexivity.
  constructor; try reflexivity.
  - exists 1. reflexivity.
  - intros j Hj. destruct j as [|j].
    + cbn. discriminate.
    + exfalso. rewrite L in Hj. cbn [workingPos sized set_size new_CTags] in Hj.
      lia.
Qed.

(** C6, as stated, fails: the chunked reader drops the blank line that
    splitting the decoded file keeps.  The file fills the read buffer
    exactly. *)
Lemma C6_blank_line_dropped :
  readLines 3 blank_line_file (sized zero_mem blank_line_file)
  = Resolved [lit "a"; repeat 98%N 1021]
  /\ split_lines (fst (decoder_write Idle blank_line_file))
     = [lit "a"; []; repeat 98%N 1021]
  /\ forall fuel,
       readLines fuel blank_line_file (sized zero_mem blank_line_file)
       <> Resolved (split_lines (fst (decoder_write Idle blank_line_file))).
Proof.
  assert (E : remaining_lines blank_line_file
                              (sized zero_mem blank_line_file)
              = [lit "a"; repeat 98%N 1021]) by (vm_compute; reflexivity).
  assert (S3 : split_lines (fst (decoder_write Idle blank_line_file))
               = [lit "a"; []; repeat 98%N 1021])
    by (vm_compute; reflexivity).
  assert (R : forall fuel, 2 < fuel ->
                readLines fuel blank_line_file
                          (sized zero_mem blank_line_file)
                = Resolved [lit "a"; repeat 98%N 1021]).
  { intros fuel F. rewrite <- E.
    apply readLines_remaining with (B := 1024).
    - lia.
    - apply blank_line_file_reading.
    - rewrite E. exact F. }
  split; [apply R; lia|]. split; [exact S3|].
  intros fuel. rewrite S3.
  destruct (Nat.lt_ge_cases 2 fuel) as [F|F].
  - rewrite (R fuel F). discriminate.
  - destruct fuel as [|[|[|fuel]]]; try lia; vm_compute; discriminate.
Qed.

(** C6, amended: for a file made of one or more whole chunks (its size
    a positive multiple of the length of the read buffer) in which no
    chunk ends between a carriage return and its line feed, reading
    line by line from position 0 returns, in order, the non-empty
    segments among all but the last of the segments obtained by
    decoding the whole file at once and splitting it on line
    terminators, then the last segment (even when it is empty), then
    end-of-stream; a character split across two chunks and a line
    split across two chunks come out whole. *)
Theorem C6_whole_chunks_refinement (content : list byte) (h : CTags)
        (k fuel : nat) :
  0 < length (readBuffer h) ->
  length content = S k * length (readBuffer h) ->
  size h = Some (length content) ->
  workingPos h = 0 ->
  lines h = [] ->
  decoder h = Idle ->
  shouldSkip h = false ->
  (forall j, j * length (readBuffer h) < length content ->
             last (fst (decoder_write Idle
                          (firstn (j * length (readBuffer h)) content))) LF
             <> CR) ->
  length (surfaced (split_lines (fst (decoder_write Idle content)))) < fuel ->
  readLines fuel content h
  = Resolved (surfaced (split_lines (fst (decoder_write Idle content)))).
Proof.
  intros HB Hk Hs Hw Hl Hd Hsk Hc F.
  assert (R : reading content (length (readBuffer h)) h).
  { apply reading_start with (k := S k); auto. now rewrite Hd. }
  assert (E : remaining_lines content h
              = surfaced (split_lines (fst (decoder_write Idle content)))).
  { unfold remaining_lines, active, unread, upcoming, rest_text.
    rewrite Hs, Hw, Hl, Hd, Hk. cbn [skipn push_parts].
    replace (0 <? S k * length (readBuffer h)) with true; [reflexivity|].
    symmetry. apply Nat.ltb_lt. simpl. lia. }
  rewrite <- E. apply readLines_remaining with (B := length (readBuffer h)); auto.
  now rewrite E.
Qed.

Lemma C6_whole_chunks_refinement_witness :
  readLines 4 two_chunk_file (sized zero_mem two_chunk_file)
  = Resolved (surfaced (split_lines
                          (fst (decoder_write Idle two_chunk_file))))
  /\ surfaced (split_lines (fst (decoder_write Idle two_chunk_file)))
     = [repeat 97%N 1021; 233%N :: repeat 98%N 1022; []].
Proof.
  split; [|vm_compute; reflexivity].
  apply (@C6_whole_chunks_refinement two_chunk_file
           (sized zero_mem two_chunk_file) 1 4).
  - vm_compute. lia.
  - vm_compute. reflexivity.
  - reflexivity.
  - reflexivity.
  - reflexivity.
  - reflexivity.
  - reflexivity.
  - intros j Hj.
    change (length (readBuffer (sized zero_mem two_chunk_file)))
      with 1024 in *.
    change (length two_chunk_file) with 2048 in Hj.
    destruct j as [|[|j]]; [vm_compute; discriminate
                           |vm_compute; discriminate|lia].
  - vm_compute. lia.
Defined.

Lemma C10_empty_line_only_at_end_witness :
  exists h',
    _readTagLine blank_line_file (sized zero_mem blank_line_file)
    = Resolved (Some (lit "a"), h')
    /\ (lines h' <> [] \/ unread h' = true -> lit "a" <> []).
Proof.
  eexists. split.
  - vm_compute. reflexivity.
  - eapply (proj1 (proj2 (@C10_empty_line_only_at_end blank_line_file
                            (sized zero_mem blank_line_file) _ (lit "a") _))).
    Unshelve. vm_compute. reflexivity.
Defined.

(* ================================================================= *)
(** * The pseudo-tag loader and seeking *)

(** C4, on the file of the claim (the pseudo-tag line followed by one
    normal entry) read through the 1024-byte buffer of the constructor,
    here zero-filled: after [_readPseudoTags] the sort mode is 1 and
    [workingPos] is 0, but the deque still holds the text decoded from
    the 982 buffer bytes behind the 42 bytes read, and the next read
    returns those characters followed by the pseudo-tag line, not the
    pseudo-tag line. *)
Theorem C4_loader_keeps_buffered_text :
  exists h1 h2,
    _readPseudoTags 2 pseudo_file (sized zero_mem pseudo_file) = Resolved h1
    /\ Info.sort (info h1) = TAG_SORTED
    /\ workingPos h1 = 0
    /\ lines h1 = [repeat 0%N 982]
    /\ _readTagLine pseudo_file h1
       = Resolved (Some (repeat 0%N 982 ++ pseudo_line), h2).
Proof.
  eexists. eexists. split; [vm_compute; reflexivity|].
  split; [reflexivity|]. split; [reflexivity|].
  split; [reflexivity|]. vm_compute. reflexivity.
Qed.

(** The same without any stale byte: on a file that fills the buffer
    exactly, whatever the buffer held, the loader leaves the second
    entry in the deque, and the next read returns that entry instead
    of the pseudo-tag line. *)
Lemma loader_keeps_buffered_lines (mem : nat -> byte) :
  exists h1 h2,
    _readPseudoTags 2 pseudo_file_1024 (sized mem pseudo_file_1024)
    = Resolved h1
    /\ Info.sort (info h1) = TAG_SORTED
    /\ workingPos h1 = 0
    /\ lines h1 = [long_entry; []]
    /\ _readTagLine pseudo_file_1024 h1 = Resolved (Some long_entry, h2).
Proof.
  eexists. eexists. split; [vm_compute; reflexivity|].
  split; [reflexivity|]. split; [reflexivity|].
  split; [reflexivity|]. vm_compute. reflexivity.
Qed.

(** C5, on a handle whose file fills the read buffer exactly and has
    been read once (by the loader), whatever the buffer held before:
    after seeking to offset 1020, inside the third line, the line
    returned is [d], which is none of the lines of the file.  The four
    bytes read at offset 1020 only overwrite the front of the buffer;
    the 1020 bytes behind them, left from the read at offset 0, are
    decoded again. *)
Theorem C5_seek_returns_stale_line (mem : nat -> byte) :
  exists h1 h2,
    _readPseudoTags 1 seek_file (sized mem seek_file) = Resolved h1
    /\ _readTagLineSeek seek_file 1020 h1 = Resolved (Some (lit "d"), h2)
    /\ readLines 5 seek_file (sized mem seek_file)
       = Resolved [lit "ab"; lit "cd"; repeat 101%N 1017; []]
    /\ ~ In (lit "d") [lit "ab"; lit "cd"; repeat 101%N 1017; []].
Proof.
  eexists. eexists. split; [vm_compute; reflexivity|].
  split; [vm_compute; reflexivity|]. split; [vm_compute; reflexivity|].
  intros [H|[H|[H|[H|[]]]]]; vm_compute in H; discriminate H.
Qed.

(** What the seek does before it reads: the offset is clamped into
    [0, size], the decoder and the deque are emptied and the skip flag
    is armed. *)
Lemma seek_reset_spec (offset : Z) (sz : nat) (h : CTags) :
  let h' := seek_reset (clamp offset sz) h in
  workingPos h' <= sz
  /\ pos h' = workingPos h'
  /\ (0 <= offset <= Z.of_nat sz -> Z.of_nat (workingPos h') = offset)%Z
  /\ ((offset < 0)%Z -> workingPos h' = 0)
  /\ ((Z.of_nat sz < offset)%Z -> workingPos h' = sz)
  /\ decoder h' = Idle /\ lines h' = [] /\ shouldSkip h' = true.
Proof.
  cbn. unfold clamp. repeat split; try lia.
  destruct (decoder h); reflexivity.
Qed.

(** [_skipPartialUTF8] removes exactly the continuation bytes that lead
    the first [length] bytes of the buffer. *)
Lemma skipPartialUTF8_spec (buffer : list byte) (length : nat) :
  let offset := skipPartialUTF8_offset buffer length in
  _skipPartialUTF8 buffer length = skipn offset buffer
  /\ offset <= length
  /\ Forall (fun b => N.land b 192 = 128%N) (firstn offset buffer)
  /\ (offset < length ->
      match nth_error buffer offset with
      | Some b => N.land b 192 <> 128%N
      | None => True
      end).
Proof.
  cbv zeta. split; [|split; [|split]].
  - unfold _skipPartialUTF8.
    destruct (skipPartialUTF8_offset buffer length); reflexivity.
  - revert length. induction buffer as [|b buffer IH]; intros [|n];
      cbn [skipPartialUTF8_offset]; try lia.
    destruct (N.land b 192 =? 128)%N; [|lia]. specialize (IH n). lia.
  - revert length. induction buffer as [|b buffer IH]; intros [|n];
      cbn [skipPartialUTF8_offset firstn]; try constructor.
    destruct (N.land b 192 =? 128)%N eqn:E; cbn [firstn]; constructor.
    + now apply N.eqb_eq.
    + apply IH.
  - revert length. induction buffer as [|b buffer IH]; intros [|n];
      cbn [skipPartialUTF8_offset nth_error]; try lia; auto.
    destruct (N.land b 192 =? 128)%N eqn:E; cbn [nth_error].
    + intros H. apply IH. lia.
    + intros _. now apply N.eqb_neq.
Qed.

(* ================================================================= *)
(** * Properties of the locator *)

(** ** The order of [sort] *)

Lemma jsstring_leb_refl (a : jsstring) : jsstring_leb a a = true.
Proof.
  induction a as [|x a IH]; [reflexivity|]. cbn [jsstring_leb].
  now rewrite N.ltb_irrefl.
Qed.

Lemma jsstring_leb_total (a b : jsstring) :
  jsstring_leb a b = true \/ jsstring_leb b a = true.
Proof.
  revert b. induction a as [|x a IH]; intros [|y b]; cbn [jsstring_leb];
    auto.
  destruct (N.ltb_spec x y), (N.ltb_spec y x); auto; lia.
Qed.

Lemma jsstring_leb_trans (a b c : jsstring) :
  jsstring_leb a b = true -> jsstring_leb b c = true ->
  jsstring_leb a c = true.
Proof.
  revert b c. induction a as [|x a IH]; intros [|y b] [|z c];
    cbn [jsstring_leb]; auto; try discriminate.
  destruct (N.ltb_spec x y), (N.ltb_spec y x), (N.ltb_spec y z),
    (N.ltb_spec z y), (N.ltb_spec x z), (N.ltb_spec z x);
    try discriminate; try lia; auto. apply IH.
Qed.

Lemma jsstring_leb_antisym (a b : jsstring) :
  jsstring_leb a b = true -> jsstring_leb b a = true -> a = b.
Proof.
  revert b. induction a as [|x a IH]; intros [|y b]; cbn [jsstring_leb];
    auto; try discriminate.
  destruct (N.ltb_spec x y), (N.ltb_spec y x); try discriminate; try lia.
  intros H1 H2. f_equal; [lia|auto].
Qed.

Lemma insert_sorted_perm (x : jsstring) (l : list jsstring) :
  Permutation (insert_sorted x l) (x :: l).
Proof.
  induction l as [|y l IH]; cbn [insert_sorted]; [reflexivity|].
  destruct (jsstring_leb x y); [reflexivity|].
  rewrite IH. apply perm_swap.
Qed.

Lemma sort_perm (l : list jsstring) : Permutation (sort l) l.
Proof.
  induction l as [|x l IH]; cbn [sort]; [reflexivity|].
  rewrite insert_sorted_perm. now constructor.
Qed.

Lemma insert_sorted_sorted (x : jsstring) (l : list jsstring) :
  StronglySorted ascending l -> StronglySorted ascending (insert_sorted x l).
Proof.
  induction l as [|y l IH]; intros H; cbn [insert_sorted].
  - repeat constructor.
  - inversion H as [|? ? Hs Hf]; subst.
    destruct (jsstring_leb x y) eqn:E.
    + constructor; [exact H|]. constructor; [exact E|].
      eapply Forall_impl; [|exact Hf]. intros z Hz.
      eapply jsstring_leb_trans; eauto.
    + constructor; [auto|].
      assert (Hyx : ascending y x).
      { destruct (jsstring_leb_total x y); [congruence|assumption]. }
      eapply Permutation_Forall.
      * symmetry. apply insert_sorted_perm.
      * constructor; assumption.
Qed.

Lemma sort_sorted (l : list jsstring) : StronglySorted ascending (sort l).
Proof.
  induction l as [|x l IH]; cbn [sort]; [constructor|].
  now apply insert_sorted_sorted.
Qed.

(** ** Paths *)

Lemma jsstring_eqb_refl (a : jsstring) : jsstring_eqb a a = true.
Proof.
  induction a as [|x a IH]; [reflexivity|]. cbn [jsstring_eqb].
  now rewrite char_eqb_refl.
Qed.

Lemma path_eqb_length (p q : path) :
  path_eqb p q = true -> length p = length q.
Proof.
  revert q. induction p as [|x p IH]; intros [|y q]; cbn [path_eqb];
    try discriminate; auto.
  intros H. apply andb_prop in H. simpl. f_equal. now apply IH.
Qed.

Lemma nil_or_snoc (p : path) : p = [] \/ exists i x, p = i ++ [x].
Proof.
  induction p as [|a p IH] using rev_ind; [now left|right; eauto].
Qed.

Lemma dirname_length (p : path) : length (dirname p) = length p - 1.
Proof.
  unfold dirname. destruct (nil_or_snoc p) as [->|[i [x ->]]].
  - reflexivity.
  - rewrite removelast_last, length_app. simpl. lia.
Qed.

Lemma dirname_eqb (p : path) :
  path_eqb (dirname p) p = match p with [] => true | _ :: _ => false end.
Proof.
  destruct p as [|a p]; [reflexivity|].
  destruct (path_eqb (dirname (a :: p)) (a :: p)) eqn:E; [|reflexivity].
  apply path_eqb_length in E. rewrite dirname_length in E. simpl in E. lia.
Qed.

(** ** Trying the candidates of one directory *)

Section LocatorProperties.

Variable minimatch_filter : jsstring -> bool.
Variable mem : nat -> byte.
Variable fs : FileSystem.

Local Abbreviation reduce := (Promise_reduce (reducer mem fs)).
Local Abbreviation finder := (ctagsFinder minimatch_filter mem fs).

(** No candidate of [l] can be opened in [dir]. *)
Local Abbreviation none_opens dir l :=
  (forall x, In x l -> exists e, open fs (join dir x) = Err e).

Lemma reduce_found (dir : path) (l : list jsstring) (h : CTags) :
  Promise_reduce (reducer mem fs dir) l (Some h) = Resolved (Some h).
Proof. induction l as [|x l IH]; [reflexivity|exact IH]. Qed.

Lemma reduce_failed (dir : path) (m : jsstring) (rest : list jsstring)
      (e : error) :
  open fs (join dir m) = Err e ->
  Promise_reduce (reducer mem fs dir) (m :: rest) None
  = Promise_reduce (reducer mem fs dir) rest None.
Proof.
  intros H. cbn [Promise_reduce]. unfold reducer at 1. now rewrite H.
Qed.

Lemma reduce_none (dir : path) (l : list jsstring) :
  none_opens dir l ->
  Promise_reduce (reducer mem fs dir) l None = Resolved None.
Proof.
  induction l as [|x l IH]; intros H; [reflexivity|].
  destruct (H x (or_introl eq_refl)) as [e He].
  rewrite (@reduce_failed _ _ _ _ He). apply IH.
  intros y Hy. apply H. now right.
Qed.

Lemma reduce_first (dir : path) (before : list jsstring) (m : jsstring)
      (after : list jsstring) (fd : nat) :
  none_opens dir before ->
  open fs (join dir m) = Ok fd ->
  Promise_reduce (reducer mem fs dir) (before ++ m :: after) None
  = Resolved (Some (new_CTags mem (join dir m) fd)).
Proof.
  induction before as [|x before IH]; intros H Hm.
  - cbn [app Promise_reduce]. unfold reducer at 1. rewrite Hm.
    cbn [async then_]. apply reduce_found.
  - destruct (H x (or_introl eq_refl)) as [e He].
    cbn [app]. rewrite (@reduce_failed _ _ _ _ He). apply IH; auto.
    intros y Hy. apply H. now right.
Qed.

(** Either some candidate is the first that opens, or none opens. *)
Lemma reduce_cases (dir : path) (l : list jsstring) :
  (exists before m after fd,
      l = before ++ m :: after /\ none_opens dir before
      /\ open fs (join dir m) = Ok fd)
  \/ none_opens dir l.
Proof.
  induction l as [|x l IH]; [right; intros x []|].
  destruct (open fs (join dir x)) as [fd|e] eqn:E.
  - left. exists [], x, l, fd. repeat split; auto. intros y [].
  - destruct IH as [[before [m [after [fd [-> [Hb Hm]]]]]]|Hn].
    + left. exists (x :: before), m, after, fd. repeat split; auto.
      intros y [<-|Hy]; eauto.
    + right. intros y [<-|Hy]; eauto.
Qed.

Lemma matched_In (files : list jsstring) (x : jsstring) :
  In x (sort (filter minimatch_filter files))
  <-> In x files /\ minimatch_filter x = true.
Proof.
  rewrite <- filter_In. split; apply Permutation_in.
  - apply sort_perm.
  - symmetry. apply sort_perm.
Qed.

(** ** One level of the search *)

Lemma ctagsFinder_eq (fuel : nat) (dir : path) :
  ctagsFinder minimatch_filter mem fs fuel dir
  = (files <- async (readdir fs dir) ;;
     result <- Promise_reduce (reducer mem fs dir)
                 (sort (filter minimatch_filter files)) None ;;
     match result with
     | None =>
         match dir, fuel with
         | [], _ => Resolved None
         | _ :: _, 0 => Pending
         | _ :: _, S fuel' =>
             ctagsFinder minimatch_filter mem fs fuel' (dirname dir)
         end
     | Some _ => Resolved result
     end).
Proof.
  destruct fuel; cbn [ctagsFinder];
    destruct (async (readdir fs dir)); cbn [then_]; try reflexivity;
    destruct (Promise_reduce _ _ _) as [[h|]| |]; cbn [then_];
    try reflexivity; rewrite dirname_eqb; destruct dir; reflexivity.
Qed.

Lemma ctagsFinder_rejected (fuel : nat) (dir : path) (e : error) :
  readdir fs dir = Err e ->
  ctagsFinder minimatch_filter mem fs fuel dir = Rejected e.
Proof. intros H. rewrite ctagsFinder_eq, H. reflexivity. Qed.

Lemma ctagsFinder_found (fuel : nat) (dir : path) (files : list jsstring)
      (before : list jsstring) (m : jsstring) (after : list jsstring)
      (fd : nat) :
  readdir fs dir = Ok files ->
  sort (filter minimatch_filter files) = before ++ m :: after ->
  none_opens dir before ->
  open fs (join dir m) = Ok fd ->
  ctagsFinder minimatch_filter mem fs fuel dir
  = Resolved (Some (new_CTags mem (join dir m) fd)).
Proof.
  intros Hr Hs Hb Hm. rewrite ctagsFinder_eq, Hr. cbn [async then_].
  rewrite Hs, (@reduce_first _ _ _ _ _ Hb Hm). reflexivity.
Qed.

Lemma ctagsFinder_none (fuel : nat) (dir : path) (files : list jsstring) :
  readdir fs dir = Ok files ->
  none_opens dir (sort (filter minimatch_filter files)) ->
  ctagsFinder minimatch_filter mem fs fuel dir
  = match dir, fuel with
    | [], _ => Resolved None
    | _ :: _, 0 => Pending
    | _ :: _, S fuel' =>
        ctagsFinder minimatch_filter mem fs fuel' (dirname dir)
    end.
Proof.
  intros Hr Hn. rewrite ctagsFinder_eq, Hr. cbn [async then_].
  rewrite (@reduce_none _ _ Hn). reflexivity.
Qed.

Lemma quiet_none_opens (dir : path) :
  quiet minimatch_filter fs dir ->
  exists files,
    readdir fs dir = Ok files
    /\ none_opens dir (sort (filter minimatch_filter files)).
Proof.
  intros [files [Hr Hq]]. exists files. split; [exact Hr|].
  intros x Hx. apply matched_In in Hx. destruct Hx. auto.
Qed.

(** ** Going up *)

Lemma ancestor_length (k : nat) (dir : path) :
  length (ancestor k dir) = length dir - k.
Proof.
  induction k as [|k IH]; [simpl; lia|].
  change (ancestor (S k) dir) with (dirname (ancestor k dir)).
  rewrite dirname_length, IH. lia.
Qed.

(** A path of [n] components takes at most [n] ascents: more fuel does
    not change the result. *)
Lemma ctagsFinder_fuel :
  forall fuel1 fuel2 dir,
    length dir <= fuel1 -> length dir <= fuel2 ->
    ctagsFinder minimatch_filter mem fs fuel1 dir
    = ctagsFinder minimatch_filter mem fs fuel2 dir.
Proof.
  induction fuel1 as [|fuel1 IH]; intros fuel2 dir H1 H2;
    rewrite (ctagsFinder_eq _ dir), (ctagsFinder_eq fuel2 dir);
    destruct (async (readdir fs dir)) as [files|e|]; cbn [then_];
    try reflexivity;
    destruct (Promise_reduce _ _ _) as [[h|]|e'|]; cbn [then_];
    try reflexivity;
    destruct dir as [|a dir]; try reflexivity; simpl in H1, H2; try lia.
  destruct fuel2 as [|fuel2]; [lia|].
  apply IH; rewrite dirname_length; simpl; lia.
Qed.

(** The search never stays pending: it resolves or is rejected. *)
Lemma ctagsFinder_settles :
  forall fuel dir,
    length dir <= fuel ->
    ctagsFinder minimatch_filter mem fs fuel dir <> Pending.
Proof.
  induction fuel as [|fuel IH]; intros dir H;
    rewrite ctagsFinder_eq;
    destruct (readdir fs dir) as [files|e]; cbn [async then_];
    try discriminate;
    (destruct (reduce_cases dir (sort (filter minimatch_filter files)))
      as [[before [m [after [fd [-> [Hb Hm]]]]]]|Hn];
     [rewrite (@reduce_first _ _ _ _ _ Hb Hm); discriminate|]);
    rewrite (@reduce_none _ _ Hn); cbn [then_];
    destruct dir as [|a dir]; try discriminate; simpl in H; try lia.
  apply IH. rewrite dirname_length. simpl. lia.
Qed.

Lemma ctagsFinder_ascend (start : path) :
  forall k,
    k <= length start ->
    (forall j, j < k -> quiet minimatch_filter fs (ancestor j start)) ->
    ctagsFinder minimatch_filter mem fs (length start) start
    = ctagsFinder minimatch_filter mem fs (length (ancestor k start))
                  (ancestor k start).
Proof.
  induction k as [|k IH]; intros Hk Hq; [reflexivity|].
  rewrite IH by (try lia; intros j Hj; apply Hq; lia).
  destruct (quiet_none_opens (Hq k (Nat.lt_succ_diag_r k)))
    as [files [Hr Hn]].
  rewrite (@ctagsFinder_none _ _ _ Hr Hn).
  pose proof (ancestor_length k start) as L.
  destruct (ancestor k start) as [|a dir] eqn:E; [simpl in L; lia|].
  rewrite L. destruct (length start - k) as [|n] eqn:En; [lia|].
  change (ancestor (S k) start) with (dirname (ancestor k start)).
  rewrite E. apply ctagsFinder_fuel; rewrite dirname_length; simpl in *; lia.
Qed.


(** [findCTagsFile] settles: the fuel handed to [ctagsFinder] is
    never used up. *)
Lemma findCTagsFile_settles (searchPath : path) :
  findCTagsFile minimatch_filter mem fs searchPath <> Pending.
Proof.
  unfold findCTagsFile.
  destruct (stat_isFile fs searchPath) as [isFile|e]; cbn [async then_];
    [|discriminate].
  apply ctagsFinder_settles. lia.
Qed.

End LocatorProperties.

(* ================================================================= *)
(** * The loader always comes to an end *)

Lemma drain_Some_length (l : list jsstring) (line : jsstring)
      (rest : list jsstring) :
  drain l = (Some line, rest) -> length rest < length l.
Proof.
  induction l as [|a l IH]; [discriminate|]. cbn [drain].
  destruct l as [|b l]; [discriminate|].
  destruct (truthy a).
  - intros H. inversion H; subst. simpl. lia.
  - intros H. specialize (IH H). simpl in *. lia.
Qed.

Lemma drain_None_length (l rest : list jsstring) :
  drain l = (None, rest) -> length rest <= length l.
Proof.
  induction l as [|a l IH]; cbn [drain].
  - intros H. inversion H. simpl. lia.
  - destruct l as [|b l]; [intros H; inversion H; simpl; lia|].
    destruct (truthy a); [discriminate|].
    intros H. specialize (IH H). simpl in *. lia.
Qed.

Section Settles.

Variable content : list byte.

Local Abbreviation readable := (readable content).

Lemma readable_set_lines (l : list jsstring) (h : CTags) :
  readable h -> readable (set_lines l h).
Proof. intros [A B]. split; assumption. Qed.

(** A read below [size] returns at least one byte. *)
Lemma read_chunk_progress (h : CTags) :
  readable h -> unread h = true ->
  readable (read_chunk content h)
  /\ size (read_chunk content h) = size h
  /\ fd (read_chunk content h) = fd h
  /\ remaining (read_chunk content h) < remaining h.
Proof.
  intros [HB Hs] U. unfold unread in U. unfold remaining.
  destruct (size h) as [sz|] eqn:Es; [|discriminate].
  apply Nat.ltb_lt in U. specialize (Hs sz eq_refl).
  unfold read_chunk, fs_read.
  set (bytes := firstn (length (readBuffer h))
                       (skipn (workingPos h) content)).
  assert (Lb : length bytes
               = Nat.min (length (readBuffer h))
                         (length content - workingPos h)).
  { unfold bytes. now rewrite length_firstn, length_skipn. }
  destruct (decoder_write (decoder h) _) as [t d'].
  cbn [readBuffer size fd workingPos]. rewrite Es.
  split; [split|split; [reflexivity|split; [reflexivity|]]].
  - cbn [readBuffer]. rewrite length_app, length_skipn. lia.
  - cbn [size]. intros sz' E. inversion E; subst. exact Hs.
  - rewrite Lb. lia.
Qed.

(** A call settles, and unless it returns [null] it uses up a byte of
    the file or a buffered line. *)
Lemma readAtLeastALine_settles :
  forall fuel h,
    readable h -> remaining h <= fuel ->
    exists l h',
      readAtLeastALine fuel content h = Resolved (l, h')
      /\ readable h' /\ size h' = size h /\ fd h' = fd h
      /\ (l = None
          \/ remaining h' < remaining h
          \/ (remaining h' = remaining h
              /\ length (lines h') < length (lines h))).
Proof.
  induction fuel as [|fuel IH]; intros h R F; cbn [readAtLeastALine];
    destruct (drain (lines h)) as [[line|] rest] eqn:D.
  1, 3: exists (Some line), (set_lines rest h);
    split; [reflexivity|]; split; [now apply readable_set_lines|];
    split; [reflexivity|]; split; [reflexivity|];
    right; right; split; [reflexivity|];
    apply (drain_Some_length _ D).
  all: pose proof (drain_None_length _ D) as Dl;
    pose proof (readable_set_lines rest R) as R1;
    destruct (unread (set_lines rest h)) eqn:U.
  - exfalso. unfold unread in U. unfold remaining in F.
    cbn [size workingPos set_lines] in U.
    destruct (size h); [|discriminate]. apply Nat.ltb_lt in U. lia.
  - cbn [lines set_lines]. destruct rest as [|x rest].
    + exists None, (set_lines [] h). repeat split; auto; apply R1.
    + exists (Some x), (set_lines rest (set_lines (x :: rest) h)).
      split; [reflexivity|]. split; [now apply readable_set_lines|].
      split; [reflexivity|]. split; [reflexivity|].
      right. right. split; [reflexivity|]. cbn [lines set_lines].
      simpl in Dl. lia.
  - destruct (read_chunk_progress R1 U) as [R2 [S2 [F2 P2]]].
    assert (E1 : remaining (set_lines rest h) = remaining h) by reflexivity.
    destruct (IH (read_chunk content (set_lines rest h)) R2)
      as [l [h' [Hr [Rh' [Sh' [Fh' Pr]]]]]]; [lia|].
    exists l, h'. split; [exact Hr|]. split; [exact Rh'|].
    split; [rewrite Sh', S2; reflexivity|].
    split; [rewrite Fh', F2; reflexivity|].
    destruct Pr as [Pr|[Pr|[Pr _]]]; [now left|right; left; lia|].
    right. left. lia.
  - cbn [lines set_lines]. destruct rest as [|x rest].
    + exists None, (set_lines [] h). repeat split; auto; apply R1.
    + exists (Some x), (set_lines rest (set_lines (x :: rest) h)).
      split; [reflexivity|]. split; [now apply readable_set_lines|].
      split; [reflexivity|]. split; [reflexivity|].
      right. right. split; [reflexivity|]. cbn [lines set_lines].
      simpl in Dl. lia.
Qed.

Lemma tagReader_settles_measure :
  forall r n h,
    remaining h = r -> length (lines h) = n -> readable h ->
    exists fuel h',
      tagReader fuel content h = Resolved h'
      /\ size h' = size h /\ fd h' = fd h.
Proof.
  induction r as [r IHr] using lt_wf_ind.
  induction n as [n IHn] using lt_wf_ind.
  intros h Hr Hn R.
  destruct (@readAtLeastALine_settles (remaining h) h R (le_n _))
    as [l [h1 [E [R1 [S1 [F1 Pr]]]]]].
  destruct (is_pseudo l) eqn:P.
  - set (h2 := set_info
                 (pseudo_switch
                    (_parseTagLine match l with Some l0 => l0 | None => [] end)
                    (info h1)) h1).
    assert (R2 : readable h2) by (destruct R1; split; assumption).
    assert (Ex : exists fuel h',
               tagReader fuel content h2 = Resolved h'
               /\ size h' = size h2 /\ fd h' = fd h2).
    { destruct Pr as [->|[Pr|[Pr1 Pr2]]]; [discriminate| |].
      - apply (IHr (remaining h1)) with (n := length (lines h1)); auto.
        lia.
      - apply (IHn (length (lines h1))); auto; try lia.
        change (remaining h2) with (remaining h1). lia. }
    destruct Ex as [fuel [h' [Et [Sh Fh]]]].
    exists (S fuel), h'. cbn [tagReader]. unfold _readTagLine.
    rewrite E. cbn [then_]. rewrite P. fold h2.
    split; [exact Et|]. split; [rewrite Sh|rewrite Fh]; assumption.
  - exists 1, h1. cbn [tagReader]. unfold _readTagLine.
    rewrite E. cbn [then_]. rewrite P. auto.
Qed.

Lemma tagReader_more_fuel :
  forall fuel h h',
    tagReader fuel content h = Resolved h' ->
    forall fuel', fuel <= fuel' -> tagReader fuel' content h = Resolved h'.
Proof.
  induction fuel as [|fuel IH]; intros h h' H fuel' F; [discriminate|].
  destruct fuel' as [|fuel']; [lia|].
  cbn [tagReader] in *.
  destruct (_readTagLine content h) as [[l h1]| |]; cbn [then_] in *;
    try discriminate.
  destruct (is_pseudo l); [|exact H].
  apply (IH _ _ H). lia.
Qed.

End Settles.


(* ================================================================= *)
(** * Claims about the locator *)

(** C7: the search goes outward one directory at a time.  Once the
    [k] directories below it have been listed without a match that
    opens, the [k]-th directory above the start is listed; its entries
    matching the pattern are kept and sorted ascending; the first of
    them that opens gives the handle returned, however many ancestors
    would match; when none opens the search moves to the parent, and
    at the root it returns not found.  [findCTagsFile] starts in the
    resolved path, or in its directory when it is a file; [TAGS] sorts
    before [tags]. *)
Theorem C7_search_order (minimatch_filter : jsstring -> bool)
        (mem : nat -> byte) (fs : FileSystem) (start : path) (k : nat)
        (files : list jsstring) :
  let dir := ancestor k start in
  let matched := sort (filter minimatch_filter files) in
  k <= length start ->
  (forall j, j < k -> quiet minimatch_filter fs (ancestor j start)) ->
  readdir fs dir = Ok files ->
  StronglySorted ascending matched
  /\ (forall x, In x matched <-> In x files /\ minimatch_filter x = true)
  /\ (forall before m after fd,
        matched = before ++ m :: after ->
        (forall x, In x before -> exists e, open fs (join dir x) = Err e) ->
        open fs (join dir m) = Ok fd ->
        ctagsFinder minimatch_filter mem fs (length start) start
        = Resolved (Some (new_CTags mem (join dir m) fd)))
  /\ ((forall x, In x matched -> exists e, open fs (join dir x) = Err e) ->
      ctagsFinder minimatch_filter mem fs (length start) start
      = match dir with
        | [] => Resolved None
        | _ :: _ => ctagsFinder minimatch_filter mem fs
                                (length (dirname dir)) (dirname dir)
        end)
  /\ (forall p isFile,
        stat_isFile fs p = Ok isFile ->
        start = (if isFile then dirname p else p) ->
        findCTagsFile minimatch_filter mem fs p
        = ctagsFinder minimatch_filter mem fs (length start) start)
  /\ sort [lit "tags"; lit "TAGS"] = [lit "TAGS"; lit "tags"].
Proof.
  intros dir matched Hk Hq Hr.
  pose proof (@ctagsFinder_ascend minimatch_filter mem fs start k Hk Hq) as A. fold dir in A.
  split; [apply sort_sorted|].
  split; [apply (@matched_In minimatch_filter)|].
  split; [|split; [|split; [|reflexivity]]].
  - intros before m after fd Hm Hb Ho. rewrite A.
    now apply (@ctagsFinder_found minimatch_filter mem fs _ dir files
                                  before m after fd).
  - intros Hn. rewrite A, (@ctagsFinder_none minimatch_filter mem fs _ dir files Hr Hn).
    pose proof (dirname_length dir) as L.
    destruct dir as [|a d] eqn:E; [reflexivity|].
    simpl length at 1. rewrite L. simpl. now rewrite Nat.sub_0_r.
  - intros p isFile Hs ->. unfold findCTagsFile. rewrite Hs. reflexivity.
Qed.

Lemma tree_fs_quiet_below_a (j : nat) :
  j < 2 -> quiet tags_filter tree_fs (ancestor j [lit "a"; lit "b"; lit "c"]).
Proof.
  intros Hj. destruct j as [|[|j]]; [| |lia].
  - exists [lit "main.c"]. split; [reflexivity|].
    intros x [<-|[]]. discriminate.
  - exists [lit "c"; lit "tags"]. split; [reflexivity|].
    intros x [<-|[<-|[]]]; [discriminate|]. intros _. now exists EACCES.
Qed.

Lemma C7_search_order_witness :
  ctagsFinder tags_filter zero_mem tree_fs 3 [lit "a"; lit "b"; lit "c"]
  = Resolved (Some (new_CTags zero_mem [lit "a"; lit "TAGS"] 3))
  /\ findCTagsFile tags_filter zero_mem tree_fs
                   [lit "a"; lit "b"; lit "c"; lit "main.c"]
     = ctagsFinder tags_filter zero_mem tree_fs 3 [lit "a"; lit "b"; lit "c"].
Proof.
  assert (Hk : 2 <= length [lit "a"; lit "b"; lit "c"]) by (simpl; lia).
  assert (Hr : readdir tree_fs (ancestor 2 [lit "a"; lit "b"; lit "c"])
               = Ok [lit "tags"; lit "b"; lit "TAGS"]) by reflexivity.
  destruct (@C7_search_order tags_filter zero_mem tree_fs
              [lit "a"; lit "b"; lit "c"] 2 _ Hk tree_fs_quiet_below_a Hr)
    as [_ [_ [F [_ [S _]]]]].
  split.
  - apply (F [] (lit "TAGS") [lit "tags"] 3).
    + reflexivity.
    + intros x [].
    + reflexivity.
  - apply (S [lit "a"; lit "b"; lit "c"; lit "main.c"] true); reflexivity.
Defined.

(** C8: a candidate that cannot be opened is passed over: the [catch]
    turns its failure into no result, the rest of the candidates of
    the directory are tried, and the first of them that opens gives
    the handle returned, by the reduction, by the search and by
    [findCTagsFile]; when none opens the ancestors are tried.  A
    directory that cannot be listed ends the search with the error of
    the listing, which is what the caller of [findCTagsFile]
    receives. *)
Theorem C8_open_failure_passed_over_listing_failure_propagated
        (minimatch_filter : jsstring -> bool) (mem : nat -> byte)
        (fs : FileSystem) (start : path) (k : nat) :
  k <= length start ->
  (forall j, j < k -> quiet minimatch_filter fs (ancestor j start)) ->
  (forall dir m e,
      open fs (join dir m) = Err e ->
      reducer mem fs dir None m = Resolved None)
  /\ (forall dir m rest e,
        open fs (join dir m) = Err e ->
        Promise_reduce (reducer mem fs dir) (m :: rest) None
        = Promise_reduce (reducer mem fs dir) rest None)
  /\ (forall dir before m after fd,
        (forall x, In x before -> exists e, open fs (join dir x) = Err e) ->
        open fs (join dir m) = Ok fd ->
        Promise_reduce (reducer mem fs dir) (before ++ m :: after) None
        = Resolved (Some (new_CTags mem (join dir m) fd)))
  /\ ctagsFinder minimatch_filter mem fs (length start) start
     = ctagsFinder minimatch_filter mem fs (length (ancestor k start))
                   (ancestor k start)
  /\ (forall files before m after fd,
        readdir fs (ancestor k start) = Ok files ->
        sort (filter minimatch_filter files) = before ++ m :: after ->
        (forall x, In x before ->
                   exists e, open fs (join (ancestor k start) x) = Err e) ->
        open fs (join (ancestor k start) m) = Ok fd ->
        ctagsFinder minimatch_filter mem fs (length start) start
        = Resolved (Some (new_CTags mem (join (ancestor k start) m) fd))
        /\ forall p isFile,
            stat_isFile fs p = Ok isFile ->
            start = (if isFile then dirname p else p) ->
            findCTagsFile minimatch_filter mem fs p
            = Resolved (Some (new_CTags mem (join (ancestor k start) m) fd)))
  /\ (forall e,
        readdir fs (ancestor k start) = Err e ->
        ctagsFinder minimatch_filter mem fs (length start) start
        = Rejected e
        /\ forall p isFile,
            stat_isFile fs p = Ok isFile ->
            start = (if isFile then dirname p else p) ->
            findCTagsFile minimatch_filter mem fs p = Rejected e).
Proof.
  intros Hk Hq.
  pose proof (@ctagsFinder_ascend minimatch_filter mem fs start k Hk Hq) as A.
  split; [intros dir m e He; unfold reducer; now rewrite He|].
  split; [intros dir m rest e; apply (@reduce_failed mem fs)|].
  split; [intros dir before m after fd; apply (@reduce_first mem fs)|].
  split; [exact A|].
  split.
  - intros files before m after fd Hr Hs Hb Hm.
    assert (R : ctagsFinder minimatch_filter mem fs (length start) start
                = Resolved (Some (new_CTags mem
                                    (join (ancestor k start) m) fd))).
    { rewrite A.
      now apply (@ctagsFinder_found minimatch_filter mem fs _
                   (ancestor k start) files before m after fd). }
    split; [exact R|].
    intros p isFile Hst Hp. unfold findCTagsFile. rewrite Hst.
    cbn [async then_]. rewrite <- Hp. exact R.
  - intros e He.
    assert (R : ctagsFinder minimatch_filter mem fs (length start) start
                = Rejected e).
    { rewrite A. now apply (@ctagsFinder_rejected minimatch_filter mem fs). }
    split; [exact R|].
    intros p isFile Hs Hp. unfold findCTagsFile. rewrite Hs.
    cbn [async then_]. rewrite <- Hp. exact R.
Qed.

Lemma locked_fs_quiet_below_a (j : nat) :
  j < 2 ->
  quiet tags_filter locked_fs (ancestor j [lit "a"; lit "b"; lit "c"]).
Proof.
  intros Hj. destruct j as [|[|j]]; [| |lia].
  - exists [lit "main.c"]. split; [reflexivity|].
    intros x [<-|[]]. discriminate.
  - exists [lit "c"; lit "tags"]. split; [reflexivity|].
    intros x [<-|[<-|[]]]; [discriminate|]. intros _. now exists EACCES.
Qed.

Lemma guarded_fs_quiet_below_a (j : nat) :
  j < 2 ->
  quiet tags_filter guarded_fs (ancestor j [lit "a"; lit "b"; lit "c"]).
Proof.
  intros Hj. destruct j as [|[|j]]; [| |lia].
  - exists [lit "main.c"]. split; [reflexivity|].
    intros x [<-|[]]. discriminate.
  - exists [lit "c"; lit "tags"]. split; [reflexivity|].
    intros x [<-|[<-|[]]]; [discriminate|]. intros _. now exists EACCES.
Qed.

Lemma C8_open_failure_passed_over_listing_failure_propagated_witness :
  findCTagsFile tags_filter zero_mem guarded_fs [lit "a"; lit "b"; lit "c"]
  = Resolved (Some (new_CTags zero_mem [lit "a"; lit "tags"] 4))
  /\ findCTagsFile tags_filter zero_mem locked_fs [lit "a"; lit "b"; lit "c"]
     = Rejected EACCES.
Proof.
  assert (Hk : 2 <= length [lit "a"; lit "b"; lit "c"]) by (simpl; lia).
  split.
  - destruct (@C8_open_failure_passed_over_listing_failure_propagated
                tags_filter zero_mem guarded_fs
                [lit "a"; lit "b"; lit "c"] 2 Hk guarded_fs_quiet_below_a)
      as [_ [_ [_ [_ [F _]]]]].
    destruct (F [lit "tags"; lit "b"; lit "TAGS"] [lit "TAGS"] (lit "tags")
                [] 4) as [_ Q].
    + reflexivity.
    + reflexivity.
    + intros x [<-|[]]. now exists EACCES.
    + reflexivity.
    + apply (Q [lit "a"; lit "b"; lit "c"] false); reflexivity.
  - destruct (@C8_open_failure_passed_over_listing_failure_propagated
                tags_filter zero_mem locked_fs
                [lit "a"; lit "b"; lit "c"] 2 Hk locked_fs_quiet_below_a)
      as [_ [_ [_ [_ [_ P]]]]].
    destruct (P EACCES eq_refl) as [_ Q].
    apply (Q [lit "a"; lit "b"; lit "c"] false); reflexivity.
Defined.




(* ================================================================= *)
(** * Further properties of the parser *)

Lemma jsstring_eqb_eq (a b : jsstring) : jsstring_eqb a b = true <-> a = b.
Proof.
  revert b. induction a as [|x a IH]; intros [|y b]; cbn [jsstring_eqb];
    try (split; [discriminate|intros H; discriminate H]); [tauto|].
  rewrite andb_true_iff, char_eqb_eq, IH. split.
  - intros [-> ->]. reflexivity.
  - intros H. inversion H. auto.
Qed.

Lemma indexOf_scan_char_first (c : char) (x y : jsstring) (i : nat) :
  ~ In c x -> indexOf_scan [c] (x ++ c :: y) i = Some (i + length x).
Proof.
  revert i. induction x as [|a x IH]; intros i H.
  - cbn [app indexOf_scan prefixb]. rewrite char_eqb_refl. cbn.
    f_equal. lia.
  - cbn [app indexOf_scan].
    destruct (prefixb [c] (a :: x ++ c :: y)) eqn:E.
    + apply prefixb_single in E. destruct E as [s' E]. inversion E; subst.
      elim H. now left.
    + rewrite IH by (intros Hin; apply H; now right). f_equal. simpl. lia.
Qed.

Lemma indexOf_scan_char_absent (c : char) (s : jsstring) (i : nat) :
  ~ In c s -> indexOf_scan [c] s i = None.
Proof.
  revert i. induction s as [|a s IH]; intros i H; [reflexivity|].
  cbn [indexOf_scan]. destruct (prefixb [c] (a :: s)) eqn:E.
  - apply prefixb_single in E. destruct E as [s' E]. inversion E; subst.
    elim H. now left.
  - apply IH. intros Hin. apply H. now right.
Qed.

Lemma skipn_app_exact (A : Type) (x y : list A) :
  skipn (length x) (x ++ y) = y.
Proof. induction x as [|a x IH]; [reflexivity|exact IH]. Qed.

Lemma firstn_app_exact (A : Type) (x y : list A) :
  firstn (length x) (x ++ y) = x.
Proof. induction x as [|a x IH]; [reflexivity|]. simpl. now rewrite IH. Qed.

(** A search that must start with a match: [str.indexOf(needle, pos)
    === pos] holds exactly when [needle] is found at [pos]. *)
Lemma indexOf_here (str needle : jsstring) (pos : nat) :
  needle <> [] ->
  match indexOf str needle pos with
  | Some i => i =? pos
  | None => false
  end = prefixb needle (skipn pos str).
Proof.
  intros Hn. unfold indexOf. destruct (skipn pos str) as [|c s].
  - destruct needle; [congruence|reflexivity].
  - cbn [indexOf_scan]. destruct (prefixb needle (c :: s)) eqn:E.
    + apply Nat.eqb_refl.
    + destruct (indexOf_scan needle s (S pos)) as [i|] eqn:F;
        [|reflexivity].
      apply indexOf_scan_lower in F. apply Nat.eqb_neq. lia.
Qed.

Lemma parseTagLine_finish_eq (pat : jsstring) (pos : nat) (e : TagEntry) :
  parseTagLine_finish pat pos e
  = set_valid true
      (if prefixb [SEMICOLON; DQUOTE] (skipn pos pat)
       then _parseExtensionFields (skipn (pos + 2) pat) e
       else e).
Proof.
  unfold parseTagLine_finish, substr_from.
  rewrite <- (@indexOf_here pat [SEMICOLON; DQUOTE] pos) by discriminate.
  destruct (indexOf pat [SEMICOLON; DQUOTE] pos); reflexivity.
Qed.

Lemma skipn_length_plus (A : Type) (x y : list A) (k : nat) :
  skipn (length x + k) (x ++ y) = skipn k y.
Proof. induction x as [|a x IH]; [reflexivity|exact IH]. Qed.

(** A line with its two tabs is handled as name, file and address. *)
Lemma parseTagLine_regions (n f rest : jsstring) :
  ~ In TAB n -> ~ In TAB f ->
  _parseTagLine (n ++ TAB :: f ++ TAB :: rest)
  = parse_address (partial_entry n f) rest.
Proof.
  intros Hn Hf. set (line := n ++ TAB :: f ++ TAB :: rest).
  assert (S1 : skipn (length n + 1) line = f ++ TAB :: rest).
  { unfold line. now rewrite skipn_length_plus. }
  assert (A1 : indexOf line [TAB] 0 = Some (length n)).
  { unfold indexOf, line. cbn [skipn].
    now rewrite (@indexOf_scan_char_first TAB n _ 0 Hn). }
  assert (A2 : indexOf line [TAB] (length n + 1)
               = Some (length n + 1 + length f)).
  { unfold indexOf. rewrite S1.
    now rewrite (@indexOf_scan_char_first TAB f _ _ Hf). }
  assert (A3 : substr line 0 (length n) = n).
  { unfold substr, line. cbn [skipn]. apply firstn_app_exact. }
  assert (A4 : substr line (length n + 1)
                      (length n + 1 + length f - length n - 1) = f).
  { unfold substr. rewrite S1.
    replace (length n + 1 + length f - length n - 1) with (length f) by lia.
    apply firstn_app_exact. }
  assert (A5 : substr_from line (length n + 1 + length f + 1) = rest).
  { unfold substr_from.
    replace (length n + 1 + length f + 1)
      with (length f + 1 + (length n + 1)) by lia.
    rewrite <- skipn_skipn, S1, skipn_length_plus. reflexivity. }
  unfold _parseTagLine. rewrite A1, A2, A3, A4, A5. reflexivity.
Qed.

(** ** What [_parseExtensionFields] leaves alone *)

Lemma set_field_frame (key value : jsstring) (e : TagEntry) :
  name (set_field key value e) = name e
  /\ file (set_field key value e) = file e
  /\ valid (set_field key value e) = valid e
  /\ pattern (address (set_field key value e)) = pattern (address e).
Proof. unfold set_field. destruct (jsstring_eqb _ _); auto. Qed.

Lemma parseExtensionFields_body_frame (str : jsstring) (pos : nat)
      (e : TagEntry) :
  let e' := snd (parseExtensionFields_body str pos e) in
  name e' = name e /\ file e' = file e /\ valid e' = valid e
  /\ pattern (address e') = pattern (address e).
Proof.
  unfold parseExtensionFields_body. cbn [snd].
  repeat match goal with
         | |- context [if ?b then _ else _] => destruct b
         end; try (repeat split; reflexivity).
  apply set_field_frame.
Qed.

Lemma parseExtensionFields_loop_frame (str : jsstring) :
  forall fuel pos e,
    let e' := parseExtensionFields_loop fuel str pos e in
    name e' = name e /\ file e' = file e /\ valid e' = valid e
    /\ pattern (address e') = pattern (address e).
Proof.
  induction fuel as [|fuel IH]; intros pos e;
    cbn [parseExtensionFields_loop]; [auto|].
  destruct (pos <? length str); [|auto].
  pose proof (parseExtensionFields_body_frame str pos e) as P.
  destruct (parseExtensionFields_body str pos e) as [pos' e'].
  cbn [snd] in P. destruct (IH pos' e') as [A [B [C D]]].
  cbv zeta. rewrite A, B, C, D. exact P.
Qed.

(** ** Addresses *)

Lemma scan_loop_no_delimiter (delimiter : char) (body : jsstring) :
  ~ In delimiter body ->
  forall pos bsc parsed,
    fst (scan_loop delimiter body pos bsc parsed) = pos + length body.
Proof.
  induction body as [|c body IH]; intros H pos bsc parsed;
    cbn [scan_loop length fst]; [lia|].
  assert (Hc : char_eqb c delimiter = false).
  { apply char_eqb_neq. intros ->. apply H. now left. }
  assert (Hb : ~ In delimiter body) by (intros Hin; apply H; now right).
  unfold scan_body. rewrite Hc.
  destruct (char_eqb c BACKSLASH); [rewrite IH by exact Hb; lia|].
  destruct (0 <? bsc); rewrite IH by exact Hb; lia.
Qed.

Lemma isdigit_range (c : char) :
  isdigit c = true <-> (48 <= c <= 57)%N.
Proof.
  unfold isdigit. rewrite andb_true_iff, !N.leb_le. tauto.
Qed.

Lemma isdigit_plain (c : char) :
  isdigit c = true ->
  isStrWhiteSpaceChar c = false
  /\ char_eqb c 45%N = false /\ char_eqb c 43%N = false.
Proof.
  intros H. apply isdigit_range in H.
  unfold isStrWhiteSpaceChar, char_eqb.
  repeat (match goal with
          | |- context [(?a <=? ?b)%N] => destruct (N.leb_spec a b)
          | |- context [(?a =? ?b)%N] => destruct (N.eqb_spec a b)
          end; try lia).
  all: repeat split; reflexivity.
Qed.

Lemma takeWhile_run (p : char -> bool) (run rest : jsstring) :
  Forall (fun c => p c = true) run ->
  match rest with c :: _ => p c = false | [] => True end ->
  takeWhile p (run ++ rest) = run
  /\ countWhile p (run ++ rest) = length run.
Proof.
  intros Hr Hs. induction Hr as [|c run Hc _ IH]; cbn [app].
  - destruct rest as [|c rest]; [now split|].
    cbn [takeWhile countWhile]. rewrite Hs. now split.
  - cbn [takeWhile countWhile length]. rewrite Hc.
    destruct IH as [-> ->]. now split.
Qed.

(** [parseInt] of a text that starts with a run of digits is the value
    of the run. *)
Lemma parseInt_digits (digits rest : jsstring) :
  digits <> [] ->
  Forall (fun c => isdigit c = true) digits ->
  match rest with c :: _ => isdigit c = false | [] => True end ->
  parseInt (digits ++ rest) = Num (digitsValue 0 digits).
Proof.
  intros Hne Hd Hr. destruct digits as [|c ds]; [congruence|].
  pose proof (Forall_inv Hd) as Hc.
  destruct (isdigit_plain _ Hc) as [W [M P]].
  destruct (takeWhile_run isdigit rest Hd Hr) as [T _].
  unfold parseInt. cbn [app dropWhile]. rewrite W, M, P.
  change (c :: ds ++ rest) with ((c :: ds) ++ rest). rewrite T.
  f_equal. destruct (digitsValue 0 (c :: ds)); reflexivity.
Qed.

(** ** The parts of an extension text *)

Lemma takeWhile_dropWhile (p : char -> bool) (s : jsstring) :
  takeWhile p s ++ dropWhile p s = s.
Proof.
  induction s as [|c s IH]; [reflexivity|]. cbn [takeWhile dropWhile].
  destruct (p c); [|reflexivity]. cbn [app]. now rewrite IH.
Qed.

Lemma takeWhile_Forall (p : char -> bool) (s : jsstring) :
  Forall (fun c => p c = true) (takeWhile p s).
Proof.
  induction s as [|c s IH]; cbn [takeWhile]; [constructor|].
  destruct (p c) eqn:E; constructor; assumption.
Qed.

Lemma dropWhile_head (p : char -> bool) (s : jsstring) :
  match dropWhile p s with c :: _ => p c = false | [] => True end.
Proof.
  induction s as [|c s IH]; cbn [dropWhile]; [exact I|].
  destruct (p c) eqn:E; [exact IH|exact E].
Qed.

Lemma countWhile_takeWhile (p : char -> bool) (s : jsstring) :
  countWhile p s = length (takeWhile p s).
Proof.
  induction s as [|c s IH]; [reflexivity|]. cbn [countWhile takeWhile].
  destruct (p c); [|reflexivity]. simpl. now rewrite IH.
Qed.

Lemma skipn_countWhile (p : char -> bool) (s : jsstring) :
  skipn (countWhile p s) s = dropWhile p s.
Proof.
  induction s as [|c s IH]; [reflexivity|]. cbn [countWhile dropWhile].
  destruct (p c); [exact IH|reflexivity].
Qed.

Lemma notTab_not_In (part : jsstring) :
  Forall (fun c => notTab c = true) part -> ~ In TAB part.
Proof.
  intros H Hin. rewrite Forall_forall in H. specialize (H _ Hin).
  unfold notTab, isTab in H. rewrite char_eqb_refl in H. discriminate.
Qed.

Lemma dropWhile_notTab_cases (s : jsstring) :
  dropWhile notTab s = [] \/ exists r, dropWhile notTab s = TAB :: r.
Proof.
  pose proof (dropWhile_head notTab s) as H.
  destruct (dropWhile notTab s) as [|c r]; [now left|right].
  unfold notTab, isTab in H. apply negb_false_iff, char_eqb_eq in H.
  subst. now exists r.
Qed.

Lemma split_tabs_from_run (part rest cur : jsstring) :
  Forall (fun c => notTab c = true) part ->
  split_tabs_from cur (part ++ rest) = split_tabs_from (cur ++ part) rest.
Proof.
  intros H. revert cur. induction H as [|c part Hc _ IH]; intros cur.
  - now rewrite app_nil_r.
  - cbn [app split_tabs_from]. unfold notTab in Hc.
    apply negb_true_iff in Hc. rewrite Hc, IH, <- app_assoc. reflexivity.
Qed.

Lemma split_tabs_from_tabs (tabs rest : jsstring) :
  Forall (fun c => isTab c = true) tabs ->
  split_tabs_from [] (tabs ++ rest)
  = map (fun _ => []) tabs ++ split_tabs_from [] rest.
Proof.
  intros H. induction H as [|c tabs Hc _ IH]; [reflexivity|].
  cbn [app split_tabs_from map]. now rewrite Hc, IH.
Qed.

Lemma split_tabs_from_not_nil (cur s : jsstring) :
  split_tabs_from cur s <> [].
Proof.
  revert cur. induction s as [|c s IH]; intros cur; cbn [split_tabs_from];
    [discriminate|]. destruct (isTab c); [discriminate|apply IH].
Qed.

Lemma surfaced_blanks (tabs : jsstring) (l : list jsstring) :
  l <> [] -> surfaced (map (fun _ => []) tabs ++ l) = surfaced l.
Proof.
  intros Hl. induction tabs as [|c tabs IH]; [reflexivity|].
  cbn [map app]. rewrite surfaced_cons; [exact IH|].
  destruct (map (fun _ => []) tabs); [exact Hl|discriminate].
Qed.

(** The first part the loop handles and the parts of what follows. *)
Lemma field_parts_step (s : jsstring) :
  s <> [] ->
  field_parts s
  = takeWhile notTab (dropWhile isTab s)
      :: field_parts (dropWhile notTab (dropWhile isTab s)).
Proof.
  intros Hs.
  pose proof (dropWhile_head isTab s) as Hh.
  remember (dropWhile isTab s) as s1 eqn:Hs1.
  pose proof (takeWhile_dropWhile notTab s1) as T.
  pose proof (takeWhile_Forall notTab s1) as Fp.
  remember (takeWhile notTab s1) as part eqn:Hp.
  remember (dropWhile notTab s1) as rest eqn:Hr.
  assert (E : s = takeWhile isTab s ++ part ++ rest).
  { rewrite T, Hs1. now rewrite takeWhile_dropWhile. }
  assert (F : field_parts s = surfaced (split_tabs_from [] s))
    by (destruct s; [congruence|reflexivity]).
  rewrite F, E at 1.
  rewrite split_tabs_from_tabs by apply takeWhile_Forall.
  rewrite surfaced_blanks by apply split_tabs_from_not_nil.
  rewrite split_tabs_from_run by exact Fp. cbn [app].
  destruct (dropWhile_notTab_cases s1) as [R|[r R]]; rewrite <- Hr in R;
    rewrite R.
  - reflexivity.
  - cbn [split_tabs_from]. unfold isTab at 1. rewrite char_eqb_refl.
    destruct part as [|c part'].
    + exfalso. rewrite R in T. cbn [app] in T. rewrite <- T in Hh.
      unfold isTab in Hh. rewrite char_eqb_refl in Hh. discriminate.
    + rewrite surfaced_cons by apply split_tabs_from_not_nil.
      cbn [truthy app field_parts split_tabs_from].
      unfold isTab at 1. rewrite char_eqb_refl.
      rewrite surfaced_cons by apply split_tabs_from_not_nil.
      reflexivity.
Qed.

Lemma indexOf_scan_char_app (c : char) (x y : jsstring) (i : nat) :
  ~ In c x ->
  indexOf_scan [c] (x ++ y) i = indexOf_scan [c] y (i + length x).
Proof.
  revert i. induction x as [|a x IH]; intros i H.
  - cbn [app length]. now rewrite Nat.add_0_r.
  - cbn [app indexOf_scan].
    destruct (prefixb [c] (a :: x ++ y)) eqn:E.
    + apply prefixb_single in E. destruct E as [s' E]. inversion E; subst.
      elim H. now left.
    + rewrite IH by (intros Hin; apply H; now right).
      f_equal. simpl. lia.
Qed.

(** One turn of the loop, in terms of the text from [pos] on: the tabs
    in front are skipped, the part up to the next tab is applied, and
    the loop goes on at that tab. *)
Lemma parseExtensionFields_body_part (str : jsstring) (pos : nat)
      (e : TagEntry) :
  pos <= length str ->
  let s1 := dropWhile isTab (skipn pos str) in
  let pos' := pos + countWhile isTab (skipn pos str)
              + length (takeWhile notTab s1) in
  parseExtensionFields_body str pos e
  = (pos', apply_part (takeWhile notTab s1) e)
  /\ skipn pos' str = dropWhile notTab s1.
Proof.
  intros Hpos. cbv zeta.
  set (k := countWhile isTab (skipn pos str)).
  set (p1 := pos + k).
  remember (dropWhile isTab (skipn pos str)) as s1 eqn:Hs1.
  assert (H1 : skipn p1 str = s1).
  { unfold p1, k. rewrite Nat.add_comm, <- skipn_skipn, Hs1.
    apply skipn_countWhile. }
  pose proof (takeWhile_dropWhile notTab s1) as T.
  pose proof (notTab_not_In (takeWhile_Forall notTab s1)) as Np.
  remember (takeWhile notTab s1) as part eqn:Hp.
  remember (dropWhile notTab s1) as rest eqn:Hr.
  assert (Hlen : length str = p1 + length part + length rest).
  { pose proof (countWhile_length isTab (skipn pos str)) as Hk. fold k in Hk.
    rewrite length_skipn in Hk.
    assert (L : length (skipn p1 str) = length str - p1)
      by apply length_skipn.
    rewrite H1, <- T, length_app in L. unfold p1 in *. lia. }
  assert (Hrest : rest = [] \/ exists r, rest = TAB :: r).
  { rewrite Hr. apply dropWhile_notTab_cases. }
  assert (Hskip : skipn (p1 + length part) str = rest).
  { rewrite Nat.add_comm, <- skipn_skipn, H1, <- T.
    apply skipn_app_exact. }
  split; [|exact Hskip].
  assert (Hsplit : match indexOf str [TAB] p1 with
                   | Some i => i
                   | None => length str
                   end = p1 + length part).
  { unfold indexOf. rewrite H1, <- T, (@indexOf_scan_char_app _ _ _ _ Np).
    destruct Hrest as [->|[r ->]].
    - cbn [indexOf_scan]. rewrite Hlen. simpl. lia.
    - cbn [indexOf_scan prefixb]. now rewrite char_eqb_refl. }
  unfold parseExtensionFields_body. fold k. fold p1. rewrite Hsplit.
  f_equal. unfold apply_part, indexOf.
  change (skipn 0 part) with part. rewrite H1, <- T.
  destruct (indexOf_scan [COLON] part 0) as [i|] eqn:Ec.
  - apply indexOf_scan_char_Some in Ec.
    destruct Ec as [j [Ej [Ed Nc]]]. cbn [Nat.add] in Ej. subst j.
    set (x := firstn i part) in *. set (y := skipn (S i) part) in *.
    assert (Li : length x = i).
    { unfold x. rewrite length_firstn. apply Nat.min_l.
      assert (L : length part = length (x ++ COLON :: y)) by now rewrite <- Ed.
      rewrite length_app in L. unfold x in L. rewrite length_firstn in L.
      simpl in L. lia. }
    assert (Lp : length part = i + 1 + length y).
    { rewrite Ed at 1. rewrite length_app, Li. simpl. lia. }
    assert (C : indexOf_scan [COLON] (part ++ rest) p1 = Some (p1 + i)).
    { rewrite Ed at 1. rewrite <- app_assoc. cbn [app].
      now rewrite (@indexOf_scan_char_first _ _ _ _ Nc), Li. }
    rewrite C.
    replace (p1 + length part <? p1 + i) with false
      by (symmetry; apply Nat.ltb_ge; lia).
    replace (p1 + i =? p1 + length part) with false
      by (symmetry; apply Nat.eqb_neq; lia).
    assert (K : substr str p1 (p1 + i - p1) = x).
    { unfold substr. rewrite H1, <- T. replace (p1 + i - p1) with i by lia.
      rewrite Ed at 1. rewrite <- app_assoc, <- Li. apply firstn_app_exact. }
    assert (V : substr str (p1 + i + 1) (p1 + length part - (p1 + i) - 1)
                = skipn (i + 1) part).
    { unfold substr.
      replace (p1 + i + 1) with (i + 1 + p1) by lia.
      rewrite <- skipn_skipn, H1, <- T.
      replace (p1 + length part - (p1 + i) - 1) with (length y) by lia.
      rewrite Ed at 1. rewrite <- app_assoc.
      replace (i + 1) with (length (x ++ [COLON]))
        by (rewrite length_app, Li; reflexivity).
      replace (x ++ (COLON :: y) ++ rest)
        with ((x ++ [COLON]) ++ y ++ rest)
        by (rewrite <- app_assoc; reflexivity).
      rewrite skipn_app_exact, firstn_app_exact.
      rewrite Ed at 1.
      replace (x ++ COLON :: y) with ((x ++ [COLON]) ++ y)
        by (rewrite <- app_assoc; reflexivity).
      now rewrite skipn_app_exact. }
    rewrite K, V. reflexivity.
  - assert (Nc : ~ In COLON part)
      by (eapply indexOf_scan_char_None; exact Ec).
    rewrite (@indexOf_scan_char_app _ _ _ _ Nc).
    assert (P : match
                  match indexOf_scan [COLON] rest (p1 + length part) with
                  | Some i => if p1 + length part <? i
                              then p1 + length part else i
                  | None => p1 + length part
                  end =? p1 + length part
                with true => true | false => false end = true).
    { destruct Hrest as [->|[r ->]]; cbn [indexOf_scan prefixb].
      - now rewrite Nat.eqb_refl.
      - change (char_eqb COLON TAB) with false. cbn [andb].
        destruct (indexOf_scan [COLON] r (S (p1 + length part)))
          as [i|] eqn:Ei; [|now rewrite Nat.eqb_refl].
        apply indexOf_scan_lower in Ei.
        replace (p1 + length part <? i) with true
          by (symmetry; apply Nat.ltb_lt; lia).
        now rewrite Nat.eqb_refl. }
    destruct (_ =? _); [|discriminate].
    f_equal. f_equal. unfold substr. rewrite H1, <- T.
    replace (p1 + length part - p1) with (length part) by lia.
    apply firstn_app_exact.
Qed.

Lemma parseExtensionFields_loop_parts (str : jsstring) :
  forall fuel pos e,
    pos <= length str -> length str - pos <= fuel ->
    parseExtensionFields_loop fuel str pos e
    = fold_left (fun e part => apply_part part e)
                (field_parts (skipn pos str)) e.
Proof.
  induction fuel as [|fuel IH]; intros pos e Hp Hf;
    cbn [parseExtensionFields_loop].
  - replace pos with (length str) by lia. now rewrite skipn_all.
  - destruct (pos <? length str) eqn:E.
    + apply Nat.ltb_lt in E.
      pose proof (parseExtensionFields_body_progress str e E) as P.
      destruct (parseExtensionFields_body_part str e Hp) as [B S].
      rewrite B in *. cbn [fst] in P.
      rewrite IH by lia. rewrite S.
      rewrite (@field_parts_step (skipn pos str)); [reflexivity|].
      intros N. apply (f_equal (@length char)) in N.
      rewrite length_skipn in N. simpl in N. lia.
    + apply Nat.ltb_ge in E. replace pos with (length str) by lia.
      now rewrite skipn_all.
Qed.

Lemma parseExtensionFields_parts (str : jsstring) (e : TagEntry) :
  _parseExtensionFields str e
  = fold_left (fun e part => apply_part part e) (field_parts str) e.
Proof.
  unfold _parseExtensionFields.
  rewrite parseExtensionFields_loop_parts; [reflexivity|lia|lia].
Qed.

(** ** The keys of [fields] *)

Lemma assoc_set_In (key value k : jsstring)
      (m : list (jsstring * jsstring)) :
  In k (map fst (assoc_set key value m)) -> k = key \/ In k (map fst m).
Proof.
  induction m as [|[k0 v0] m IH]; cbn [assoc_set map fst In].
  - intros [<-|[]]. now left.
  - destruct (jsstring_eqb k0 key); cbn [map fst In]; [tauto|].
    intros [<-|H]; [tauto|]. destruct (IH H); tauto.
Qed.

Lemma assoc_set_NoDup (key value : jsstring)
      (m : list (jsstring * jsstring)) :
  NoDup (map fst m) -> NoDup (map fst (assoc_set key value m)).
Proof.
  induction m as [|[k0 v0] m IH]; cbn [assoc_set map fst]; intros H.
  - repeat constructor. intros [].
  - inversion H as [|? ? Hn Hd]; subst.
    destruct (jsstring_eqb k0 key) eqn:E; cbn [map fst]; [exact H|].
    constructor; [|auto]. intros Hin. apply assoc_set_In in Hin.
    destruct Hin as [->|Hin]; [|contradiction].
    rewrite jsstring_eqb_refl in E. discriminate.
Qed.

Lemma set_field_fields_ok (key value : jsstring) (e : TagEntry) :
  jsstring_eqb key (lit "kind") = false ->
  jsstring_eqb key (lit "file") = false ->
  jsstring_eqb key (lit "line") = false ->
  fields_ok (fields e) -> fields_ok (fields (set_field key value e)).
Proof.
  intros K F L [Hd Hr]. unfold set_field.
  destruct (jsstring_eqb key (lit "__proto__")) eqn:P; [now split|].
  cbn [fields]. split; [now apply assoc_set_NoDup|].
  intros k Hin. apply assoc_set_In in Hin. destruct Hin as [->|Hin]; auto.
  unfold reserved_key. now rewrite K, F, L, P.
Qed.

Lemma apply_part_fields_ok (part : jsstring) (e : TagEntry) :
  fields_ok (fields e) -> fields_ok (fields (apply_part part e)).
Proof.
  intros H. unfold apply_part.
  destruct (indexOf part [COLON] 0) as [i|]; [|exact H].
  destruct (jsstring_eqb (firstn i part) (lit "kind")) eqn:K; [exact H|].
  destruct (jsstring_eqb (firstn i part) (lit "file")) eqn:F; [exact H|].
  destruct (jsstring_eqb (firstn i part) (lit "line")) eqn:L; [exact H|].
  now apply set_field_fields_ok.
Qed.

Lemma parseExtensionFields_fields_ok (str : jsstring) (e : TagEntry) :
  fields_ok (fields e) -> fields_ok (fields (_parseExtensionFields str e)).
Proof.
  rewrite parseExtensionFields_parts. revert e.
  induction (field_parts str) as [|part parts IH]; intros e H; [exact H|].
  cbn [fold_left]. apply IH. now apply apply_part_fields_ok.
Qed.

Lemma fields_ok_nil : fields_ok [].
Proof. split; [constructor|intros k []]. Qed.

Lemma parseTagLine_finish_fields_ok (pat : jsstring) (pos : nat)
      (e : TagEntry) :
  fields_ok (fields e) -> fields_ok (fields (parseTagLine_finish pat pos e)).
Proof.
  intros H. rewrite parseTagLine_finish_eq. cbn [fields set_valid].
  destruct (prefixb _ _); [|exact H].
  now apply parseExtensionFields_fields_ok.
Qed.

(** ** Properties of whole lines *)

(** X1: a search pattern written the way ctags writes it, with every
    backslash doubled and every delimiter preceded by a backslash, is
    read back unchanged by [_parseTagLine], as long as the pattern does
    not end with a backslash; the entry is valid, and what follows the
    closing delimiter is handed to [_parseExtensionFields] when it
    starts with a semicolon and a double quote. *)
Theorem X1_pattern_round_trip (n f s rest : jsstring) (d : char) :
  ~ In TAB n -> ~ In TAB f ->
  d = SLASH \/ d = QUESTION ->
  last s d <> BACKSLASH ->
  let base := set_pattern s (partial_entry n f) in
  let e := _parseTagLine
             (n ++ TAB :: f ++ TAB :: d :: vim_escape d s ++ d :: rest) in
  e = set_valid true
        (if prefixb [SEMICOLON; DQUOTE] rest
         then _parseExtensionFields (skipn 2 rest) base
         else base)
  /\ valid e = true /\ name e = n /\ file e = f
  /\ pattern (address e) = s.
Proof.
  intros Hn Hf Hd Hl base e.
  assert (Hb : d <> BACKSLASH) by (destruct Hd; subst d; discriminate).
  assert (Hc : char_eqb d SLASH || char_eqb d QUESTION = true)
    by (destruct Hd; subst d; reflexivity).
  assert (E : e = set_valid true
                    (if prefixb [SEMICOLON; DQUOTE] rest
                     then _parseExtensionFields (skipn 2 rest) base
                     else base)).
  { unfold e. rewrite (@parseTagLine_regions n f _ Hn Hf).
    unfold parse_address. rewrite Hc. unfold substr_from. cbn [skipn].
    rewrite (@scan_loop_vim_escape d rest Hb s 1 0 [] eq_refl
               (fun _ => eq_refl) Hl).
    cbn [repeat Nat.div2 app].
    replace (1 + length (vim_escape d s) <?
             length (d :: vim_escape d s ++ d :: rest)) with true.
    2:{ symmetry. apply Nat.ltb_lt. cbn [length].
        rewrite length_app. cbn [length]. lia. }
    rewrite parseTagLine_finish_eq.
    replace (1 + length (vim_escape d s) + 1 + 2)
      with (S (length (vim_escape d s) + 3)) by lia.
    replace (1 + length (vim_escape d s) + 1)
      with (S (length (vim_escape d s) + 1)) by lia.
    cbn [skipn].
    rewrite !(@skipn_length_plus _ (vim_escape d s) (d :: rest)).
    reflexivity. }
  split; [exact E|]. rewrite E. cbn [valid set_valid].
  split; [reflexivity|].
  destruct (prefixb [SEMICOLON; DQUOTE] rest).
  - unfold _parseExtensionFields.
    destruct (@parseExtensionFields_loop_frame (skipn 2 rest)
                (length (skipn 2 rest)) 0 base) as [A [B [_ D]]].
    cbn [name file address set_valid].
    rewrite A, B, D. repeat split; reflexivity.
  - repeat split; reflexivity.
Qed.

Lemma X1_pattern_round_trip_witness :
  let e := _parseTagLine (lit "div" ++ TAB :: lit "m.c" ++ TAB :: SLASH
                          :: vim_escape SLASH (lit "^a/b\n$") ++ SLASH
                          :: (SEMICOLON :: DQUOTE :: TAB :: lit "f")) in
  valid e = true /\ pattern (address e) = lit "^a/b\n$".
Proof.
  pose proof (@X1_pattern_round_trip (lit "div") (lit "m.c")
                (lit "^a/b\n$") ((SEMICOLON :: DQUOTE :: TAB :: lit "f")) SLASH) as H.
  cbv zeta in H.
  destruct H as [_ [V [_ [_ P]]]].
  - vm_compute. intros H. repeat (destruct H as [H|H]; [discriminate H|]).
    exact H.
  - vm_compute. intros H. repeat (destruct H as [H|H]; [discriminate H|]).
    exact H.
  - now left.
  - vm_compute. discriminate.
  - split; [exact V|exact P].
Defined.

(** X2: when the text after the opening delimiter holds no further
    delimiter, the address is not accepted: the entry is not valid and
    carries the name and the file only, whatever else the text holds. *)
Theorem X2_unterminated_pattern (n f body : jsstring) (d : char) :
  ~ In TAB n -> ~ In TAB f ->
  d = SLASH \/ d = QUESTION ->
  ~ In d body ->
  _parseTagLine (n ++ TAB :: f ++ TAB :: d :: body) = partial_entry n f.
Proof.
  intros Hn Hf Hd Hb.
  assert (Hc : char_eqb d SLASH || char_eqb d QUESTION = true)
    by (destruct Hd; subst d; reflexivity).
  rewrite (@parseTagLine_regions n f _ Hn Hf).
  unfold parse_address. rewrite Hc. unfold substr_from. cbn [skipn].
  pose proof (@scan_loop_no_delimiter d body Hb 1 0 []) as P.
  destruct (scan_loop d body 1 0 []) as [p parsed]. cbn [fst] in P.
  subst p. cbn [length].
  replace (1 + length body <? S (length body)) with false
    by (symmetry; apply Nat.ltb_ge; lia).
  reflexivity.
Qed.

Lemma X2_unterminated_pattern_witness :
  _parseTagLine (lit "f" ++ TAB :: lit "a.c" ++ TAB :: SLASH
                 :: (lit "^int f(;x" ++ TAB :: lit "kind:f"))
  = partial_entry (lit "f") (lit "a.c").
Proof.
  apply (@X2_unterminated_pattern (lit "f") (lit "a.c")
           ((lit "^int f(;x" ++ TAB :: lit "kind:f")) SLASH).
  - vm_compute. intros H. repeat (destruct H as [H|H]; [discriminate H|]).
    exact H.
  - vm_compute. intros H. repeat (destruct H as [H|H]; [discriminate H|]).
    exact H.
  - now left.
  - vm_compute. intros H. repeat (destruct H as [H|H]; [discriminate H|]).
    exact H.
Defined.

Lemma parse_address_digit (entry : TagEntry) (pat : jsstring) (c0 : char)
      (tl : jsstring) :
  pat = c0 :: tl -> isdigit c0 = true ->
  parse_address entry pat
  = parseTagLine_finish pat (countWhile isdigit pat)
                        (set_lineNumber (parseInt pat) entry).
Proof.
  intros -> H0. unfold parse_address.
  assert (Hs : char_eqb c0 SLASH || char_eqb c0 QUESTION = false).
  { apply isdigit_range in H0. unfold char_eqb, SLASH, QUESTION.
    destruct (N.eqb_spec c0 47); [lia|].
    destruct (N.eqb_spec c0 63); [lia|]. reflexivity. }
  now rewrite Hs, H0.
Qed.

(** X3: a line whose address starts with a run of decimal digits gets
    the value of the run as line number and is valid; the pattern stays
    empty, and what follows the run is handed to
    [_parseExtensionFields] when it starts with a semicolon and a
    double quote and is ignored otherwise.  The value is one a double
    holds exactly. *)
Theorem X3_numeric_address (n f digits rest : jsstring) :
  ~ In TAB n -> ~ In TAB f ->
  digits <> [] ->
  Forall (fun c => isdigit c = true) digits ->
  (digitsValue 0 digits <= 2 ^ 53)%Z ->
  match rest with c :: _ => isdigit c = false | [] => True end ->
  let base := set_lineNumber (Num (digitsValue 0 digits))
                             (partial_entry n f) in
  let e := _parseTagLine (n ++ TAB :: f ++ TAB :: digits ++ rest) in
  e = set_valid true
        (if prefixb [SEMICOLON; DQUOTE] rest
         then _parseExtensionFields (skipn 2 rest) base
         else base)
  /\ valid e = true /\ pattern (address e) = [].
Proof.
  intros Hn Hf Hne Hd _ Hr base e.
  destruct (takeWhile_run isdigit rest Hd Hr) as [_ Cn].
  assert (E : e = set_valid true
                    (if prefixb [SEMICOLON; DQUOTE] rest
                     then _parseExtensionFields (skipn 2 rest) base
                     else base)).
  { unfold e. rewrite (@parseTagLine_regions n f _ Hn Hf).
    assert (H0 : exists c0 tl, digits ++ rest = c0 :: tl
                               /\ isdigit c0 = true).
    { destruct digits as [|c0 ds]; [congruence|].
      exists c0, (ds ++ rest). split; [reflexivity|exact (Forall_inv Hd)]. }
    destruct H0 as [c0 [tl [Hp H0]]].
    rewrite (@parse_address_digit _ _ c0 tl Hp H0).
    rewrite (@parseInt_digits digits rest Hne Hd Hr), Cn.
    rewrite parseTagLine_finish_eq.
    rewrite (@skipn_app_exact _ digits rest).
    rewrite (@skipn_length_plus _ digits rest 2). reflexivity. }
  split; [exact E|]. rewrite E. cbn [valid set_valid].
  split; [reflexivity|].
  destruct (prefixb [SEMICOLON; DQUOTE] rest); [|reflexivity].
  unfold _parseExtensionFields.
  destruct (@parseExtensionFields_loop_frame (skipn 2 rest)
              (length (skipn 2 rest)) 0 base) as [_ [_ [_ D]]].
  cbn [address set_valid]. rewrite D. reflexivity.
Qed.

Lemma X3_numeric_address_witness :
  let e := _parseTagLine (lit "main" ++ TAB :: lit "m.c" ++ TAB
                          :: lit "120" ++ lit "x;") in
  e = set_valid true (set_lineNumber (Num 120)
                        (partial_entry (lit "main") (lit "m.c")))
  /\ valid e = true /\ pattern (address e) = [].
Proof.
  apply (@X3_numeric_address (lit "main") (lit "m.c") (lit "120")
           (lit "x;")).
  - vm_compute. intros H. repeat (destruct H as [H|H]; [discriminate H|]).
    exact H.
  - vm_compute. intros H. repeat (destruct H as [H|H]; [discriminate H|]).
    exact H.
  - discriminate.
  - repeat constructor.
  - vm_compute. discriminate.
  - reflexivity.
Defined.

(** ** Properties of the extension text *)

Lemma split_tabs_from_app (a b cur : jsstring) :
  split_tabs_from cur (a ++ TAB :: b)
  = split_tabs_from cur a ++ split_tabs_from [] b.
Proof.
  revert cur. induction a as [|c a IH]; intros cur; cbn [app split_tabs_from].
  - unfold isTab. now rewrite char_eqb_refl.
  - destruct (isTab c); [cbn [app]|]; now rewrite IH.
Qed.

Lemma surfaced_app (l1 l2 : list jsstring) :
  l2 <> [] -> surfaced (l1 ++ l2) = filter truthy l1 ++ surfaced l2.
Proof.
  intros H. induction l1 as [|a l1 IH]; [reflexivity|].
  cbn [app filter]. rewrite surfaced_cons, IH.
  - destruct (truthy a); reflexivity.
  - destruct l1; [exact H|discriminate].
Qed.

Lemma split_tabs_from_last (a : jsstring) :
  a <> [] -> last a SLASH <> TAB ->
  forall cur, truthy (last (split_tabs_from cur a) []) = true.
Proof.
  induction a as [|c a IH]; intros Hne Hl cur; [congruence|].
  destruct a as [|c' a].
  - cbn [last] in Hl. apply char_eqb_neq in Hl.
    cbn [split_tabs_from]. unfold isTab. rewrite Hl. cbn [last].
    destruct cur; reflexivity.
  - assert (IH' := IH ltac:(discriminate) Hl).
    change (split_tabs_from cur (c :: c' :: a))
      with (if isTab c then cur :: split_tabs_from [] (c' :: a)
            else split_tabs_from (cur ++ [c]) (c' :: a)).
    destruct (isTab c); [|apply IH'].
    specialize (IH' []).
    pose proof (@split_tabs_from_not_nil [] (c' :: a)) as N.
    destruct (split_tabs_from [] (c' :: a)) as [|x l];
      [congruence|exact IH'].
Qed.

Lemma filter_truthy_surfaced (l : list jsstring) :
  truthy (last l []) = true -> filter truthy l = surfaced l.
Proof.
  intros H. unfold surfaced. destruct l as [|x l]; [discriminate H|].
  destruct (@exists_last _ (x :: l) ltac:(discriminate)) as [i [y E]].
  rewrite E in *. rewrite last_last in *. rewrite removelast_last.
  rewrite filter_app. cbn [filter]. now rewrite H.
Qed.

Lemma field_parts_surfaced (s : jsstring) :
  s <> [] -> field_parts s = surfaced (split_tabs_from [] s).
Proof. destruct s; [congruence|reflexivity]. Qed.

Lemma field_parts_app (a b : jsstring) :
  last a SLASH <> TAB -> b <> [] ->
  field_parts (a ++ TAB :: b) = field_parts a ++ field_parts b.
Proof.
  intros Ha Hb.
  rewrite (@field_parts_surfaced (a ++ TAB :: b))
    by (destruct a; discriminate).
  rewrite split_tabs_from_app, surfaced_app
    by apply split_tabs_from_not_nil.
  rewrite (@field_parts_surfaced b Hb). f_equal.
  destruct a as [|c a]; [reflexivity|].
  rewrite (@field_parts_surfaced (c :: a)) by discriminate.
  apply filter_truthy_surfaced.
  apply split_tabs_from_last; [discriminate|exact Ha].
Qed.

Lemma field_parts_trailing_tab (a : jsstring) :
  field_parts (a ++ [TAB])
  = filter truthy (split_tabs_from [] a) ++ [[]].
Proof.
  rewrite (@field_parts_surfaced (a ++ [TAB])) by (destruct a; discriminate).
  rewrite split_tabs_from_app, surfaced_app by discriminate. reflexivity.
Qed.

(** X4: [_parseExtensionFields] handles the parts of its text from left
    to right, one call of [apply_part] for each: the parts are the
    non-empty pieces between tabs and, for a text that is not empty,
    the piece after the last tab. *)
Theorem X4_extension_fields_by_parts (str : jsstring) (e : TagEntry) :
  _parseExtensionFields str e
  = fold_left (fun e part => apply_part part e) (field_parts str) e.
Proof. apply parseExtensionFields_parts. Qed.

(** X5: two extension texts joined by a tab are handled as the first
    and then the second, when the first does not end with a tab and the
    second is not empty. *)
Theorem X5_extension_fields_compose (a b : jsstring) (e : TagEntry) :
  last a SLASH <> TAB -> b <> [] ->
  _parseExtensionFields (a ++ TAB :: b) e
  = _parseExtensionFields b (_parseExtensionFields a e).
Proof.
  intros Ha Hb. rewrite !parseExtensionFields_parts.
  rewrite (@field_parts_app a b Ha Hb). apply fold_left_app.
Qed.

Lemma X5_extension_fields_compose_witness :
  _parseExtensionFields (lit "kind:f" ++ TAB :: lit "line:7") new_entry
  = _parseExtensionFields (lit "line:7")
      (_parseExtensionFields (lit "kind:f") new_entry).
Proof.
  apply (@X5_extension_fields_compose (lit "kind:f") (lit "line:7")
           new_entry).
  - vm_compute. discriminate.
  - discriminate.
Defined.

(** X6: a tab at the end of the extension text makes the loop take one
    more turn on an empty part, so the kind ends up as the empty string
    whatever the text held before. *)
Theorem X6_trailing_tab_empties_kind (str : jsstring) (e : TagEntry) :
  kind (_parseExtensionFields (str ++ [TAB]) e) = Some [].
Proof.
  rewrite parseExtensionFields_parts, field_parts_trailing_tab.
  rewrite fold_left_app. reflexivity.
Qed.

(** X7: in every entry [_parseTagLine] returns, the keys of [fields]
    are distinct, and none is [kind], [file], [line] or [__proto__]. *)
Theorem X7_fields_keys (line : jsstring) :
  fields_ok (fields (_parseTagLine line)).
Proof.
  unfold _parseTagLine.
  destruct (indexOf line [TAB] 0) as [i|]; [|apply fields_ok_nil].
  destruct (indexOf line [TAB] (i + 1)) as [j|]; [|apply fields_ok_nil].
  destruct (substr_from line (j + 1)) as [|c0 pat]; [apply fields_ok_nil|].
  destruct (char_eqb c0 SLASH || char_eqb c0 QUESTION).
  - destruct (scan_loop c0 (substr_from (c0 :: pat) 1) 1 0 [])
      as [p parsed].
    destruct (p <? length (c0 :: pat)); [|apply fields_ok_nil].
    apply parseTagLine_finish_fields_ok, fields_ok_nil.
  - destruct (isdigit c0); [|apply fields_ok_nil].
    apply parseTagLine_finish_fields_ok, fields_ok_nil.
Qed.

(** ** Reading a field back *)

Lemma jsstring_eqb_neq (a b : jsstring) :
  a <> b -> jsstring_eqb a b = false.
Proof.
  intros H. destruct (jsstring_eqb a b) eqn:E; [|reflexivity].
  apply jsstring_eqb_eq in E. contradiction.
Qed.

Lemma assoc_get_set_same (key value : jsstring)
      (m : list (jsstring * jsstring)) :
  assoc_get key (assoc_set key value m) = Some value.
Proof.
  induction m as [|[k v] m IH]; cbn [assoc_set assoc_get].
  - now rewrite jsstring_eqb_refl.
  - destruct (jsstring_eqb k key) eqn:E; cbn [assoc_get]; rewrite E;
      [reflexivity|exact IH].
Qed.

Lemma assoc_get_set_other (key value k : jsstring)
      (m : list (jsstring * jsstring)) :
  k <> key -> assoc_get k (assoc_set key value m) = assoc_get k m.
Proof.
  intros H. induction m as [|[k0 v0] m IH]; cbn [assoc_set assoc_get].
  - now rewrite jsstring_eqb_neq by congruence.
  - destruct (jsstring_eqb k0 key) eqn:E; cbn [assoc_get].
    + apply jsstring_eqb_eq in E. subst k0.
      now rewrite jsstring_eqb_neq by congruence.
    + destruct (jsstring_eqb k0 k); [reflexivity|exact IH].
Qed.

Lemma field_parts_single (part : jsstring) :
  part <> [] -> ~ In TAB part -> field_parts part = [part].
Proof.
  intros Hne Ht. rewrite (@field_parts_surfaced part Hne).
  assert (F : Forall (fun c => notTab c = true) part).
  { apply Forall_forall. intros c Hc. unfold notTab, isTab.
    apply negb_true_iff, char_eqb_neq. intros ->. contradiction. }
  rewrite <- (app_nil_r part) at 1.
  rewrite (@split_tabs_from_run part [] [] F). reflexivity.
Qed.

(** X8: a field [key:value] at the end of the extension text is read
    back from [fields] under its key, whatever was stored for that key
    before, and the values of the other keys are those of the text in
    front of it; this holds for every key without tab or colon other
    than [kind], [file], [line] and [__proto__]. *)
Theorem X8_last_field_is_read_back (a key value : jsstring) (e : TagEntry) :
  last a SLASH <> TAB ->
  ~ In TAB key -> ~ In COLON key -> ~ In TAB value ->
  reserved_key key = false ->
  let e' := _parseExtensionFields (a ++ TAB :: key ++ COLON :: value) e in
  assoc_get key (fields e') = Some value
  /\ forall k, k <> key ->
                assoc_get k (fields e')
                = assoc_get k (fields (_parseExtensionFields a e)).
Proof.
  intros Ha Hk Hc Hv Hr e'.
  set (part := key ++ COLON :: value).
  assert (Hp : ~ In TAB part).
  { unfold part. intros H. apply in_app_or in H.
    destruct H as [H|[H|H]]; [auto|discriminate H|auto]. }
  assert (E : e' = apply_part part (_parseExtensionFields a e)).
  { unfold e'. fold part. rewrite !parseExtensionFields_parts.
    rewrite (@field_parts_app a part Ha) by (unfold part; destruct key; discriminate).
    rewrite fold_left_app.
    rewrite (@field_parts_single part) by
        (auto; unfold part; destruct key; discriminate).
    reflexivity. }
  assert (I : indexOf part [COLON] 0 = Some (length key)).
  { unfold indexOf, part. cbn [skipn].
    now rewrite (@indexOf_scan_char_first COLON key value 0 Hc). }
  unfold reserved_key in Hr.
  apply orb_false_elim in Hr. destruct Hr as [Hr P].
  apply orb_false_elim in Hr. destruct Hr as [Hr L].
  apply orb_false_elim in Hr. destruct Hr as [K F].
  assert (E' : e' = set_field key value (_parseExtensionFields a e)).
  { rewrite E. unfold apply_part. rewrite I. cbv zeta.
    unfold part. rewrite firstn_app_exact.
    replace (length key + 1) with (length (key ++ [COLON]))
      by (rewrite length_app; reflexivity).
    replace (key ++ COLON :: value) with ((key ++ [COLON]) ++ value)
      by (rewrite <- app_assoc; reflexivity).
    rewrite skipn_app_exact. now rewrite K, F, L. }
  rewrite E'. unfold set_field. rewrite P. cbn [fields].
  split; [apply assoc_get_set_same|].
  intros k Hne. now apply assoc_get_set_other.
Qed.

Lemma X8_last_field_is_read_back_witness :
  assoc_get (lit "access")
            (fields (_parseExtensionFields
                       (lit "access:public" ++ TAB :: lit "access"
                            ++ COLON :: lit "private") new_entry))
  = Some (lit "private").
Proof.
  apply (@X8_last_field_is_read_back (lit "access:public") (lit "access")
           (lit "private") new_entry).
  - vm_compute. discriminate.
  - vm_compute. intros H. repeat (destruct H as [H|H]; [discriminate H|]).
    exact H.
  - vm_compute. intros H. repeat (destruct H as [H|H]; [discriminate H|]).
    exact H.
  - vm_compute. intros H. repeat (destruct H as [H|H]; [discriminate H|]).
    exact H.
  - reflexivity.
Defined.

(* ================================================================= *)
(** * Further properties of the reader *)

(** ** What a read leaves alone *)

Lemma fs_read_length (content buffer : list byte) (position : nat) :
  length (snd (fs_read content buffer position)) = length buffer.
Proof.
  unfold fs_read. cbn [snd]. rewrite length_app, length_skipn.
  pose proof (firstn_le_length (length buffer) (skipn position content)).
  lia.
Qed.

Lemma read_chunk_frame (content : list byte) (h : CTags) :
  let h' := read_chunk content h in
  tagsFile h' = tagsFile h /\ fd h' = fd h /\ pos h' = pos h
  /\ initialised h' = initialised h /\ info h' = info h
  /\ size h' = size h
  /\ workingPos h <= workingPos h'
  /\ length (readBuffer h') = length (readBuffer h).
Proof.
  cbv zeta. unfold read_chunk.
  pose proof (fs_read_length content (readBuffer h) (workingPos h)) as L.
  destruct (fs_read content (readBuffer h) (workingPos h)) as [n buffer].
  cbn [snd] in L.
  destruct (decoder_write (decoder h) _) as [t d'].
  cbn [tagsFile fd pos initialised info size workingPos readBuffer].
  repeat split; try reflexivity; [lia|exact L].
Qed.

Lemma readAtLeastALine_frame (content : list byte) :
  forall fuel h l h',
    readAtLeastALine fuel content h = Resolved (l, h') ->
    tagsFile h' = tagsFile h /\ fd h' = fd h /\ pos h' = pos h
    /\ initialised h' = initialised h /\ info h' = info h
    /\ size h' = size h
    /\ workingPos h <= workingPos h'
    /\ length (readBuffer h') = length (readBuffer h)
    /\ (l = None -> lines h' = [] /\ unread h' = false).
Proof.
  induction fuel as [|fuel IH]; intros h l h'; cbn [readAtLeastALine];
    destruct (drain (lines h)) as [[line|] rest] eqn:D.
  1, 3: intros H; inversion H; subst;
    repeat split; try reflexivity; try lia; discriminate.
  all: destruct (unread (set_lines rest h)) eqn:U.
  - discriminate.
  - cbn [lines set_lines]. destruct rest as [|x rest]; intros H;
      inversion H; subst; repeat split; try reflexivity; try lia;
      try discriminate. exact U.
  - intros H. apply IH in H.
    pose proof (read_chunk_frame content (set_lines rest h)) as F.
    cbv zeta in F. cbn [tagsFile fd pos initialised info size workingPos
                        readBuffer set_lines] in F.
    destruct H as [A1 [A2 [A3 [A4 [A5 [A6 [A7 [A8 A9]]]]]]]].
    destruct F as [B1 [B2 [B3 [B4 [B5 [B6 [B7 B8]]]]]]].
    repeat split; try congruence; try lia; apply A9; assumption.
  - cbn [lines set_lines]. destruct rest as [|x rest]; intros H;
      inversion H; subst; repeat split; try reflexivity; try lia;
      try discriminate. exact U.
Qed.

(** X9: a call of [_readTagLine] on a handle whose buffer is not empty
    and whose recorded size does not exceed the file settles with a
    line or with [null]; it leaves the path, the descriptor, [pos], the
    flag, the metadata and the size as they were and never moves the
    read position backwards; [null] is returned only when no line is
    buffered and no byte is left below the size. *)
Theorem X9_readTagLine_settles (content : list byte) (h : CTags) :
  readable content h ->
  exists l h',
    _readTagLine content h = Resolved (l, h')
    /\ tagsFile h' = tagsFile h /\ fd h' = fd h /\ pos h' = pos h
    /\ initialised h' = initialised h /\ info h' = info h
    /\ size h' = size h
    /\ workingPos h <= workingPos h'
    /\ readable content h'
    /\ (l = None -> lines h' = [] /\ unread h' = false).
Proof.
  intros R.
  destruct (@readAtLeastALine_settles content (remaining h) h R (le_n _))
    as [l [h' [E [R' _]]]].
  exists l, h'. unfold _readTagLine. split; [exact E|].
  destruct (readAtLeastALine_frame _ _ _ E)
    as [A1 [A2 [A3 [A4 [A5 [A6 [A7 [_ A9]]]]]]]].
  repeat split; try assumption; try apply R'; apply A9; assumption.
Qed.

Lemma X9_readTagLine_settles_witness :
  exists l h',
    _readTagLine seek_file (sized zero_mem seek_file) = Resolved (l, h')
    /\ fd h' = 3 /\ size h' = Some 1024.
Proof.
  destruct (@X9_readTagLine_settles seek_file (sized zero_mem seek_file))
    as [l [h' [E [_ [F [_ [_ [_ [S _]]]]]]]]].
  - split; [vm_compute; lia|].
    intros sz H. inversion H. apply le_n.
  - exists l, h'. split; [exact E|]. split; [exact F|exact S].
Defined.

(** X10: once [_readTagLine] has returned [null] it returns [null] on
    every later call and leaves the handle as it is. *)
Theorem X10_null_is_final (content : list byte) (h h' : CTags) :
  _readTagLine content h = Resolved (None, h') ->
  _readTagLine content h' = Resolved (None, h').
Proof.
  intros H. unfold _readTagLine in H.
  destruct (readAtLeastALine_frame _ _ _ H)
    as [_ [_ [_ [_ [_ [_ [_ [_ A]]]]]]]].
  destruct (A eq_refl) as [L U].
  apply readTagLine_done. unfold active. now rewrite U, L.
Qed.

Lemma X10_null_is_final_witness :
  _readTagLine seek_file (seek_reset 1024 (sized zero_mem seek_file))
  = Resolved (None, seek_reset 1024 (sized zero_mem seek_file)).
Proof.
  apply (@X10_null_is_final seek_file
           (seek_reset 1024 (sized zero_mem seek_file))
           (seek_reset 1024 (sized zero_mem seek_file))).
  reflexivity.
Defined.

(** ** Seeking *)

(** X11: a seek to an offset at or beyond the size of the file reads
    nothing and returns [null]; both positions are left at the size,
    the deque and the decoder are empty and the skip flag stays set. *)
Theorem X11_seek_past_end (content : list byte) (offset : Z) (h : CTags)
        (sz : nat) :
  size h = Some sz ->
  (Z.of_nat sz <= offset)%Z ->
  _readTagLineSeek content offset h = Resolved (None, seek_reset sz h).
Proof.
  intros Hs Ho. unfold _readTagLineSeek. rewrite Hs.
  assert (C : clamp offset sz = sz) by (unfold clamp; lia).
  rewrite C.
  assert (A : active (seek_reset sz h) = false).
  { unfold active, unread. cbn [size workingPos lines seek_reset].
    rewrite Hs, Nat.ltb_irrefl. reflexivity. }
  rewrite (readTagLine_done content _ A). cbn [then_ snd].
  apply (readTagLine_done content _ A).
Qed.

Lemma X11_seek_past_end_witness :
  _readTagLineSeek seek_file 5000 (sized zero_mem seek_file)
  = Resolved (None, seek_reset 1024 (sized zero_mem seek_file)).
Proof.
  apply (@X11_seek_past_end seek_file 5000 (sized zero_mem seek_file) 1024).
  - reflexivity.
  - vm_compute. discriminate.
Defined.

Lemma skipPartialUTF8_lead (buffer : list byte) (n : nat) :
  match buffer with
  | b :: _ => ~ is_continuation b
  | [] => True
  end ->
  _skipPartialUTF8 buffer n = buffer.
Proof.
  intros H. unfold _skipPartialUTF8.
  destruct n as [|n], buffer as [|b buffer]; try reflexivity.
  cbn [skipPartialUTF8_offset]. unfold is_continuation in H.
  apply N.eqb_neq in H. rewrite H. reflexivity.
Qed.

(** The first read after a seek, when the chunk read does not start
    inside a character: the skip flag changes nothing. *)
Lemma read_chunk_skip_lead (content : list byte) (h : CTags) :
  0 < length (readBuffer h) ->
  match skipn (workingPos h) content with
  | b :: _ => ~ is_continuation b
  | [] => True
  end ->
  read_chunk content h
  = read_chunk content
      (mkCTags (tagsFile h) (fd h) (pos h) (workingPos h) (readBuffer h)
               (decoder h) (lines h) false (initialised h) (info h)
               (size h)).
Proof.
  intros HB Hc. unfold read_chunk.
  cbn [readBuffer workingPos shouldSkip decoder lines tagsFile fd pos
       initialised info size].
  destruct (shouldSkip h); [|reflexivity].
  unfold fs_read.
  destruct (skipn (workingPos h) content) as [|b rest].
  - rewrite firstn_nil. cbn [app length skipn].
    unfold _skipPartialUTF8. destruct (readBuffer h); reflexivity.
  - rewrite skipPartialUTF8_lead; [reflexivity|].
    destruct (readBuffer h) as [|x buf]; [simpl in HB; lia|].
    cbn [length firstn app]. exact Hc.
Qed.

(** X12: on a file made of whole chunks, none of which ends between a
    carriage return and its line feed, and whose first byte does not
    continue a character, a seek to offset 0 (or to a negative offset,
    which is taken for 0) returns the second of the lines a sequential
    read returns, or [null] when there is only one: the first line is
    read and dropped as if it were cut. *)
Theorem X12_seek_to_start_drops_first_line (content : list byte)
        (offset : Z) (h : CTags) (k : nat) :
  (offset <= 0)%Z ->
  0 < length (readBuffer h) ->
  length content = S k * length (readBuffer h) ->
  size h = Some (length content) ->
  (forall j, j * length (readBuffer h) < length content ->
             last (fst (decoder_write Idle
                          (firstn (j * length (readBuffer h)) content))) LF
             <> CR) ->
  match content with
  | b :: _ => ~ is_continuation b
  | [] => True
  end ->
  exists h',
    _readTagLineSeek content offset h
    = Resolved
        (nth_error
           (surfaced (split_lines (fst (decoder_write Idle content)))) 1,
         h').
Proof.
  intros Ho HB Hk Hs Hc Hl.
  set (B := length (readBuffer h)) in *.
  set (h0 := seek_reset 0 h).
  set (h1 := mkCTags (tagsFile h0) (fd h0) (pos h0) (workingPos h0)
                     (readBuffer h0) (decoder h0) (lines h0) false
                     (initialised h0) (info h0) (size h0)).
  assert (Dec : decoder h1 = Idle).
  { cbn. destruct (decoder h); reflexivity. }
  assert (R1 : reading content B h1).
  { apply (@reading_start content h1 (S k)); try reflexivity; auto.
    rewrite Dec. exact Hc. }
  assert (A1 : unread h1 = true).
  { unfold unread. cbn [size workingPos h1 h0 seek_reset].
    rewrite Hs, Hk. apply Nat.ltb_lt. simpl. lia. }
  assert (All : surfaced (upcoming content h1)
                = surfaced (split_lines (fst (decoder_write Idle content)))).
  { unfold upcoming, rest_text. rewrite Dec. reflexivity. }
  assert (E0 : _readTagLine content h0 = _readTagLine content h1).
  { unfold _readTagLine.
    change (remaining h0) with (remaining h1).
    assert (U : unread (set_lines [] h0) = true) by exact A1.
    assert (U1 : unread (set_lines [] h1) = true) by exact A1.
    destruct (remaining h1) as [|fuel]; cbn [readAtLeastALine];
      cbn [lines h0 h1 seek_reset drain]; rewrite U, U1; [reflexivity|].
    f_equal.
    rewrite (@read_chunk_skip_lead content (set_lines [] h0)); auto. }
  unfold _readTagLineSeek. rewrite Hs.
  assert (C : clamp offset (length content) = 0) by (unfold clamp; lia).
  rewrite C. fold h0. rewrite E0.
  assert (A1' : active h1 = true) by (unfold active; now rewrite A1).
  destruct (@readAtLeastALine_next content B HB (remaining h1) h1 R1 A1'
              (le_n _)) as [l1 [h2 [Er [R2 S2]]]].
  unfold _readTagLine at 1. rewrite Er. cbn [then_ snd].
  rewrite <- All, S2. cbn [nth_error].
  destruct (active h2) eqn:A2.
  - destruct (@readAtLeastALine_next content B HB (remaining h2) h2 R2 A2
                (le_n _)) as [l2 [h3 [Er2 [_ S3]]]].
    exists h3. unfold _readTagLine. rewrite Er2.
    unfold remaining_lines at 1. rewrite A2, S3. reflexivity.
  - exists h2. rewrite (readTagLine_done content _ A2).
    unfold remaining_lines. rewrite A2. reflexivity.
Qed.

Lemma X12_seek_to_start_drops_first_line_witness :
  exists h',
    _readTagLineSeek seek_file 0 (sized zero_mem seek_file)
    = Resolved (nth_error [lit "ab"; lit "cd"; repeat 101%N 1017; []] 1, h').
Proof.
  apply (@X12_seek_to_start_drops_first_line seek_file 0
           (sized zero_mem seek_file) 0).
  - apply Z.le_refl.
  - vm_compute. lia.
  - reflexivity.
  - reflexivity.
  - intros j Hj.
    change (length (readBuffer (sized zero_mem seek_file))) with 1024 in *.
    change (length seek_file) with 1024 in Hj.
    destruct j as [|j]; [vm_compute; discriminate|lia].
  - vm_compute. discriminate.
Defined.

(** ** The pseudo-tags at the head of a file *)

Lemma remaining_lines_nil (content : list byte) (h : CTags) :
  remaining_lines content h = [] -> active h = false.
Proof.
  unfold remaining_lines, surfaced. destruct (active h); [|reflexivity].
  intros H. apply app_eq_nil in H. destruct H as [_ H]. discriminate H.
Qed.

Lemma tagReader_pseudo_prefix (content : list byte) (B : nat) :
  0 < B ->
  forall ls h,
    reading content B h ->
    remaining_lines content h = ls ->
    exists fuel h',
      tagReader fuel content h = Resolved h'
      /\ info h' = fold_left apply_pseudo (pseudo_prefix ls) (info h)
      /\ remaining_lines content h' = tl (after_pseudo ls)
      /\ size h' = size h /\ fd h' = fd h.
Proof.
  intros HB. induction ls as [|l ls IH]; intros h R E.
  - pose proof (remaining_lines_nil _ _ E) as A.
    exists 1, h. cbn [tagReader].
    rewrite (readTagLine_done content _ A). cbn [then_ is_pseudo].
    repeat split; try reflexivity. exact E.
  - assert (A : active h = true).
    { destruct (active h) eqn:A; [reflexivity|].
      unfold remaining_lines in E. rewrite A in E. discriminate E. }
    destruct (@readAtLeastALine_next content B HB (remaining h) h R A
                (le_n _)) as [l1 [h1 [Er [R1 S1]]]].
    assert (E1 : l1 = l /\ remaining_lines content h1 = ls).
    { unfold remaining_lines in E at 1. rewrite A, S1 in E.
      inversion E. split; reflexivity. }
    destruct E1 as [-> E1].
    destruct (readAtLeastALine_frame _ _ _ Er)
      as [_ [F2 [_ [_ [F5 [F6 _]]]]]].
    cbn [pseudo_prefix after_pseudo].
    destruct (is_pseudo (Some l)) eqn:P.
    + set (h2 := set_info (pseudo_switch (_parseTagLine l) (info h1)) h1).
      assert (R2 : reading content B h2) by (destruct R1; now constructor).
      destruct (IH h2 R2 E1) as [fuel [h' [Et [I' [L' [S' F']]]]]].
      exists (S fuel), h'. cbn [tagReader]. unfold _readTagLine.
      rewrite Er. cbn [then_]. rewrite P. fold h2.
      split; [exact Et|]. cbn [fold_left].
      split; [rewrite I'; cbn [info h2 set_info]; rewrite F5; reflexivity|].
      split; [exact L'|]. split; [rewrite S'|rewrite F']; assumption.
    + exists 1, h1. cbn [tagReader]. unfold _readTagLine.
      rewrite Er. cbn [then_]. rewrite P.
      split; [reflexivity|]. split; [exact F5|]. split; [exact E1|].
      split; assumption.
Qed.

(** X13: on a file made of whole chunks, none of which ends between a
    carriage return and its line feed, [_readPseudoTags] on a handle
    that has not read yet applies to the metadata, in order, the lines
    at the head of the file that start with the pseudo-tag prefix, one
    [switch] for each, and stops at the first line that does not; it
    resolves with [workingPos] back at 0. *)
Theorem X13_loader_applies_leading_pseudo_tags (content : list byte)
        (h : CTags) (k : nat) :
  0 < length (readBuffer h) ->
  length content = S k * length (readBuffer h) ->
  size h = Some (length content) ->
  workingPos h = 0 ->
  lines h = [] ->
  decoder h = Idle ->
  shouldSkip h = false ->
  (forall j, j * length (readBuffer h) < length content ->
             last (fst (decoder_write Idle
                          (firstn (j * length (readBuffer h)) content))) LF
             <> CR) ->
  exists fuel h',
    (forall fuel', fuel <= fuel' ->
       _readPseudoTags fuel' content h = Resolved h')
    /\ info h'
       = fold_left apply_pseudo
           (pseudo_prefix
              (surfaced (split_lines (fst (decoder_write Idle content)))))
           (info h)
    /\ workingPos h' = 0.
Proof.
  intros HB Hk Hs Hw Hl Hd Hsk Hc.
  assert (R : reading content (length (readBuffer h)) h).
  { apply reading_start with (k := S k); auto. now rewrite Hd. }
  assert (E : remaining_lines content h
              = surfaced (split_lines (fst (decoder_write Idle content)))).
  { unfold remaining_lines, active, unread, upcoming, rest_text.
    rewrite Hs, Hw, Hl, Hd, Hk. cbn [skipn push_parts].
    replace (0 <? S k * length (readBuffer h)) with true; [reflexivity|].
    symmetry. apply Nat.ltb_lt. simpl. lia. }
  destruct (@tagReader_pseudo_prefix content _ HB _ h R E)
    as [fuel [h' [Et [I' _]]]].
  exists fuel, (set_workingPos 0 h').
  split; [|split; [exact I'|reflexivity]].
  intros fuel' F. unfold _readPseudoTags.
  rewrite (@tagReader_more_fuel content _ _ _ Et _ F). reflexivity.
Qed.

Lemma X13_loader_applies_leading_pseudo_tags_witness :
  exists fuel h',
    (forall fuel', fuel <= fuel' ->
       _readPseudoTags fuel' pseudo_file_1024
                       (sized zero_mem pseudo_file_1024)
       = Resolved h')
    /\ info h' = Info.mk (Num 1) TAG_SORTED [] [] [] []
    /\ workingPos h' = 0.
Proof.
  apply (@X13_loader_applies_leading_pseudo_tags pseudo_file_1024
           (sized zero_mem pseudo_file_1024) 0).
  - vm_compute. lia.
  - reflexivity.
  - reflexivity.
  - reflexivity.
  - reflexivity.
  - reflexivity.
  - reflexivity.
  - intros j Hj.
    change (length (readBuffer (sized zero_mem pseudo_file_1024)))
      with 1024 in *.
    change (length pseudo_file_1024) with 1024 in Hj.
    destruct j as [|j]; [vm_compute; discriminate|lia].
Defined.

(** ** Skipping a cut character *)

Lemma skipPartialUTF8_offset_buffer (buffer : list byte) (n : nat) :
  skipPartialUTF8_offset buffer n <= length buffer.
Proof.
  revert n. induction buffer as [|b buffer IH]; intros [|n];
    cbn [skipPartialUTF8_offset length]; try lia.
  destruct (N.land b 192 =? 128)%N; [|lia]. specialize (IH n). lia.
Qed.

(** X14: [_skipPartialUTF8] cuts a prefix off the buffer: the prefix is
    made of continuation bytes only and is no longer than [length], and
    it ends at [length] or in front of a byte that is not a
    continuation byte (or at the end of the buffer). *)
Theorem X14_skipPartialUTF8_prefix (buffer : list byte) (n : nat) :
  exists skipped,
    buffer = skipped ++ _skipPartialUTF8 buffer n
    /\ Forall is_continuation skipped
    /\ length skipped <= n
    /\ (length skipped = n
        \/ match _skipPartialUTF8 buffer n with
           | b :: _ => ~ is_continuation b
           | [] => True
           end).
Proof.
  destruct (skipPartialUTF8_spec buffer n) as [E [L [F N]]].
  set (offset := skipPartialUTF8_offset buffer n) in *.
  exists (firstn offset buffer).
  assert (Ho : length (firstn offset buffer) = offset).
  { apply firstn_length_le. apply skipPartialUTF8_offset_buffer. }
  rewrite E, Ho. split; [symmetry; apply firstn_skipn|].
  split; [exact F|]. split; [exact L|].
  destruct (Nat.eq_dec offset n) as [H|H]; [now left|right].
  assert (Hlt : offset < n) by lia. specialize (N Hlt).
  destruct (skipn offset buffer) as [|b rest] eqn:S; [exact I|].
  assert (Hn : nth_error buffer offset = Some b).
  { rewrite <- (firstn_skipn offset buffer), S.
    rewrite nth_error_app2 by (rewrite Ho; lia).
    rewrite Ho, Nat.sub_diag. reflexivity. }
  rewrite Hn in N. exact N.
Qed.

(** ** [init] and [destroy] *)

(** X15: [init] on a handle without a descriptor opens the tags file
    first.  When that fails the promise is rejected with the error of
    [open]; when the descriptor obtained cannot be examined it is
    rejected with the error of [fstat]; otherwise it resolves with the
    new descriptor and the size of the file stored, [workingPos] at 0
    and the flag set. *)
Theorem X15_init_without_descriptor (fs : FileSystem) (h : CTags) :
  fd h = 0 ->
  0 < length (readBuffer h) ->
  match open fs (tagsFile h) with
  | Err e => forall fuel, init fuel fs h = Rejected e
  | Ok fd' =>
      match fdesc fs fd' with
      | None => forall fuel, init fuel fs h = Rejected EBADF
      | Some content =>
          exists fuel h',
            (forall fuel', fuel <= fuel' -> init fuel' fs h = Resolved h')
            /\ fd h' = fd'
            /\ initialised h' = true
            /\ size h' = Some (length content)
            /\ workingPos h' = 0
      end
  end.
Proof.
  intros Hfd HB.
  destruct (open fs (tagsFile h)) as [fd'|e] eqn:Ho.
  - destruct (fdesc fs fd') as [content|] eqn:Hc.
    + set (h0 := set_size (Some (length content)) (set_fd fd' h)).
      assert (R0 : readable content h0).
      { split; [exact HB|]. intros sz E. inversion E. lia. }
      destruct (@tagReader_settles_measure content _ _ h0 eq_refl eq_refl R0)
        as [fuel [h1 [Et [S1 F1]]]].
      exists fuel, (set_initialised true (set_workingPos 0 h1)).
      split; [|repeat split; assumption].
      intros fuel' F. unfold init. rewrite Hfd, Ho. cbn [Nat.eqb async then_].
      unfold fstat_size. rewrite Hc. cbn [async then_].
      fold h0. unfold fd_content. change (fd h0) with fd'. rewrite Hc.
      unfold _readPseudoTags.
      rewrite (@tagReader_more_fuel content _ _ _ Et _ F). reflexivity.
    + intros fuel. unfold init. rewrite Hfd, Ho. cbn [Nat.eqb async then_].
      unfold fstat_size. rewrite Hc. reflexivity.
  - intros fuel. unfold init. rewrite Hfd, Ho. reflexivity.
Qed.

Lemma X15_init_without_descriptor_witness :
  (exists fuel h',
     (forall fuel', fuel <= fuel' ->
        init fuel' tree_fs (new_CTags zero_mem [lit "a"; lit "tags"] 0)
        = Resolved h')
     /\ fd h' = 4
     /\ initialised h' = true
     /\ size h' = Some (length seek_file)
     /\ workingPos h' = 0)
  /\ forall fuel,
       init fuel tree_fs (new_CTags zero_mem [lit "a"; lit "b"; lit "tags"] 0)
       = Rejected EACCES.
Proof.
  split.
  - apply (@X15_init_without_descriptor tree_fs
             (new_CTags zero_mem [lit "a"; lit "tags"] 0)).
    + reflexivity.
    + vm_compute. lia.
  - apply (@X15_init_without_descriptor tree_fs
             (new_CTags zero_mem [lit "a"; lit "b"; lit "tags"] 0)).
    + reflexivity.
    + vm_compute. lia.
Defined.

(** X16: after a [destroy] that resolved, the descriptor is forgotten
    and the flag is cleared, and another [destroy] resolves without
    closing anything and leaves the handle as it is. *)
Theorem X16_destroy_twice (close close' : nat -> result unit) (h : CTags) :
  snd (destroy close h) = Resolved tt ->
  let h1 := fst (destroy close h) in
  fd h1 = 0 /\ initialised h1 = false
  /\ destroy close' h1 = (h1, Resolved tt).
Proof.
  unfold destroy. cbn [fd set_initialised].
  destruct (fd h =? 0) eqn:E; cbn [negb].
  - intros _. cbv zeta. cbn [fst].
    change (fd (set_initialised false h)) with (fd h).
    rewrite E. cbn [negb]. apply Nat.eqb_eq in E.
    split; [exact E|]. split; reflexivity.
  - destruct (close (fd h)) as [u|e]; [|discriminate].
    intros _. cbv zeta. cbn [fst].
    change (fd (set_fd 0 (set_initialised false h))) with 0.
    cbn [Nat.eqb negb]. split; [reflexivity|]. split; reflexivity.
Qed.

Lemma X16_destroy_twice_witness :
  let h1 := fst (destroy (fun _ => Ok tt) (sized zero_mem seek_file)) in
  fd h1 = 0 /\ initialised h1 = false
  /\ destroy (fun _ => Err EBADF) h1 = (h1, Resolved tt).
Proof.
  apply (@X16_destroy_twice (fun _ => Ok tt) (fun _ => Err EBADF)
           (sized zero_mem seek_file)).
  reflexivity.
Defined.

(** X17: when [destroy] is rejected, the error is the one [close] gave
    for the descriptor of the handle; the descriptor is kept, and the
    flag has been cleared all the same. *)
Theorem X17_destroy_rejected (close : nat -> result unit) (h : CTags)
        (e : error) :
  snd (destroy close h) = Rejected e ->
  fd h <> 0 /\ close (fd h) = Err e
  /\ fd (fst (destroy close h)) = fd h
  /\ initialised (fst (destroy close h)) = false.
Proof.
  unfold destroy. cbn [fd set_initialised].
  destruct (fd h =? 0) eqn:E; cbn [negb]; [discriminate|].
  apply Nat.eqb_neq in E.
  destruct (close (fd h)) as [u|e']; [discriminate|].
  intros H. inversion H; subst. repeat split. exact E.
Qed.

Lemma X17_destroy_rejected_witness :
  fd (sized zero_mem seek_file) <> 0
  /\ fd (fst (destroy (fun _ => Err EBADF) (sized zero_mem seek_file))) = 3
  /\ initialised (fst (destroy (fun _ => Err EBADF)
                               (sized zero_mem seek_file))) = false.
Proof.
  destruct (@X17_destroy_rejected (fun _ => Err EBADF)
              (sized zero_mem seek_file) EBADF eq_refl) as [A [_ [B C]]].
  split; [exact A|]. split; [exact B|exact C].
Defined.

(** ** Lines without a line feed *)

Lemma split_lines_from_noLF (t : jsstring) :
  forall cur,
    ~ In LF cur ->
    Forall (fun l => ~ In LF l) (split_lines_from cur t).
Proof.
  induction t as [t IH] using (induction_ltof1 _ (@length char)).
  unfold ltof in IH. intros cur Hc.
  destruct (text_cases t) as [->|[[t' ->]|[[t' ->]|[c [t' [-> [H1 H2]]]]]]].
  - cbn. constructor; [exact Hc|constructor].
  - rewrite split_lines_from_LF. constructor; [exact Hc|].
    apply IH; [simpl; lia|intros []].
  - rewrite split_lines_from_CRLF. constructor; [exact Hc|].
    apply IH; [simpl; lia|intros []].
  - rewrite split_lines_from_other by assumption.
    apply IH; [simpl; lia|].
    intros H. apply in_app_or in H. destruct H as [H|[H|[]]]; auto.
Qed.

Lemma push_parts_noLF (l parts : list jsstring) :
  Forall (fun l => ~ In LF l) l ->
  Forall (fun l => ~ In LF l) parts ->
  Forall (fun l => ~ In LF l) (push_parts l parts).
Proof.
  intros Hl Hp. destruct l as [|a l]; [exact Hp|].
  destruct (@exists_last _ (a :: l)) as [i [x E]]; [discriminate|].
  rewrite E in *. apply Forall_app in Hl. destruct Hl as [Hi Hx].
  apply Forall_inv in Hx.
  destruct parts as [|p ps].
  - unfold push_parts. destruct (i ++ [x]) eqn:E'; [constructor|].
    rewrite <- E', removelast_last, last_last. cbn [hd tl].
    rewrite !app_nil_r. apply Forall_app. split; [exact Hi|].
    constructor; [exact Hx|constructor].
  - rewrite push_parts_snoc. apply Forall_app. split; [exact Hi|].
    constructor; [|exact (Forall_inv_tail Hp)].
    intros H. apply in_app_or in H. destruct H as [H|H]; [auto|].
    exact (Forall_inv Hp H).
Qed.

Lemma drain_noLF (l : list jsstring) :
  Forall (fun l => ~ In LF l) l ->
  Forall (fun l => ~ In LF l) (snd (drain l))
  /\ forall line, fst (drain l) = Some line -> ~ In LF line.
Proof.
  induction l as [|a l IH]; intros H; cbn [drain].
  - split; [constructor|discriminate].
  - destruct l as [|b l]; [split; [exact H|discriminate]|].
    destruct (truthy a).
    + cbn [fst snd]. split; [exact (Forall_inv_tail H)|].
      intros line E. inversion E; subst. exact (Forall_inv H).
    + apply IH. exact (Forall_inv_tail H).
Qed.

Lemma read_chunk_noLF (content : list byte) (h : CTags) :
  Forall (fun l => ~ In LF l) (lines h) ->
  Forall (fun l => ~ In LF l) (lines (read_chunk content h)).
Proof.
  intros H. unfold read_chunk.
  destruct (fs_read content (readBuffer h) (workingPos h)) as [n buffer].
  destruct (decoder_write (decoder h) _) as [t d']. cbn [lines].
  apply push_parts_noLF; [exact H|].
  apply split_lines_from_noLF. intros [].
Qed.

Lemma readAtLeastALine_noLF (content : list byte) :
  forall fuel h l h',
    Forall (fun l => ~ In LF l) (lines h) ->
    readAtLeastALine fuel content h = Resolved (l, h') ->
    Forall (fun l => ~ In LF l) (lines h')
    /\ forall line, l = Some line -> ~ In LF line.
Proof.
  induction fuel as [|fuel IH]; intros h l h' Hl; cbn [readAtLeastALine];
    destruct (drain_noLF Hl) as [Dr Dl];
    destruct (drain (lines h)) as [[line|] rest] eqn:D; cbn [fst snd] in *.
  1, 3: intros H; inversion H; subst; split; [exact Dr|];
    intros line' E; inversion E; subst; now apply Dl.
  all: destruct (unread (set_lines rest h)).
  - discriminate.
  - cbn [lines set_lines]. destruct rest as [|x rest]; intros H;
      inversion H; subst; cbn [lines set_lines].
    + split; [constructor|discriminate].
    + split; [exact (Forall_inv_tail Dr)|].
      intros line' E. inversion E; subst. exact (Forall_inv Dr).
  - apply IH. apply read_chunk_noLF. exact Dr.
  - cbn [lines set_lines]. destruct rest as [|x rest]; intros H;
      inversion H; subst; cbn [lines set_lines].
    + split; [constructor|discriminate].
    + split; [exact (Forall_inv_tail Dr)|].
      intros line' E. inversion E; subst. exact (Forall_inv Dr).
Qed.

(** X18: a line returned by [_readTagLine] holds no line feed, and
    neither do the lines left in the deque, given that none of the
    lines in the deque held one before the call. *)
Theorem X18_lines_hold_no_line_feed (content : list byte) (h h' : CTags)
        (line : jsstring) :
  Forall (fun l => ~ In LF l) (lines h) ->
  _readTagLine content h = Resolved (Some line, h') ->
  ~ In LF line /\ Forall (fun l => ~ In LF l) (lines h').
Proof.
  intros Hl H. unfold _readTagLine in H.
  destruct (@readAtLeastALine_noLF content _ _ _ _ Hl H) as [A B].
  split; [now apply B|exact A].
Qed.

Lemma X18_lines_hold_no_line_feed_witness :
  exists h',
    _readTagLine seek_file (sized zero_mem seek_file)
    = Resolved (Some (lit "ab"), h')
    /\ ~ In LF (lit "ab").
Proof.
  eexists. split.
  - vm_compute. reflexivity.
  - eapply (proj1 (@X18_lines_hold_no_line_feed seek_file
                     (sized zero_mem seek_file) _ (lit "ab") _ _)).
    Unshelve. all: try (vm_compute; reflexivity). constructor.
Defined.

(* ================================================================= *)
(** * Further properties of the locator *)

Lemma ancestor_succ (k : nat) (dir : path) :
  ancestor (S k) dir = ancestor k (dirname dir).
Proof. unfold ancestor. apply Nat.iter_succ_r. Qed.

Lemma StronglySorted_app_r (A : Type) (R : A -> A -> Prop) (l1 l2 : list A) :
  StronglySorted R (l1 ++ l2) -> StronglySorted R l2.
Proof.
  induction l1 as [|a l1 IH]; [auto|]. cbn [app]. intros H.
  apply StronglySorted_inv in H. apply IH, H.
Qed.

Section Outcome.

Variable minimatch_filter : jsstring -> bool.
Variable mem : nat -> byte.
Variable fs : FileSystem.

Local Abbreviation finder := (ctagsFinder minimatch_filter mem fs).
Local Abbreviation quiet := (quiet minimatch_filter fs).
Local Abbreviation first_opening := (first_opening minimatch_filter fs).

Lemma none_opens_quiet (dir : path) (files : list jsstring) :
  readdir fs dir = Ok files ->
  (forall x, In x (sort (filter minimatch_filter files)) ->
             exists e, open fs (join dir x) = Err e) ->
  quiet dir.
Proof.
  intros Hr Hn. exists files. split; [exact Hr|].
  intros x Hx Hm. apply Hn. apply matched_In. now split.
Qed.

(** The three ways a search can end. *)
Lemma ctagsFinder_outcome :
  forall fuel dir,
    length dir <= fuel ->
    (exists k e,
        k <= length dir
        /\ (forall j, j < k -> quiet (ancestor j dir))
        /\ readdir fs (ancestor k dir) = Err e
        /\ finder fuel dir = Rejected e)
    \/ (exists k m fd,
           k <= length dir
           /\ (forall j, j < k -> quiet (ancestor j dir))
           /\ first_opening (ancestor k dir) m fd
           /\ finder fuel dir
              = Resolved (Some (new_CTags mem (join (ancestor k dir) m) fd)))
    \/ ((forall j, j <= length dir -> quiet (ancestor j dir))
        /\ finder fuel dir = Resolved None).
Proof.
  induction fuel as [|fuel IH]; intros dir Hl.
  all: destruct (readdir fs dir) as [files|e] eqn:Hr;
    [|left; exists 0, e; split; [lia|]; split; [intros j Hj; lia|];
      split; [exact Hr|];
      now apply (@ctagsFinder_rejected minimatch_filter mem fs)].
  all: destruct (@reduce_cases fs dir (sort (filter minimatch_filter files)))
      as [[before [m [after [fd [Hs [Hb Hm]]]]]]|Hn];
    [right; left; exists 0, m, fd; split; [lia|];
     split; [intros j Hj; lia|];
     split; [exists files, before, after; auto|];
     now apply (@ctagsFinder_found minimatch_filter mem fs _ dir files
                                   before m after fd)|].
  all: pose proof (none_opens_quiet dir Hr Hn) as Q;
    rewrite (@ctagsFinder_none minimatch_filter mem fs _ dir files Hr Hn).
  all: destruct dir as [|a dir];
    [right; right; split; [|reflexivity];
     intros j Hj; simpl in Hj; assert (j = 0) by lia; subst j; exact Q|].
  - simpl in Hl. lia.
  - assert (Hd : length (dirname (a :: dir)) <= fuel)
      by (rewrite dirname_length; simpl in *; lia).
    assert (Ld : length (a :: dir) = S (length (dirname (a :: dir))))
      by (rewrite dirname_length; simpl; lia).
    assert (Sh : forall k,
               (forall j, j < k -> quiet (ancestor j (dirname (a :: dir)))) ->
               forall j, j < S k -> quiet (ancestor j (a :: dir))).
    { intros k H j Hj. destruct j as [|j]; [exact Q|].
      rewrite ancestor_succ. apply H. lia. }
    destruct (IH _ Hd)
      as [[k [e [Hk [Hq [He Hf]]]]]
         |[[k [m [fd [Hk [Hq [Ho Hf]]]]]]|[Hq Hf]]].
    + left. exists (S k), e. rewrite ancestor_succ.
      split; [lia|]. split; [now apply Sh|]. split; assumption.
    + right. left. exists (S k), m, fd. rewrite ancestor_succ.
      split; [lia|]. split; [now apply Sh|]. split; assumption.
    + right. right. split; [|exact Hf].
      intros j Hj. destruct j as [|j]; [exact Q|].
      rewrite ancestor_succ. apply Hq. lia.
Qed.

Lemma ctagsFinder_all_quiet (start : path) :
  (forall j, j <= length start -> quiet (ancestor j start)) ->
  finder (length start) start = Resolved None.
Proof.
  intros Hq.
  rewrite (@ctagsFinder_ascend minimatch_filter mem fs start (length start))
    by (auto; intros j Hj; apply Hq; lia).
  pose proof (ancestor_length (length start) start) as L.
  rewrite Nat.sub_diag in L.
  destruct (quiet_none_opens (Hq (length start) (le_n _)))
    as [files [Hr Hn]].
  rewrite (@ctagsFinder_none minimatch_filter mem fs _ _ files Hr Hn).
  destruct (ancestor (length start) start); [reflexivity|discriminate L].
Qed.

End Outcome.

(** X19: [findCTagsFile] resolves with not found exactly when the
    path can be examined and every directory from the start up to the
    root can be listed and holds no matching entry that opens. *)
Theorem X19_not_found_iff_all_quiet (minimatch_filter : jsstring -> bool)
        (mem : nat -> byte) (fs : FileSystem) (p : path) :
  findCTagsFile minimatch_filter mem fs p = Resolved None
  <-> exists isFile,
        stat_isFile fs p = Ok isFile
        /\ forall j, j <= length (start_of p isFile) ->
                     quiet minimatch_filter fs (ancestor j (start_of p isFile)).
Proof.
  unfold findCTagsFile. split.
  - destruct (stat_isFile fs p) as [isFile|e]; cbn [async then_];
      [|discriminate].
    intros H. exists isFile. split; [reflexivity|].
    fold (start_of p isFile) in H.
    destruct (@ctagsFinder_outcome minimatch_filter mem fs _
                (start_of p isFile) (le_n _))
      as [[k [e [_ [_ [_ Hf]]]]]
         |[[k [m [fd [_ [_ [_ Hf]]]]]]|[Hq _]]].
    + rewrite Hf in H. discriminate H.
    + rewrite Hf in H. discriminate H.
    + exact Hq.
  - intros [isFile [Hs Hq]]. rewrite Hs. cbn [async then_].
    fold (start_of p isFile).
    now apply (@ctagsFinder_all_quiet minimatch_filter mem fs).
Qed.

(** X20: a handle found by [findCTagsFile] is the fresh handle of an
    entry [m] of the nearest directory, going up from the start, that
    holds a matching entry that opens; [m] matches the pattern and
    opens, and it comes first, in the order of [sort], among the
    matching entries of that directory that open. *)
Theorem X20_found_is_nearest_and_first (minimatch_filter : jsstring -> bool)
        (mem : nat -> byte) (fs : FileSystem) (p : path) (h : CTags) :
  findCTagsFile minimatch_filter mem fs p = Resolved (Some h) ->
  exists isFile k m fd files,
    let dir := ancestor k (start_of p isFile) in
    stat_isFile fs p = Ok isFile
    /\ k <= length (start_of p isFile)
    /\ (forall j, j < k ->
                  quiet minimatch_filter fs (ancestor j (start_of p isFile)))
    /\ h = new_CTags mem (join dir m) fd
    /\ open fs (join dir m) = Ok fd
    /\ readdir fs dir = Ok files
    /\ In m files /\ minimatch_filter m = true
    /\ forall x fd',
         In x files -> minimatch_filter x = true ->
         open fs (join dir x) = Ok fd' -> ascending m x.
Proof.
  unfold findCTagsFile.
  destruct (stat_isFile fs p) as [isFile|e]; cbn [async then_];
    [|discriminate].
  fold (start_of p isFile). intros H.
  destruct (@ctagsFinder_outcome minimatch_filter mem fs _
              (start_of p isFile) (le_n _))
    as [[k [e [_ [_ [_ Hf]]]]]
       |[[k [m [fd [Hk [Hq [Ho Hf]]]]]]|[_ Hf]]];
    rewrite Hf in H; try discriminate H.
  inversion H; subst h. clear H.
  destruct Ho as [files [before [after [Hr [Hs [Hb Hm]]]]]].
  exists isFile, k, m, fd, files. cbv zeta.
  assert (Hin : In m (sort (filter minimatch_filter files))).
  { rewrite Hs. apply in_or_app. right. now left. }
  apply matched_In in Hin. destruct Hin as [Hin Hmf].
  repeat (split; [assumption || reflexivity|]).
  intros x fd' Hx Hxf Hxo.
  assert (Hxm : In x (before ++ m :: after)).
  { rewrite <- Hs. apply matched_In. now split. }
  apply in_app_or in Hxm. destruct Hxm as [Hxb|[<-|Hxa]].
  - destruct (Hb x Hxb) as [e He]. rewrite He in Hxo. discriminate Hxo.
  - apply jsstring_leb_refl.
  - pose proof (sort_sorted (filter minimatch_filter files)) as S.
    rewrite Hs in S. apply StronglySorted_app_r in S.
    apply StronglySorted_inv in S. destruct S as [_ S].
    rewrite Forall_forall in S. now apply S.
Qed.

Lemma X20_found_is_nearest_and_first_witness :
  exists isFile k m fd files,
    let dir := ancestor k (start_of [lit "a"; lit "b"; lit "c"] isFile) in
    stat_isFile tree_fs [lit "a"; lit "b"; lit "c"] = Ok isFile
    /\ k <= length (start_of [lit "a"; lit "b"; lit "c"] isFile)
    /\ (forall j, j < k ->
                  quiet tags_filter tree_fs
                        (ancestor j (start_of [lit "a"; lit "b"; lit "c"]
                                              isFile)))
    /\ new_CTags zero_mem [lit "a"; lit "TAGS"] 3
       = new_CTags zero_mem (join dir m) fd
    /\ open tree_fs (join dir m) = Ok fd
    /\ readdir tree_fs dir = Ok files
    /\ In m files /\ tags_filter m = true
    /\ forall x fd',
         In x files -> tags_filter x = true ->
         open tree_fs (join dir x) = Ok fd' -> ascending m x.
Proof.
  apply (@X20_found_is_nearest_and_first tags_filter zero_mem tree_fs
           [lit "a"; lit "b"; lit "c"]
           (new_CTags zero_mem [lit "a"; lit "TAGS"] 3)).
  vm_compute. reflexivity.
Defined.

(** X21: when [findCTagsFile] is rejected, the error is the one [stat]
    gave for the path or the one [readdir] gave for a directory on the
    way up, every directory below which was listed and held no
    matching entry that opens; an entry that fails to open never
    rejects the search. *)
Theorem X21_rejection_origin (minimatch_filter : jsstring -> bool)
        (mem : nat -> byte) (fs : FileSystem) (p : path) (e : error) :
  findCTagsFile minimatch_filter mem fs p = Rejected e ->
  stat_isFile fs p = Err e
  \/ exists isFile k,
       stat_isFile fs p = Ok isFile
       /\ k <= length (start_of p isFile)
       /\ (forall j, j < k ->
                     quiet minimatch_filter fs
                           (ancestor j (start_of p isFile)))
       /\ readdir fs (ancestor k (start_of p isFile)) = Err e.
Proof.
  unfold findCTagsFile.
  destruct (stat_isFile fs p) as [isFile|e0]; cbn [async then_].
  - fold (start_of p isFile). intros H. right.
    destruct (@ctagsFinder_outcome minimatch_filter mem fs _
                (start_of p isFile) (le_n _))
      as [[k [e1 [Hk [Hq [He Hf]]]]]
         |[[k [m [fd [_ [_ [_ Hf]]]]]]|[_ Hf]]];
      rewrite Hf in H; try discriminate H.
    inversion H; subst e1. exists isFile, k. auto.
  - intros H. inversion H. now left.
Qed.

Lemma X21_rejection_origin_witness :
  stat_isFile locked_fs [lit "a"; lit "b"; lit "c"] = Err EACCES
  \/ exists isFile k,
       stat_isFile locked_fs [lit "a"; lit "b"; lit "c"] = Ok isFile
       /\ k <= length (start_of [lit "a"; lit "b"; lit "c"] isFile)
       /\ (forall j, j < k ->
                     quiet tags_filter locked_fs
                           (ancestor j (start_of [lit "a"; lit "b"; lit "c"]
                                                 isFile)))
       /\ readdir locked_fs
                  (ancestor k (start_of [lit "a"; lit "b"; lit "c"] isFile))
          = Err EACCES.
Proof.
  apply (@X21_rejection_origin tags_filter zero_mem locked_fs
           [lit "a"; lit "b"; lit "c"] EACCES).
  vm_compute. reflexivity.
Defined.

(** X22: [findCTagsFile] always settles: it resolves, with a handle or
    with not found, or it is rejected; the search cannot go on for ever,
    since every ascent shortens the path and the root is its own
    parent. *)
Theorem X22_search_settles (minimatch_filter : jsstring -> bool)
        (mem : nat -> byte) (fs : FileSystem) (p : path) :
  (exists r, findCTagsFile minimatch_filter mem fs p = Resolved r)
  \/ (exists e, findCTagsFile minimatch_filter mem fs p = Rejected e).
Proof.
  pose proof (@findCTagsFile_settles minimatch_filter mem fs p) as H.
  destruct (findCTagsFile minimatch_filter mem fs p) as [r|e|];
    [left; now exists r|right; now exists e|congruence].
Qed.
